(** * Variable-star light curves: period search and phase folding

    A shallow embedding of the analysis cells of the notebook
    [Introduction/07b_Variable_Star_Lightcurves] (band partition of the
    forced photometry, Lomb-Scargle peak selection, multi-band consensus
    period, phase folding, and the DiaObject candidate query), together
    with the properties the specification states about them.

    Numbers.  The notebook computes with numpy [float64] arrays.  The
    values of the tables (times, magnitudes, frequencies, powers) are
    finite float64 numbers and are held as the rationals they denote, so
    an array is a [list Q]; comparisons, masks, [np.min] and [np.argmax]
    are exact on them.  The arithmetic cells are given twice.  The
    definitions without suffix compute in exact rational arithmetic and
    carry the properties that do not depend on rounding: which keys and
    rows a cell produces, which exception it raises, which operations it
    composes.  The definitions with the suffix [64] compute with the
    float64 operations of module [F64] (rounding to nearest, overflow to
    infinity, NaN) and carry the properties about the numbers that come
    out.  Astropy units ([u.day], [.value]) only tag values and are
    dropped.

    Exceptions.  Python code that can raise is written in the monad [py],
    whose [Raise] carries the name of the exception class.

    Collaborators.  [LombScargle(...).autopower(...)] and the ADQL
    geometry predicate [CONTAINS(POINT, CIRCLE)] are library or service
    calls; the pipeline takes them as arguments. *)

From Stdlib Require Import QArith Qround Qabs Qpower Qreduction ZArith List Bool
  Sorted Permutation Lqa Lia Floats.
From stdpp Require Import base option list strings gmap fin_maps.

Local Open Scope string_scope.
Local Open Scope list_scope.

(** ** Python exceptions *)

Module Py.

Inductive py (A : Type) : Type :=
| Return (a : A)
| Raise (cls : string).
Arguments Return {A} a.
Arguments Raise {A} cls.

Definition bind {A B} (m : py A) (k : A → py B) : py B :=
  match m with
  | Return a => k a
  | Raise cls => Raise cls
  end.

#[export] Instance py_ret : MRet py := @Return.
#[export] Instance py_bind : MBind py := λ A B k m, bind m k.

(** [for x in xs: body], threading the variables the body assigns. *)
Fixpoint for_each {A S} (xs : list A) (body : A → S → py S) (s : S) : py S :=
  match xs with
  | [] => Return s
  | x :: xs' => s' ← body x s; for_each xs' body s'
  end.

(** [d[k]] on a dict. *)
Definition getitem {V} (d : gmap string V) (k : string) : py V :=
  match d !! k with
  | Some v => Return v
  | None => Raise "KeyError"
  end.

(** [a[i]] on an array, for a non-negative index. *)
Definition index {A} (a : list A) (i : nat) : py A :=
  match a !! i with
  | Some x => Return x
  | None => Raise "IndexError"
  end.

End Py.
Import Py.

(** ** numpy *)

Module Np.

Local Open Scope Q_scope.

(** [np.mod(a, b)]: the remainder of the floored division, which has the
    sign of the divisor.  numpy gives NaN for [b = 0]; the notebook only
    divides by the literal [1.0].  This is the exact remainder; the
    float64 operation is [F64.mod1]. *)
Definition mod_ (a b : Q) : Q := a - inject_Z (Qfloor (a / b)) * b.

(** Running minimum of [np.min]. *)
Definition min_from (x : Q) (a : list Q) : Q :=
  foldl (λ m y, if Qlt_le_dec y m then y else m) x a.

(** [np.min(a)]; a zero-size array has no minimum. *)
Definition min (a : list Q) : py Q :=
  match a with
  | [] => Raise "ValueError"
  | x :: a' => Return (min_from x a')
  end.

Definition sum (a : list Q) : Q := foldl Qplus 0 a.

(** [np.mean(a)].  numpy gives NaN (with a warning) on a zero-size
    array, where this definition gives [0 / 0].  This is the exact mean;
    the float64 operation is [F64.mean]. *)
Definition mean (a : list Q) : Q := sum a / inject_Z (Z.of_nat (length a)).

(** The scan of [np.argmax]: [best] is the index of the largest value
    [mp] seen so far, and only a strictly larger value replaces it. *)
Fixpoint argmax_from (best : nat) (mp : Q) (i : nat) (a : list Q) : nat :=
  match a with
  | [] => best
  | x :: a' =>
      if Qlt_le_dec mp x then argmax_from i x (S i) a'
      else argmax_from best mp (S i) a'
  end.

(** [np.argmax(a)]; raises on an empty sequence. *)
Definition argmax (a : list Q) : py nat :=
  match a with
  | [] => Raise "ValueError"
  | x :: a' => Return (argmax_from 0%nat x 1%nat a')
  end.

(** [a[mask]] with a boolean mask of the same length. *)
Fixpoint select {A} (a : list A) (mask : list bool) : list A :=
  match a, mask with
  | x :: a', b :: mask' =>
      if b then x :: select a' mask' else select a' mask'
  | _, _ => []
  end.

(** Insertion into a strictly increasing list, keeping it so. *)
Fixpoint insert_unique (x : Z) (l : list Z) : list Z :=
  match l with
  | [] => [x]
  | y :: l' =>
      if (x <? y)%Z then x :: l
      else if (x =? y)%Z then l
      else y :: insert_unique x l'
  end.

(** [np.unique(a)]: the sorted distinct values. *)
Definition unique (a : list Z) : list Z := foldr insert_unique [] a.

(** Insertion into an increasing list. *)
Fixpoint insert_sorted (x : Z) (l : list Z) : list Z :=
  match l with
  | [] => [x]
  | y :: l' => if (x <=? y)%Z then x :: l else y :: insert_sorted x l'
  end.

(** [np.sort(a)] on integers: the values in increasing order.  numpy
    sorts with another algorithm; on integers the result is the same. *)
Definition sort (a : list Z) : list Z := foldr insert_sorted [] a.

End Np.

(** ** The notebook *)

(** Section 1.2: the bands, in plotting order. *)
Definition plot_filter_labels : list string := ["u"; "g"; "r"; "i"; "z"; "y"].

(** A row of the ForcedSource/CcdVisit join of section 2.1.3, with the
    columns the analysis reads. *)
Record ForcedSource := {
  band : string;
  expMidptMJD : Q;
  psfMag : Q
}.

(** A row of the DiaObject/DiaSource join of section 3.1.  [gmag_obj] is
    the column [scisql_nanojanskyToAbMag(obj.gTOTFluxMean)] and [gmag] is
    [scisql_nanojanskyToAbMag(src.totFlux)], both evaluated by the
    database. *)
Record DiaSource := {
  diaObjectId : Z;
  ra : Q;
  decl : Q;
  gTOTFluxMean : Q;
  gTOTFluxSigma : Q;
  gmag_obj : Q;
  gPSFluxNdata : Q;
  gPSFluxStetsonJ : Q;
  filterName : string;
  midPointTai : Q;
  gmag : Q
}.

Abbreviation dict V := (gmap string V).

(** Strict comparison of two columns or literals, as a truth value. *)
Definition Qltb (a b : Q) : bool := if Qlt_le_dec a b then true else false.

(** ** float64 arithmetic *)

(** IEEE 754 binary64 with rounding to nearest, ties to even, as numpy
    computes on [float64] arrays.  A finite number is the rational it
    denotes; an operation computes the exact rational result and rounds
    it.  The sign of a zero is not kept: the two zeros compare equal and
    behave alike in every operation here except as a divisor, where
    [div] takes the zero for [+0.0]. *)
Module F64.
Local Open Scope Q_scope.

Inductive f64 : Type :=
| Num (q : Q)
| Inf (negative : bool)
| NaN.

Definition pow2 (k : Z) : Q := Qpower 2 k.

(** The binary exponent of a non-zero [q]: [2^k <= |q| < 2^(k+1)]. *)
Definition ilog2 (q : Q) : Z :=
  let k := (Z.log2 (Z.abs (Qnum q)) - Z.log2 (Zpos (Qden q)))%Z in
  if Qle_bool (pow2 k) (Qabs q) then k else (k - 1)%Z.

(** The nearest integer, a tie going to the even one. *)
Definition rne (z : Q) : Z :=
  let f := Qfloor z in
  match Qcompare (z - inject_Z f) (1 # 2) with
  | Lt => f
  | Gt => (f + 1)%Z
  | Eq => if Z.even f then f else (f + 1)%Z
  end.

(** The binary64 number nearest to [q]: 53 significant bits, no exponent
    below [-1074] (gradual underflow), and infinity from [2^1024] on. *)
Definition round64 (q : Q) : f64 :=
  if Qeq_bool q 0 then Num 0
  else
    let e := Z.max (ilog2 q - 52) (-1074) in
    let r := inject_Z (rne (q / pow2 e)) * pow2 e in
    if Qle_bool (pow2 1024) (Qabs r) then Inf (Qltb q 0) else Num (Qred r).

Definition opp (x : f64) : f64 :=
  match x with
  | Num a => Num (- a)
  | Inf s => Inf (negb s)
  | NaN => NaN
  end.

Definition add (x y : f64) : f64 :=
  match x, y with
  | Num a, Num b => round64 (a + b)
  | NaN, _ | _, NaN => NaN
  | Inf s, Inf s' => if Bool.eqb s s' then Inf s else NaN
  | Inf s, Num _ | Num _, Inf s => Inf s
  end.

Definition sub (x y : f64) : f64 := add x (opp y).

(** Division; numpy warns on a zero divisor and returns an infinity, or
    NaN for [0 / 0]. *)
Definition div (x y : f64) : f64 :=
  match x, y with
  | NaN, _ | _, NaN => NaN
  | Inf _, Inf _ => NaN
  | Inf s, Num b => Inf (xorb s (Qltb b 0))
  | Num _, Inf _ => Num 0
  | Num a, Num b =>
      if Qeq_bool b 0 then (if Qeq_bool a 0 then NaN else Inf (Qltb a 0))
      else round64 (a / b)
  end.

(** C's [fmod(a, 1.0)]: [a] minus its integer part, exact, with the sign
    of [a]. *)
Definition fmod1 (a : Q) : Q :=
  a - inject_Z (Z.quot (Qnum a) (Zpos (Qden a))).

(** [np.mod(x, 1.0)]: [fmod], then one addition of the divisor when the
    remainder is negative; NaN for an infinity or NaN. *)
Definition mod1 (x : f64) : f64 :=
  match x with
  | Num a =>
      let r := fmod1 a in
      if Qeq_bool r 0 then Num 0
      else if Qltb r 0 then add (Num r) (Num 1)
      else Num (Qred r)
  | _ => NaN
  end.

(** [np.sum] of a short array: the additions run from left to right
    (numpy sums pairwise only from eight elements on). *)
Definition sum (a : list f64) : f64 := foldl add (Num 0) a.

(** [np.mean(a)]: the sum divided by the number of elements. *)
Definition mean (a : list f64) : f64 :=
  div (sum a) (round64 (inject_Z (Z.of_nat (length a)))).

(** The machine's binary64 numbers, read into the model. *)
Definition of_float (x : float) : f64 :=
  match Prim2SF x with
  | S754_zero _ => Num 0
  | S754_infinity s => Inf s
  | S754_nan => NaN
  | S754_finite s m e =>
      Num (Qred ((if s then - 1 else 1) * inject_Z (Zpos m) * pow2 e))
  end.

(** A machine number from an integer below [2^63]. *)
Definition float_of_Z (n : Z) : float := PrimFloat.of_uint63 (Uint63.of_Z n).

(** The value of a finite number; [0] stands in for the others. *)
Definition value (x : f64) : Q :=
  match x with
  | Num q => q
  | _ => 0
  end.

End F64.
Import F64.

Section PhaseFold.
Local Open Scope Q_scope.

(** [mjd_norm = (mjd - t0) / period], broadcast over the array, in exact
    arithmetic ([mjd_norm64_of] in float64). *)
Definition mjd_norm_of (mjd : list Q) (t0 period : Q) : list Q :=
  map (λ t, (t - t0) / period) mjd.

(** [phase = np.mod(mjd_norm, 1.0)]. *)
Definition phase_of (mjd_norm : list Q) : list Q :=
  map (λ x, Np.mod_ x 1) mjd_norm.

End PhaseFold.

(** *** Section 2: one known RR Lyrae, all bands *)

Section SingleObject.
Local Open Scope Q_scope.

(** [LombScargle(t, y).autopower(minimum_frequency, maximum_frequency)],
    returning the arrays [(frequency, power)]. *)
Variable LombScargle_autopower :
  list Q → list Q → Q → Q → py (list Q * list Q).

(** Section 2.1.4: one boolean mask per band. *)
Definition pick_of (srcs : list ForcedSource) : dict (list bool) :=
  foldl (λ pick filter,
           <[filter := map (λ r, String.eqb (band r) filter) srcs]> pick)
        ∅ plot_filter_labels.

(** Section 2.2.1: per-band times and magnitudes. *)
Definition extract (srcs : list ForcedSource) (pick : dict (list bool))
  : py (dict (list Q) * dict (list Q)) :=
  for_each plot_filter_labels
    (λ filter '(mjd_days, mags),
       m1 ← getitem pick filter;
       m2 ← getitem pick filter;
       Return (<[filter := map expMidptMJD (Np.select srcs m1)]> mjd_days,
               <[filter := map psfMag (Np.select srcs m2)]> mags))
    (∅, ∅).

(** The search window, in days. *)
Variables min_period max_period : Q.

Definition min_freq_search : Q := 1 / max_period.
Definition max_freq_search : Q := 1 / min_period.

(** One periodogram per band. *)
Definition periodograms (mjd_days mags : dict (list Q))
  : py (dict (list Q) * dict (list Q)) :=
  for_each plot_filter_labels
    (λ filter '(frequency, power),
       t ← getitem mjd_days filter;
       y ← getitem mags filter;
       '(f, p) ← LombScargle_autopower t y min_freq_search max_freq_search;
       Return (<[filter := f]> frequency, <[filter := p]> power))
    (∅, ∅).

(** The frequency of the peak power in each band, in band order. *)
Definition peak_freqs (frequency power : dict (list Q)) : py (list Q) :=
  for_each plot_filter_labels
    (λ filter all_peak_freqs,
       p ← getitem power filter;
       peakbin ← Np.argmax p;
       f ← getitem frequency filter;
       x ← index f peakbin;
       Return (all_peak_freqs ++ [x]))
    [].

Definition mean_peak_freq_of (all_peak_freqs : list Q) : Q :=
  Np.mean all_peak_freqs.

Definition best_period_of (mean_peak_freq : Q) : Q := 1 / mean_peak_freq.

(** The variables the phase-folding cell of section 2.2.2 leaves behind. *)
Record Folded := {
  t0 : Q;
  mjd_norm : dict (list Q);
  phase : dict (list Q)
}.

(** Section 2.2.2, phase folding: the epoch is the first g-band time. *)
Definition fold_bands (mjd_days : dict (list Q)) (best_period : Q) : py Folded :=
  g ← getitem mjd_days "g";
  t0 ← Np.min g;
  '(mjd_norm, phase) ←
    for_each plot_filter_labels
      (λ filter '(mjd_norm, phase),
         t ← getitem mjd_days filter;
         let n := mjd_norm_of t t0 best_period in
         Return (<[filter := n]> mjd_norm, <[filter := phase_of n]> phase))
      (∅, ∅);
  Return {| t0 := t0; mjd_norm := mjd_norm; phase := phase |}.

(** The periodogram cells: the mean of the per-band peak frequencies
    and the period it stands for. *)
Definition consensus (mjd_days mags : dict (list Q)) : py (Q * Q) :=
  '(frequency, power) ← periodograms mjd_days mags;
  all_peak_freqs ← peak_freqs frequency power;
  let mean_peak_freq := mean_peak_freq_of all_peak_freqs in
  Return (mean_peak_freq, best_period_of mean_peak_freq).

(** Sections 2.1.4 to 2.2.2 in sequence. *)
Definition single_object (srcs : list ForcedSource) : py (Q * Q * Folded) :=
  '(mjd_days, mags) ← extract srcs (pick_of srcs);
  '(mean_peak_freq, best_period) ← consensus mjd_days mags;
  folded ← fold_bands mjd_days best_period;
  Return (mean_peak_freq, best_period, folded).

End SingleObject.

(** The window the notebook sets. *)
Definition notebook_min_period : Q := 5 # 100.
Definition notebook_max_period : Q := 105 # 100.

(** *** Section 3: candidate variables from DiaObject *)

Section Candidates.
Local Open Scope Q_scope.

(** [CONTAINS(POINT('ICRS', ra, decl), CIRCLE('ICRS', ra0, dec0, radius)) = 1],
    evaluated by the TAP service. *)
Variable contains_circle : Q → Q → Q → Q → Q → bool.

(** The centre of the search cone. *)
Variables ra_known_rrl dec_known_rrl : Q.

(** The [WHERE] clause of the query of section 3.1, on one joined row.
    A zero [gTOTFluxMean] makes the ratio NULL in the database and the
    row is dropped; here the quotient is [0] and the first conjunct
    drops it as well. *)
Definition where_clause (r : DiaSource) : bool :=
  Qltb (25 # 100) (gTOTFluxSigma r / gTOTFluxMean r)
  && Qltb (gTOTFluxSigma r / gTOTFluxMean r) (125 # 100)
  && Qltb 18 (gmag_obj r)
  && Qltb (gmag_obj r) 23
  && Qltb 30 (gPSFluxNdata r)
  && Qltb 20 (gPSFluxStetsonJ r)
  && String.eqb (filterName r) "g"
  && contains_circle (ra r) (decl r) ra_known_rrl dec_known_rrl 5.

(** [dia_sources]: the rows the query returns. *)
Definition query (table : list DiaSource) : list DiaSource :=
  filter (λ r, where_clause r = true) table.

(** The same clause with its literals named, as the specification
    names them. *)
Record Thresholds := {
  loRatio : Q;
  hiRatio : Q;
  brightMag : Q;
  faintMag : Q;
  minCount : Q;
  minVariabilityStatistic : Q;
  radius : Q
}.

Definition default_thresholds : Thresholds := {|
  loRatio := 25 # 100;
  hiRatio := 125 # 100;
  brightMag := 18;
  faintMag := 23;
  minCount := 30;
  minVariabilityStatistic := 20;
  radius := 5
|}.

Definition ratio_criterion (th : Thresholds) (r : DiaSource) : bool :=
  Qltb (loRatio th) (gTOTFluxSigma r / gTOTFluxMean r)
  && Qltb (gTOTFluxSigma r / gTOTFluxMean r) (hiRatio th).

Definition magnitude_criterion (th : Thresholds) (r : DiaSource) : bool :=
  Qltb (brightMag th) (gmag_obj r) && Qltb (gmag_obj r) (faintMag th).

Definition count_criterion (th : Thresholds) (r : DiaSource) : bool :=
  Qltb (minCount th) (gPSFluxNdata r).

Definition variability_criterion (th : Thresholds) (r : DiaSource) : bool :=
  Qltb (minVariabilityStatistic th) (gPSFluxStetsonJ r).

Definition position_criterion (th : Thresholds) (r : DiaSource) : bool :=
  contains_circle (ra r) (decl r) ra_known_rrl dec_known_rrl (radius th).

Definition candidate_filter (th : Thresholds) (r : DiaSource) : bool :=
  ratio_criterion th r
  && magnitude_criterion th r
  && count_criterion th r
  && variability_criterion th r
  && String.eqb (filterName r) "g"
  && position_criterion th r.

Definition select_candidates (th : Thresholds) (table : list DiaSource)
  : list DiaSource :=
  filter (λ r, candidate_filter th r = true) table.

End Candidates.

Section CandidatePeriods.
Local Open Scope Q_scope.

Variable LombScargle_autopower :
  list Q → list Q → Q → Q → py (list Q * list Q).

Definition minfreq : Q := 1 / (125 # 100).
Definition maxfreq : Q := 1 / (5 # 100).

(** The rows of one object: [dia_sources[findobj]]. *)
Definition rows_of (dia_sources : list DiaSource) (objid : Z) : list DiaSource :=
  Np.select dia_sources (map (λ r, Z.eqb (diaObjectId r) objid) dia_sources).

(** The body of the loop of section 3.2: peak power and its frequency
    for one object. *)
Definition object_peak (dia_sources : list DiaSource) (objid : Z) : py (Q * Q) :=
  let obj_mjd_days := map midPointTai (rows_of dia_sources objid) in
  let obj_mags := map gmag (rows_of dia_sources objid) in
  '(obj_frequency, obj_power) ←
    LombScargle_autopower obj_mjd_days obj_mags minfreq maxfreq;
  max_power ← Np.argmax obj_power;
  p ← index obj_power max_power;
  f ← index obj_frequency max_power;
  Return (p, f).

(** Section 3.2: [(objids, LSpower, LSfreq)]. *)
Definition object_periods (dia_sources : list DiaSource)
  : py (list Z * list Q * list Q) :=
  let objids := Np.unique (map diaObjectId dia_sources) in
  '(LSpower, LSfreq) ←
    for_each objids
      (λ objid '(LSpower, LSfreq),
         '(p, f) ← object_peak dia_sources objid;
         Return (LSpower ++ [p], LSfreq ++ [f]))
      ([], []);
  Return (objids, LSpower, LSfreq).

(** What one pass of the plotting loop of section 3.3 computes. *)
Record ObjectFold := {
  obj_period : Q;
  obj_t0 : Q;
  obj_phase : list Q
}.

(** The body of the loop of section 3.3 for [objids[i]]: the period, the
    epoch and the phases it assigns, in exact arithmetic.  The pass with
    the line it prints, in float64, is [fold_object64]. *)
Definition fold_object (dia_sources : list DiaSource) (objids : list Z)
  (LSfreq : list Q) (i : nat) : py ObjectFold :=
  objid ← index objids i;
  let obj_mjd_days := map midPointTai (rows_of dia_sources objid) in
  f ← index LSfreq i;
  let obj_period := 1 / f in
  let t0 := 0 in
  let obj_mjd_norm := mjd_norm_of obj_mjd_days t0 obj_period in
  Return {| obj_period := obj_period; obj_t0 := t0;
            obj_phase := phase_of obj_mjd_norm |}.

Definition fold_objects (dia_sources : list DiaSource) (objids : list Z)
  (LSfreq : list Q) : py (list ObjectFold) :=
  for_each (seq 0 (length objids))
    (λ i folds, o ← fold_object dia_sources objids LSfreq i;
                Return (folds ++ [o]))
    [].

End CandidatePeriods.

(** *** The arithmetic cells in float64 *)

(** The cells above compute in exact arithmetic; the definitions of this
    section are the same cells with numpy's float64 operations.  The
    table values (times, frequencies, powers) are finite float64 numbers
    and stay rationals; selections, [np.min] and [np.argmax] compare
    them exactly.  The period is a computed float64 value. *)
Section Float64Cells.
Local Open Scope Q_scope.

(** [mjd_norm = (mjd - t0) / period]. *)
Definition mjd_norm64_of (mjd : list Q) (t0 : Q) (period : f64) : list f64 :=
  map (λ t, F64.div (F64.sub (Num t) (Num t0)) period) mjd.

(** [phase = np.mod(mjd_norm, 1.0)]. *)
Definition phase64_of (mjd_norm : list f64) : list f64 :=
  map F64.mod1 mjd_norm.

Record Folded64 := {
  t0_64 : Q;
  mjd_norm64 : dict (list f64);
  phase64 : dict (list f64)
}.

(** Section 2.2.2, phase folding. *)
Definition fold_bands64 (mjd_days : dict (list Q)) (best_period : f64)
  : py Folded64 :=
  g ← getitem mjd_days "g";
  t0 ← Np.min g;
  '(mjd_norm, phase) ←
    for_each plot_filter_labels
      (λ filter '(mjd_norm, phase),
         t ← getitem mjd_days filter;
         let n := mjd_norm64_of t t0 best_period in
         Return (<[filter := n]> mjd_norm, <[filter := phase64_of n]> phase))
      (∅, ∅);
  Return {| t0_64 := t0; mjd_norm64 := mjd_norm; phase64 := phase |}.

(** Section 2.2.1: [min_freq_search = 1.0 / max_period] and
    [max_freq_search = 1.0 / min_period]. *)
Definition min_freq_search64 (max_period : Q) : f64 :=
  F64.div (Num 1) (Num max_period).
Definition max_freq_search64 (min_period : Q) : f64 :=
  F64.div (Num 1) (Num min_period).

(** [mean_peak_freq = np.mean(all_peak_freqs)]. *)
Definition mean_peak_freq64 (all_peak_freqs : list Q) : f64 :=
  F64.mean (map Num all_peak_freqs).

(** [best_period = 1 / mean_peak_freq]. *)
Definition best_period64 (mean_peak_freq : f64) : f64 :=
  F64.div (Num 1) mean_peak_freq.

(** The periodogram cells after the service has answered: the peak of
    every band, their mean and the period. *)
Definition consensus64 (frequency power : dict (list Q)) : py (f64 * f64) :=
  all_peak_freqs ← peak_freqs frequency power;
  let mean_peak_freq := mean_peak_freq64 all_peak_freqs in
  Return (mean_peak_freq, best_period64 mean_peak_freq).

Record ObjectFold64 := {
  obj_period64 : f64;
  obj_mjd_norm64 : list f64;
  obj_phase64 : list f64
}.

(** The body of the loop of section 3.3 for [objids[i]], with the line
    it prints: [dia_sources[findobj]['ra'][0]] and ['decl'][0] need a
    row. *)
Definition fold_object64 (dia_sources : list DiaSource) (objids : list Z)
  (LSfreq : list f64) (i : nat) : py ObjectFold64 :=
  objid ← index objids i;
  let rows := rows_of dia_sources objid in
  let obj_mjd_days := map midPointTai rows in
  f ← index LSfreq i;
  let obj_period := F64.div (Num 1) f in
  _ ← index (map ra rows) 0;
  _ ← index (map decl rows) 0;
  let t0 := 0 in
  let obj_mjd_norm := mjd_norm64_of obj_mjd_days t0 obj_period in
  Return {| obj_period64 := obj_period; obj_mjd_norm64 := obj_mjd_norm;
            obj_phase64 := phase64_of obj_mjd_norm |}.

Definition fold_objects64 (dia_sources : list DiaSource) (objids : list Z)
  (LSfreq : list f64) : py (list ObjectFold64) :=
  for_each (seq 0 (length objids))
    (λ i folds, o ← fold_object64 dia_sources objids LSfreq i;
                Return (folds ++ [o]))
    [].

End Float64Cells.

(** *** The Butler notebook *)

Section Butler.

(** A line the preview loops print: a data reference, or ['...']. *)
Inductive Line (A : Type) : Type :=
| Shown (ref : A)
| Ellipsis.
#[global] Arguments Shown {A} ref.
#[global] Arguments Ellipsis {A}.

(** [for i, ref in enumerate(datasetRefs): print(ref); if i > limit:
    print('...'); break], from the pass of index [i] on. *)
Fixpoint preview_from {A} (limit i : nat) (datasetRefs : list A) : list (Line A) :=
  match datasetRefs with
  | [] => []
  | ref :: rest =>
      Shown ref ::
        (if (limit <? i)%nat then [Ellipsis]
         else preview_from limit (S i) rest)
  end.

Definition preview {A} (limit : nat) (datasetRefs : list A) : list (Line A) :=
  preview_from limit 0 datasetRefs.

(** Section 3.2 of that notebook: the visits of the data references,
    [np.unique(np.sort(np.asarray(temp, dtype='int')))]. *)
Definition unique_visitIds (temp : list Z) : list Z :=
  Np.unique (Np.sort temp).

End Butler.

(** A table-driven stand-in for the periodogram service, for running the
    pipeline on examples: a three-bin grid over the window whose two
    upper bins tie for the peak. *)
Module Fixture.
Local Open Scope Q_scope.

Definition autopower (t y : list Q) (fmin fmax : Q) : py (list Q * list Q) :=
  Return ([fmin; (fmin + fmax) / 2; fmax], [1 # 4; 3 # 4; 3 # 4]).

(** A flat-sky cone test; a negative radius contains nothing. *)
Definition contains_circle (ra decl ra0 dec0 radius : Q) : bool :=
  if Qlt_le_dec radius 0 then false
  else if Qlt_le_dec (radius * radius)
            ((ra - ra0) * (ra - ra0) + (decl - dec0) * (decl - dec0))
       then false else true.

(** The same stand-in behind a length check: series of fewer than two
    points are refused. *)
Definition autopower_min2 (t y : list Q) (fmin fmax : Q)
  : py (list Q * list Q) :=
  if (length t <? 2)%nat then Raise "ValueError" else autopower t y fmin fmax.

End Fixture.

(** ** Vocabulary of the properties *)

Section Vocabulary.
Local Open Scope Q_scope.

Definition in_unit_interval (ph : Q) : Prop := 0 <= ph ∧ ph < 1.

(** [m] at index [i] is the first occurrence of the maximum of [a]. *)
Definition first_max (a : list Q) (i : nat) (m : Q) : Prop :=
  a !! i = Some m
  ∧ (∀ j v, a !! j = Some v → v <= m)
  ∧ (∀ j v, a !! j = Some v → (j < i)%nat → v < m).

(** The sum of the elements. *)
Definition total (a : list Q) : Q := foldr Qplus 0 a.

(** [x] is the frequency of the first bin of maximum power in band
    [filter]. *)
Definition band_peak (frequency power : dict (list Q)) (filter : string) (x : Q)
    : Prop :=
  ∃ f p i m, frequency !! filter = Some f ∧ power !! filter = Some p
             ∧ first_max p i m ∧ f !! i = Some x.

(** The rows of one band, in input order. *)
Definition band_rows (srcs : list ForcedSource) (filter : string)
  : list ForcedSource :=
  List.filter (λ r, String.eqb (band r) filter) srcs.

Definition band_count (d : dict (list Q)) (filter : string) : nat :=
  from_option length 0%nat (d !! filter).

(** [th'] is at least as permissive as [th] in every numeric threshold. *)
Definition looser (th th' : Thresholds) : Prop :=
  loRatio th' <= loRatio th
  ∧ hiRatio th <= hiRatio th'
  ∧ brightMag th' <= brightMag th
  ∧ faintMag th <= faintMag th'
  ∧ minCount th' <= minCount th
  ∧ minVariabilityStatistic th' <= minVariabilityStatistic th.

(** The exceptions the notebook's own array and dict operations raise. *)
Definition builtin_error (cls : string) : Prop :=
  cls = "KeyError" ∨ cls = "ValueError" ∨ cls = "IndexError".

End Vocabulary.

Section ServiceVocabulary.
Local Open Scope Q_scope.

Variable LombScargle_autopower :
  list Q → list Q → Q → Q → py (list Q * list Q).
Variables min_period max_period : Q.
Variable contains_circle : Q → Q → Q → Q → Q → bool.

(** [(f, p)] is the periodogram the service returns for the series of
    band [filter]. *)
Definition band_periodogram (mjd_days mags : dict (list Q)) (filter : string)
    (f p : list Q) : Prop :=
  ∃ t y, mjd_days !! filter = Some t ∧ mags !! filter = Some y
         ∧ LombScargle_autopower t y (min_freq_search max_period)
             (max_freq_search min_period) = Return (f, p).

(** A larger cone contains whatever a smaller one does. *)
Definition cone_monotone : Prop :=
  ∀ a d a0 d0 r1 r2, r1 <= r2 →
    contains_circle a d a0 d0 r1 = true → contains_circle a d a0 d0 r2 = true.

(** The search radius is kept, or it is enlarged and the service's cone
    test is monotone. *)
Definition radius_loosened (th th' : Thresholds) : Prop :=
  radius th = radius th' ∨ (radius th <= radius th' ∧ cone_monotone).

End ServiceVocabulary.

(** ** Example data *)

Section ExampleData.
Local Open Scope Q_scope.

(** One object seen in all six bands. *)
Definition example_srcs : list ForcedSource := [
  {| band := "g"; expMidptMJD := 59000; psfMag := 17 |};
  {| band := "r"; expMidptMJD := 58999; psfMag := 18 |};
  {| band := "u"; expMidptMJD := 59002; psfMag := 19 |};
  {| band := "g"; expMidptMJD := 59001 + (1 # 4); psfMag := 17 + (1 # 2) |};
  {| band := "i"; expMidptMJD := 59003; psfMag := 18 |};
  {| band := "z"; expMidptMJD := 59004; psfMag := 18 |};
  {| band := "y"; expMidptMJD := 59005; psfMag := 18 |}
].

Definition example_mjd_days : dict (list Q) :=
  list_to_map [("u", [59002]); ("g", [59000; 59001 + (1 # 4)]); ("r", [58999]);
               ("i", [59003]); ("z", [59004]); ("y", [59005])].

Definition example_mags : dict (list Q) :=
  list_to_map [("u", [19]); ("g", [17; 17 + (1 # 2)]); ("r", [18]);
               ("i", [18]); ("z", [18]); ("y", [18])].

(** An observation whose band is none of the six labels. *)
Definition unlisted_band_srcs : list ForcedSource := [
  {| band := "g"; expMidptMJD := 59000; psfMag := 17 |};
  {| band := "Y"; expMidptMJD := 59001; psfMag := 18 |}
].

(** The position of the known RR Lyrae of section 2.1.1. *)
Definition notebook_ra_known_rrl : Q := 621479031 # 10000000.
Definition notebook_dec_known_rrl : Q := - (35799138 # 1000000).

(** A g-band row inside the cone and inside the ratio and magnitude
    ranges, with detection count [n] and variability statistic [v]. *)
Definition candidate_row (n v : Q) : DiaSource := {|
  diaObjectId := 1; ra := 62; decl := - 36;
  gTOTFluxMean := 1000; gTOTFluxSigma := 500; gmag_obj := 19;
  gPSFluxNdata := n; gPSFluxStetsonJ := v;
  filterName := "g"; midPointTai := 59000; gmag := 19
|}.

(** The default thresholds with [minCount] lowered. *)
Definition low_count_thresholds : Thresholds := {|
  loRatio := 25 # 100; hiRatio := 125 # 100; brightMag := 18; faintMag := 23;
  minCount := 5; minVariabilityStatistic := 20; radius := 5
|}.

(** A candidate with a single detection. *)
Definition one_night : list DiaSource := [candidate_row 40 25].

(** A candidate with two detections. *)
Definition two_nights : list DiaSource := [
  {| diaObjectId := 1; ra := 62; decl := - 36;
     gTOTFluxMean := 1000; gTOTFluxSigma := 500; gmag_obj := 19;
     gPSFluxNdata := 40; gPSFluxStetsonJ := 25;
     filterName := "g"; midPointTai := 59000; gmag := 19 |};
  {| diaObjectId := 1; ra := 62; decl := - 36;
     gTOTFluxMean := 1000; gTOTFluxSigma := 500; gmag_obj := 19;
     gPSFluxNdata := 40; gPSFluxStetsonJ := 25;
     filterName := "g"; midPointTai := 59001 + (1 # 4); gmag := 19 + (1 # 2) |}
].

End ExampleData.

(** ** Vocabulary and data of the further properties *)

Section ObjectLoopVocabulary.

Variable LombScargle_autopower :
  list Q → list Q → Q → Q → py (list Q * list Q).

(** [objids], [LSpower] and [LSfreq] line up: entry [i] of the two
    arrays is the peak of object [objids[i]]. *)
Definition peaks_aligned (dia_sources : list DiaSource) (objids : list Z)
    (LSpower LSfreq : list Q) : Prop :=
  length LSpower = length objids
  ∧ length LSfreq = length objids
  ∧ ∀ i objid, objids !! i = Some objid →
      ∃ m x, LSpower !! i = Some m ∧ LSfreq !! i = Some x
             ∧ object_peak LombScargle_autopower dia_sources objid
               = Return (m, x).

End ObjectLoopVocabulary.

Section MoreExampleData.
Local Open Scope Q_scope.

(** Object 1 with two detections and object 2 with one. *)
Definition mixed_nights : list DiaSource :=
  two_nights ++ [
  {| diaObjectId := 2; ra := 62; decl := - 36;
     gTOTFluxMean := 1000; gTOTFluxSigma := 500; gmag_obj := 19;
     gPSFluxNdata := 40; gPSFluxStetsonJ := 25;
     filterName := "g"; midPointTai := 59002; gmag := 19 |}
  ].

End MoreExampleData.

Section Float64Vocabulary.
Local Open Scope Q_scope.

(** [q] is a binary64 number: an integer of fewer than 54 bits times a
    power of two not below [2^-1074], of magnitude below [2^1024]. *)
Definition representable (q : Q) : Prop :=
  ∃ m e : Z, (-1074 <= e)%Z ∧ (Z.abs m < 2 ^ 53)%Z
             ∧ q == inject_Z m * pow2 e ∧ Qabs q < pow2 1024.

(** What [np.mod(x, 1.0)] makes of the elapsed-period count [x]: a
    phase in the closed unit interval that reaches 1 only for a negative
    count of magnitude at most [2^-54]; NaN when the count is not a
    finite number. *)
Definition phase_of_count (x ph : f64) : Prop :=
  match x with
  | Num a =>
      ∃ p, ph = Num p ∧ 0 <= p ∧ p <= 1
           ∧ (p < 1 ∨ (- pow2 (-54) <= a ∧ a < 0))
  | _ => ph = NaN
  end.

(** [best] is the frequency the estimator keeps for the periodogram
    [(frequency, power)], and [m] its power: the bin is one of maximum
    power, and every bin whose power reaches the maximum has a frequency
    at least [best] and a period at most [1 / best]; any other such bin
    lies strictly higher. *)
Definition lowest_frequency_peak (frequency power : list Q) (m best : Q) : Prop :=
  ∃ peakbin,
    power !! peakbin = Some m
    ∧ frequency !! peakbin = Some best
    ∧ (∀ j v, power !! j = Some v → v <= m)
    ∧ (∀ j v fj, power !! j = Some v → m <= v → frequency !! j = Some fj →
         best <= fj ∧ 1 / fj <= 1 / best ∧ (j ≠ peakbin → best < fj)).

(** A periodogram as the specification describes it: one power per
    frequency, at least one bin, on a strictly increasing grid of
    positive frequencies. *)
Definition increasing_grid (frequency power : list Q) : Prop :=
  power ≠ [] ∧ length frequency = length power
  ∧ StronglySorted Qlt frequency ∧ Forall (λ f, 0 < f) frequency.

End Float64Vocabulary.

Section Float64ExampleData.
Local Open Scope Q_scope.

(** An r-band observation [2^-37] days before the only g-band one. *)
Definition early_r_band : dict (list Q) :=
  list_to_map [("u", []); ("g", [59000]); ("r", [59000 - (1 # 2 ^ 37)]);
               ("i", []); ("z", []); ("y", [])].

(** Three g-band nights, the last two exactly one period of 3 days
    apart. *)
Definition three_g_nights : dict (list Q) :=
  list_to_map [("u", []); ("g", [59000; 59001; 59001 + 1 * 3]); ("r", []);
               ("i", []); ("z", []); ("y", [])].

(** Times that are multiples of an eighth of a day, one of them in the
    r band and before the first g-band time. *)
Definition quarter_day_nights : dict (list Q) :=
  list_to_map [("u", []); ("g", [59000; 59000 + (1 # 8); 59000 + (7 # 8)]);
               ("r", [58999 + (5 # 8)]); ("i", []); ("z", []); ("y", [])].

(** The literals [0.05], [1.05] and [0.07] as float64 numbers. *)
Definition min_period_005 : Q := Eval vm_compute in F64.value (round64 (5 # 100)).
Definition max_period_105 : Q := Eval vm_compute in F64.value (round64 (105 # 100)).
Definition max_period_007 : Q := Eval vm_compute in F64.value (round64 (7 # 100)).

(** [1.0 / 1.05], [1.0 / 0.05] and [1.0 / 0.07] in float64. *)
Definition freq_of_105 : Q :=
  Eval vm_compute in F64.value (min_freq_search64 max_period_105).
Definition freq_of_005 : Q :=
  Eval vm_compute in F64.value (max_freq_search64 min_period_005).
Definition freq_of_007 : Q :=
  Eval vm_compute in F64.value (min_freq_search64 max_period_007).

(** Periodograms of two bins at the two ends of the notebook's window,
    the upper one of higher power. *)
Definition window_ends_frequency : dict (list Q) :=
  list_to_map (map (λ label, (label, [freq_of_105; freq_of_005])) plot_filter_labels).
Definition window_ends_power : dict (list Q) :=
  list_to_map (map (λ label, (label, [1 # 4; 3 # 4])) plot_filter_labels).

(** Periodograms over the window [[0.05, 0.07]] whose peak is the lowest
    frequency of the grid in every band. *)
Definition low_edge_frequency : dict (list Q) :=
  list_to_map (map (λ label, (label, [freq_of_007; freq_of_005])) plot_filter_labels).
Definition low_edge_power : dict (list Q) :=
  list_to_map (map (λ label, (label, [3 # 4; 1 # 4])) plot_filter_labels).

End Float64ExampleData.

(** ** Properties *)

Section NumpyFacts.
Local Open Scope Q_scope.

Lemma mod_1_eq (x : Q) : Np.mod_ x 1 == x - inject_Z (Qfloor x).
Proof.
  unfold Np.mod_.
  assert (H : x / 1 == x) by (field; discriminate).
  rewrite H. ring.
Qed.

End NumpyFacts.

(** *** Phase folding *)

Section PhaseFacts.
Local Open Scope Q_scope.

Lemma Qfloor_add_Z (x : Q) (k : Z) :
  Qfloor (x + inject_Z k) = (Qfloor x + k)%Z.
Proof.
  destruct x as [n d].
  unfold Qfloor, Qplus, inject_Z. cbn [Qnum Qden].
  rewrite Pos.mul_1_r, Z.mul_1_r.
  apply Z.div_add. discriminate.
Qed.

Lemma mod_1_comp (x y : Q) : x == y → Np.mod_ x 1 == Np.mod_ y 1.
Proof.
  intros Hxy. rewrite !mod_1_eq, (Qfloor_comp _ _ Hxy), Hxy. reflexivity.
Qed.

End PhaseFacts.

(** *** Peak selection *)

Section ArgmaxFacts.
Local Open Scope Q_scope.

Lemma argmax_from_first_max (a pre : list Q) (best : nat) (mp : Q) :
  first_max pre best mp →
  ∃ m, first_max (pre ++ a) (Np.argmax_from best mp (length pre) a) m.
Proof.
  revert pre best mp.
  induction a as [|x a IH]; intros pre best mp (Hb & Hle & Hlt); cbn [Np.argmax_from].
  - exists mp. rewrite app_nil_r. by repeat split.
  - assert (Hlen : length (pre ++ [x]) = S (length pre))
      by (rewrite length_app; cbn; lia).
    replace (pre ++ x :: a) with ((pre ++ [x]) ++ a)
      by (rewrite <- app_assoc; reflexivity).
    rewrite <- Hlen.
    destruct (Qlt_le_dec mp x) as [Hgt | Hngt]; apply IH; repeat split.
    + rewrite lookup_app_r by lia. by rewrite Nat.sub_diag.
    + intros j v Hj. apply lookup_app_Some in Hj as [Hj | [_ Hj]].
      * apply Qlt_le_weak. eapply Qle_lt_trans; [exact (Hle _ _ Hj) | exact Hgt].
      * apply list_lookup_singleton_Some in Hj as [_ <-]. apply Qle_refl.
    + intros j v Hj Hjlt. rewrite lookup_app_l in Hj by lia.
      eapply Qle_lt_trans; [exact (Hle _ _ Hj) | exact Hgt].
    + rewrite lookup_app_l; [exact Hb | by eapply lookup_lt_Some].
    + intros j v Hj. apply lookup_app_Some in Hj as [Hj | [_ Hj]].
      * exact (Hle _ _ Hj).
      * apply list_lookup_singleton_Some in Hj as [_ <-]. exact Hngt.
    + intros j v Hj Hjlt. apply lookup_lt_Some in Hb.
      rewrite lookup_app_l in Hj by lia. exact (Hlt _ _ Hj Hjlt).
Qed.

Lemma argmax_first_max (a : list Q) :
  a ≠ [] → ∃ i m, Np.argmax a = Return i ∧ first_max a i m.
Proof.
  destruct a as [|x a]; [done | intros _].
  destruct (argmax_from_first_max a [x] 0%nat x) as [m Hm].
  - repeat split.
    + intros j v Hj. apply list_lookup_singleton_Some in Hj as [_ <-].
      apply Qle_refl.
    + intros j v _ Hj. lia.
  - exists (Np.argmax_from 0%nat x 1%nat a), m. split; [reflexivity | exact Hm].
Qed.

Lemma first_max_lt_length (a : list Q) (i : nat) (m : Q) :
  first_max a i m → (i < length a)%nat.
Proof. intros (Hi & _). by eapply lookup_lt_Some. Qed.

Lemma StronglySorted_lookup_lt (f : list Q) (i j : nat) (x y : Q) :
  StronglySorted Qlt f → f !! i = Some x → f !! j = Some y → (i < j)%nat → x < y.
Proof.
  intros Hs. revert i j. induction Hs as [|z f Hs IH Hall]; intros i j Hi Hj Hij.
  - by rewrite lookup_nil in Hi.
  - destruct j as [|j]; [lia|]. cbn in Hj.
    destruct i as [|i]; cbn in Hi.
    + injection Hi as <-. rewrite List.Forall_forall in Hall.
      apply Hall. apply list_elem_of_In. by eapply list_elem_of_lookup_2.
    + eapply IH; eauto. lia.
Qed.

End ArgmaxFacts.

(** *** Loops *)

Section LoopFacts.
Context {A S : Type}.

Lemma for_each_invariant_from (P : list A → S → Prop) (body : A → S → py S)
    (xs done : list A) (s : S) :
  P done s →
  (∀ d x s, P d s → x ∈ xs → ∃ s', body x s = Return s' ∧ P (d ++ [x]) s') →
  ∃ s', for_each xs body s = Return s' ∧ P (done ++ xs) s'.
Proof.
  revert done s. induction xs as [|x xs IH]; intros done s Hs Hstep.
  - exists s. rewrite app_nil_r. by split.
  - destruct (Hstep done x s Hs) as (s1 & Hbody & Hs1); [by left|].
    destruct (IH (done ++ [x]) s1 Hs1) as (s' & Hrun & Hs').
    { intros d y t Ht Hy. apply Hstep; [exact Ht | by right]. }
    exists s'. split.
    + cbn [for_each]. rewrite Hbody. exact Hrun.
    + by rewrite <- app_assoc in Hs'.
Qed.

(** A loop whose body keeps the invariant [P] runs to completion and
    establishes [P] for the whole sequence. *)
Lemma for_each_invariant (P : list A → S → Prop) (body : A → S → py S)
    (xs : list A) (s : S) :
  P [] s →
  (∀ d x s, P d s → x ∈ xs → ∃ s', body x s = Return s' ∧ P (d ++ [x]) s') →
  ∃ s', for_each xs body s = Return s' ∧ P xs s'.
Proof.
  intros Hs Hstep. exact (for_each_invariant_from P body xs [] s Hs Hstep).
Qed.

(** A loop that raises does so in one of its passes. *)
Lemma for_each_raises (body : A → S → py S) (xs : list A) (s : S) (cls : string) :
  for_each xs body s = Raise cls →
  ∃ x s1, x ∈ xs ∧ body x s1 = Raise cls.
Proof.
  revert s. induction xs as [|x xs IH]; intros s Hrun; [done|].
  cbn [for_each] in Hrun.
  destruct (body x s) as [s1|c] eqn:Hbody.
  - destruct (IH s1 Hrun) as (y & t & Hy & Ht). exists y, t. split; [by right | done].
  - injection Hrun as ->. exists x, s. split; [by left | done].
Qed.

(** What every returning pass preserves holds when the loop returns. *)
Lemma for_each_preserves (P : S → Prop) (body : A → S → py S)
    (xs : list A) (s s' : S) :
  P s →
  (∀ x t t', x ∈ xs → P t → body x t = Return t' → P t') →
  for_each xs body s = Return s' →
  P s'.
Proof.
  revert s. induction xs as [|x xs IH]; intros s Hs Hstep Hrun.
  - injection Hrun as <-. exact Hs.
  - cbn [for_each] in Hrun. destruct (body x s) as [s1|c] eqn:Hbody; [|done].
    apply (IH s1); [| |exact Hrun].
    + eapply Hstep; [by left | exact Hs | exact Hbody].
    + intros y t t' Hy. apply Hstep. by right.
Qed.

End LoopFacts.

(** *** Means *)

Section MeanFacts.
Local Open Scope Q_scope.

Lemma foldl_Qplus (a : list Q) (acc : Q) : foldl Qplus acc a == acc + total a.
Proof.
  revert acc. induction a as [|x a IH]; intros acc; cbn [foldl total foldr].
  - ring.
  - rewrite IH. fold (total a). ring.
Qed.

Lemma sum_total (a : list Q) : Np.sum a == total a.
Proof. unfold Np.sum. rewrite foldl_Qplus. ring. Qed.

End MeanFacts.

(** *** The multi-band consensus *)

Section ConsensusFacts.
Local Open Scope Q_scope.

Variable LombScargle_autopower :
  list Q → list Q → Q → Q → py (list Q * list Q).
Variables min_period max_period : Q.

#[local] Abbreviation run_periodograms :=
  (periodograms LombScargle_autopower min_period max_period).
#[local] Abbreviation run_consensus :=
  (consensus LombScargle_autopower min_period max_period).
#[local] Abbreviation its_periodogram :=
  (band_periodogram LombScargle_autopower min_period max_period).

Lemma band_periodogram_fun mjd_days mags filter f p f' p' :
  its_periodogram mjd_days mags filter f p →
  its_periodogram mjd_days mags filter f' p' →
  f = f' ∧ p = p'.
Proof.
  intros (t & y & Ht & Hy & Hls) (t' & y' & Ht' & Hy' & Hls').
  rewrite Ht in Ht'. rewrite Hy in Hy'.
  injection Ht' as <-. injection Hy' as <-.
  rewrite Hls in Hls'. by injection Hls' as <- <-.
Qed.

Lemma periodograms_returns (mjd_days mags : dict (list Q)) :
  (∀ filter, filter ∈ plot_filter_labels →
     ∃ f p, its_periodogram mjd_days mags filter f p) →
  ∃ frequency power,
    run_periodograms mjd_days mags = Return (frequency, power)
    ∧ ∀ filter, filter ∈ plot_filter_labels →
        ∃ f p, its_periodogram mjd_days mags filter f p
               ∧ frequency !! filter = Some f ∧ power !! filter = Some p.
Proof.
  intros Hall.
  destruct (for_each_invariant
    (λ done (s : dict (list Q) * dict (list Q)),
       ∀ filter, filter ∈ done →
         ∃ f p, its_periodogram mjd_days mags filter f p
                ∧ s.1 !! filter = Some f ∧ s.2 !! filter = Some p)
    (λ filter '(frequency, power),
       t ← getitem mjd_days filter;
       y ← getitem mags filter;
       '(f, p) ← LombScargle_autopower t y (min_freq_search max_period)
                   (max_freq_search min_period);
       Return (<[filter := f]> frequency, <[filter := p]> power))
    plot_filter_labels (∅, ∅)) as ([frequency power] & Hrun & Hinv).
  - intros filter Hin. by apply elem_of_nil in Hin.
  - intros done x [frequency power] Hinv Hx.
    destruct (Hall x Hx) as (f & p & Hfp).
    pose proof Hfp as (t & y & Ht & Hy & Hls).
    exists (<[x := f]> frequency, <[x := p]> power). split.
    + unfold getitem. rewrite Ht, Hy. cbn. by rewrite Hls.
    + intros filter Hin. cbn [fst snd].
      destruct (decide (filter = x)) as [-> | Hne].
      * exists f, p. by rewrite !lookup_insert_eq.
      * apply elem_of_app in Hin as [Hin | Hin].
        -- destruct (Hinv filter Hin) as (f' & p' & Hfp' & Hf' & Hp').
           exists f', p'. by rewrite !lookup_insert_ne.
        -- apply list_elem_of_singleton in Hin. done.
  - exists frequency, power. split; [exact Hrun | exact Hinv].
Qed.

Lemma peak_freqs_returns (frequency power : dict (list Q)) :
  (∀ filter, filter ∈ plot_filter_labels →
     ∃ f p, frequency !! filter = Some f ∧ power !! filter = Some p
            ∧ p ≠ [] ∧ length f = length p) →
  ∃ all_peak_freqs,
    peak_freqs frequency power = Return all_peak_freqs
    ∧ Forall2 (band_peak frequency power) plot_filter_labels all_peak_freqs.
Proof.
  intros Hall. apply for_each_invariant.
  - constructor.
  - intros done x acc Hinv Hx.
    destruct (Hall x Hx) as (f & p & Hf & Hp & Hne & Hlen).
    destruct (argmax_first_max p Hne) as (i & m & Hi & Hfm).
    pose proof (first_max_lt_length _ _ _ Hfm) as Hlt.
    destruct (lookup_lt_is_Some_2 f i) as [v Hv]; [lia|].
    exists (acc ++ [v]). split.
    + unfold getitem, index. rewrite Hp. cbn. rewrite Hi. cbn.
      rewrite Hf. cbn. by rewrite Hv.
    + apply Forall2_app; [exact Hinv|].
      constructor; [|constructor]. by exists f, p, i, m.
Qed.

(** With a periodogram for every band, the periodogram cells run to
    completion. *)
Lemma consensus_runs (mjd_days mags : dict (list Q)) :
  (∀ filter, filter ∈ plot_filter_labels →
     ∃ f p, its_periodogram mjd_days mags filter f p
            ∧ p ≠ [] ∧ length f = length p) →
  ∃ frequency power all_peak_freqs,
    run_periodograms mjd_days mags = Return (frequency, power)
    ∧ (∀ filter, filter ∈ plot_filter_labels →
         ∃ f p, its_periodogram mjd_days mags filter f p
                ∧ frequency !! filter = Some f ∧ power !! filter = Some p)
    ∧ peak_freqs frequency power = Return all_peak_freqs
    ∧ Forall2 (band_peak frequency power) plot_filter_labels all_peak_freqs
    ∧ run_consensus mjd_days mags
      = Return (mean_peak_freq_of all_peak_freqs,
                best_period_of (mean_peak_freq_of all_peak_freqs)).
Proof.
  intros Hall.
  destruct (periodograms_returns mjd_days mags) as (frequency & power & Hrun & Hdict).
  { intros filter Hin. destruct (Hall filter Hin) as (f & p & Hfp & _).
    by exists f, p. }
  destruct (peak_freqs_returns frequency power) as (all_peak_freqs & Hpk & Hall2).
  { intros filter Hin.
    destruct (Hall filter Hin) as (f & p & Hfp & Hne & Hlen).
    destruct (Hdict filter Hin) as (f' & p' & Hfp' & Hf' & Hp').
    destruct (band_periodogram_fun _ _ _ _ _ _ _ Hfp Hfp') as [<- <-].
    by exists f, p. }
  exists frequency, power, all_peak_freqs.
  repeat (split; [done|]).
  unfold consensus. rewrite Hrun. cbv [mbind py_bind bind].
  by rewrite Hpk.
Qed.

Lemma Forall2_Forall_right {X Y} (P : X → Y → Prop) (R : Y → Prop)
    (l : list X) (k : list Y) :
  Forall2 P l k → (∀ x y, x ∈ l → P x y → R y) → Forall R k.
Proof.
  induction 1 as [|x y l k Hxy _ IH]; intros HR; constructor.
  - apply (HR x y); [by left | exact Hxy].
  - apply IH. intros x' y' Hin. apply HR. by right.
Qed.


End ConsensusFacts.

(** *** The band partition *)

Section ExtractorFacts.

Lemma plot_filter_labels_NoDup : NoDup plot_filter_labels.
Proof. compute_done. Qed.

Lemma foldl_insert_notin {V} (g : string → V) (labels : list string)
    (d : dict V) (k : string) :
  k ∉ labels →
  foldl (λ d filter, <[filter := g filter]> d) d labels !! k = d !! k.
Proof.
  revert d. induction labels as [|x labels IH]; intros d Hk; [done|].
  apply not_elem_of_cons in Hk as [Hne Hk].
  cbn [foldl]. rewrite IH by exact Hk. by rewrite lookup_insert_ne.
Qed.

Lemma foldl_insert_in {V} (g : string → V) (labels : list string)
    (d : dict V) (k : string) :
  k ∈ labels →
  foldl (λ d filter, <[filter := g filter]> d) d labels !! k = Some (g k).
Proof.
  revert d. induction labels as [|x labels IH]; intros d Hk.
  - by apply elem_of_nil in Hk.
  - cbn [foldl]. destruct (decide (k ∈ labels)) as [Hin | Hnotin].
    + by apply IH.
    + apply elem_of_cons in Hk as [-> | Hk]; [|done].
      rewrite foldl_insert_notin by exact Hnotin. apply lookup_insert_eq.
Qed.

(** The mask of a band marks the rows whose [band] is that very string. *)
Lemma pick_of_lookup (srcs : list ForcedSource) (filter : string) :
  filter ∈ plot_filter_labels →
  pick_of srcs !! filter = Some (map (λ r, String.eqb (band r) filter) srcs).
Proof.
  intros Hin. unfold pick_of.
  exact (foldl_insert_in (λ f, map (λ r, String.eqb (band r) f) srcs) _ _ _ Hin).
Qed.

Lemma pick_of_lookup_Some (srcs : list ForcedSource) (filter : string)
    (mask : list bool) :
  pick_of srcs !! filter = Some mask →
  mask = map (λ r, String.eqb (band r) filter) srcs.
Proof.
  intros Hm. destruct (decide (filter ∈ plot_filter_labels)) as [Hin | Hnotin].
  - rewrite pick_of_lookup in Hm by exact Hin. by injection Hm.
  - unfold pick_of in Hm.
    rewrite (foldl_insert_notin
               (λ f, map (λ r, String.eqb (band r) f) srcs)) in Hm by exact Hnotin.
    by rewrite lookup_empty in Hm.
Qed.

(** Boolean-mask indexing with the mask of a predicate is the stable
    filter by that predicate. *)
Lemma select_map_mask {A} (test : A → bool) (a : list A) :
  Np.select a (map test a) = List.filter test a.
Proof.
  induction a as [|x a IH]; [done|].
  cbn [map Np.select List.filter]. rewrite IH. reflexivity.
Qed.

Lemma extract_returns (srcs : list ForcedSource) :
  ∃ mjd_days mags,
    extract srcs (pick_of srcs) = Return (mjd_days, mags)
    ∧ ∀ filter, filter ∈ plot_filter_labels →
        mjd_days !! filter = Some (map expMidptMJD (band_rows srcs filter))
        ∧ mags !! filter = Some (map psfMag (band_rows srcs filter)).
Proof.
  destruct (for_each_invariant
    (λ done (s : dict (list Q) * dict (list Q)),
       ∀ filter, filter ∈ done →
         s.1 !! filter = Some (map expMidptMJD (band_rows srcs filter))
         ∧ s.2 !! filter = Some (map psfMag (band_rows srcs filter)))
    (λ filter '(mjd_days, mags),
       m1 ← getitem (pick_of srcs) filter;
       m2 ← getitem (pick_of srcs) filter;
       Return (<[filter := map expMidptMJD (Np.select srcs m1)]> mjd_days,
               <[filter := map psfMag (Np.select srcs m2)]> mags))
    plot_filter_labels (∅, ∅)) as ([mjd_days mags] & Hrun & Hinv).
  - intros filter Hin. by apply elem_of_nil in Hin.
  - intros done x [mjd_days mags] Hinv Hx.
    eexists. split.
    + unfold getitem. rewrite (pick_of_lookup srcs x Hx). reflexivity.
    + intros filter Hin. cbn [fst snd]. rewrite !select_map_mask.
      destruct (decide (filter = x)) as [-> | Hne].
      * by rewrite !lookup_insert_eq.
      * apply elem_of_app in Hin as [Hin | Hin].
        -- rewrite !lookup_insert_ne by done. by apply Hinv.
        -- by apply list_elem_of_singleton in Hin.
  - exists mjd_days, mags. split; [exact Hrun | exact Hinv].
Qed.

Lemma sum_indicator_notin (labels : list string) (x : string) :
  x ∉ labels →
  sum_list (map (λ f, if String.eqb x f then 1 else 0)%nat labels) = 0%nat.
Proof.
  induction labels as [|z labels IH]; intros Hx; [done|].
  apply not_elem_of_cons in Hx as [Hxz Hx].
  cbn [map sum_list]. destruct (String.eqb_spec x z); [done|].
  by rewrite IH.
Qed.

Lemma sum_indicator (labels : list string) (x : string) :
  NoDup labels → x ∈ labels →
  sum_list (map (λ f, if String.eqb x f then 1 else 0)%nat labels) = 1%nat.
Proof.
  induction 1 as [|y labels Hy Hnd IH]; intros Hx.
  - by apply elem_of_nil in Hx.
  - cbn [map sum_list]. destruct (String.eqb_spec x y) as [-> | Hne].
    + by rewrite (sum_indicator_notin labels y Hy).
    + apply elem_of_cons in Hx as [-> | Hx]; [done|]. by rewrite IH.
Qed.

Lemma band_rows_counts_cons (labels : list string) (r : ForcedSource)
    (srcs : list ForcedSource) :
  sum_list (map (λ f, length (band_rows (r :: srcs) f)) labels)
  = (sum_list (map (λ f, if String.eqb (band r) f then 1 else 0)%nat labels)
     + sum_list (map (λ f, length (band_rows srcs f)) labels))%nat.
Proof.
  induction labels as [|f labels IH]; [done|].
  cbn [map sum_list]. rewrite IH.
  unfold band_rows at 1. cbn [List.filter]. fold (band_rows srcs f).
  destruct (String.eqb (band r) f); cbn [length]; unfold id; lia.
Qed.

(** The per-band counts add up to the number of rows whose band is one
    of the labels. *)
Lemma band_rows_counts (labels : list string) (srcs : list ForcedSource) :
  NoDup labels →
  sum_list (map (λ f, length (band_rows srcs f)) labels)
  = length (filter (λ r, band r ∈ labels) srcs).
Proof.
  intros Hnd. induction srcs as [|r srcs IH].
  - induction labels as [|f labels IHl]; [done|].
    apply NoDup_cons in Hnd as [_ Hnd]. cbn [map sum_list]. by rewrite IHl.
  - rewrite band_rows_counts_cons, IH, filter_cons.
    destruct (decide (band r ∈ labels)) as [Hin | Hnotin].
    + by rewrite (sum_indicator labels (band r) Hnd Hin).
    + by rewrite (sum_indicator_notin labels (band r) Hnotin).
Qed.

Lemma filter_Forall_id {A} (P : A → Prop) `{!∀ x, Decision (P x)} (l : list A) :
  Forall P l → filter P l = l.
Proof.
  induction 1 as [|x l Hx _ IH]; [done|].
  by rewrite filter_cons, decide_True, IH.
Qed.

Lemma mask_bool_decide (srcs : list ForcedSource) (label : string) :
  map (λ r, String.eqb (band r) label) srcs
  = map (λ r, bool_decide (band r = label)) srcs.
Proof.
  apply map_ext. intros r.
  destruct (String.eqb_spec (band r) label) as [Heq | Hne].
  - by rewrite bool_decide_eq_true_2.
  - by rewrite bool_decide_eq_false_2.
Qed.

Lemma band_rows_filter (srcs : list ForcedSource) (label : string) :
  band_rows srcs label = filter (λ r, band r = label) srcs.
Proof.
  unfold band_rows. induction srcs as [|r srcs IH]; [done|].
  cbn [List.filter]. rewrite filter_cons, IH.
  destruct (String.eqb_spec (band r) label) as [Heq | Hne].
  - by rewrite decide_True.
  - by rewrite decide_False.
Qed.

(** Whatever the labels of the rows are, the per-band counts add up to
    the number of rows that carry one of the six labels. *)
Lemma extract_counts (srcs : list ForcedSource) (mjd_days mags : dict (list Q)) :
  extract srcs (pick_of srcs) = Return (mjd_days, mags) →
  sum_list (map (band_count mjd_days) plot_filter_labels)
  = length (filter (λ r, band r ∈ plot_filter_labels) srcs).
Proof.
  intros Hrun.
  destruct (extract_returns srcs) as (mjd_days' & mags' & Hrun' & Hrows).
  rewrite Hrun in Hrun'. injection Hrun' as <- <-.
  rewrite <- (band_rows_counts plot_filter_labels srcs plot_filter_labels_NoDup).
  f_equal. apply map_ext_in. intros label Hin.
  apply list_elem_of_In in Hin. destruct (Hrows label Hin) as [Hm _].
  unfold band_count. rewrite Hm. cbn. by rewrite length_map.
Qed.

(** C8. For every collection of observations (each carrying one of the
    six band labels, as the data model has it) the extractor assigns each
    observation by exact string match on its [band]: every band gets the
    stable selection of its rows, no row is marked by the masks of two
    bands, and the per-band counts add up to the input count. *)
Theorem C8_band_partition (srcs : list ForcedSource) :
  Forall (λ r, band r ∈ plot_filter_labels) srcs →
  ∃ mjd_days mags,
    extract srcs (pick_of srcs) = Return (mjd_days, mags)
    ∧ (∀ label, label ∈ plot_filter_labels →
         pick_of srcs !! label
           = Some (map (λ r, bool_decide (band r = label)) srcs)
         ∧ mjd_days !! label
           = Some (map expMidptMJD (filter (λ r, band r = label) srcs))
         ∧ mags !! label
           = Some (map psfMag (filter (λ r, band r = label) srcs)))
    ∧ (∀ label1 label2 mask1 mask2 i,
         label1 ≠ label2 →
         pick_of srcs !! label1 = Some mask1 →
         pick_of srcs !! label2 = Some mask2 →
         mask1 !! i = Some true → mask2 !! i = Some false)
    ∧ sum_list (map (band_count mjd_days) plot_filter_labels) = length srcs.
Proof.
  intros Hbands.
  destruct (extract_returns srcs) as (mjd_days & mags & Hrun & Hrows).
  exists mjd_days, mags. split; [exact Hrun|]. split; [|split].
  - intros label Hin. destruct (Hrows label Hin) as [Hm Hg].
    rewrite <- mask_bool_decide, <- band_rows_filter.
    by rewrite pick_of_lookup.
  - intros label1 label2 mask1 mask2 i Hne H1 H2 Hi.
    apply pick_of_lookup_Some in H1 as ->.
    apply pick_of_lookup_Some in H2 as ->.
    rewrite list_lookup_fmap in Hi. rewrite list_lookup_fmap.
    destruct (srcs !! i) as [r|]; [|done]. cbn in Hi |- *.
    injection Hi as Hi. apply String.eqb_eq in Hi. f_equal.
    apply String.eqb_neq. congruence.
  - rewrite (extract_counts srcs mjd_days mags Hrun).
    by rewrite filter_Forall_id.
Qed.

End ExtractorFacts.

(** *** The candidate filter *)

Section CandidateFacts.
Local Open Scope Q_scope.

Variable contains_circle : Q → Q → Q → Q → Q → bool.
Variables ra_known_rrl dec_known_rrl : Q.

#[local] Abbreviation the_where_clause :=
  (where_clause contains_circle ra_known_rrl dec_known_rrl).
#[local] Abbreviation the_filter :=
  (candidate_filter contains_circle ra_known_rrl dec_known_rrl).
#[local] Abbreviation the_position_criterion :=
  (position_criterion contains_circle ra_known_rrl dec_known_rrl).
#[local] Abbreviation the_selection :=
  (select_candidates contains_circle ra_known_rrl dec_known_rrl).

Lemma Qltb_lt (a b : Q) : Qltb a b = true ↔ a < b.
Proof.
  unfold Qltb. destruct (Qlt_le_dec a b) as [Hlt | Hle]; split; try done.
  intros Hlt. lra.
Qed.

(** The query is the filter at the default thresholds. *)
Lemma where_clause_default (r : DiaSource) :
  the_where_clause r = the_filter default_thresholds r.
Proof.
  unfold where_clause, candidate_filter, ratio_criterion, magnitude_criterion,
    count_criterion, variability_criterion, position_criterion.
  cbn [default_thresholds loRatio hiRatio brightMag faintMag minCount
         minVariabilityStatistic radius].
  by rewrite <- !andb_assoc.
Qed.

Lemma query_default (table : list DiaSource) :
  query contains_circle ra_known_rrl dec_known_rrl table
  = the_selection default_thresholds table.
Proof.
  unfold query, select_candidates.
  induction table as [|r table IH]; [done|].
  rewrite !filter_cons, IH, where_clause_default. reflexivity.
Qed.

Lemma candidate_filter_true (th : Thresholds) (r : DiaSource) :
  the_filter th r = true ↔
    (loRatio th < gTOTFluxSigma r / gTOTFluxMean r
     ∧ gTOTFluxSigma r / gTOTFluxMean r < hiRatio th)
    ∧ (brightMag th < gmag_obj r ∧ gmag_obj r < faintMag th)
    ∧ minCount th < gPSFluxNdata r
    ∧ minVariabilityStatistic th < gPSFluxStetsonJ r
    ∧ filterName r = "g"
    ∧ the_position_criterion th r = true.
Proof.
  unfold candidate_filter, ratio_criterion, magnitude_criterion,
    count_criterion, variability_criterion.
  rewrite !andb_true_iff, !Qltb_lt, String.eqb_eq. tauto.
Qed.

(** C4, as the code has it. With the default thresholds the lower bound
    on the variability statistic is strict: the variability criterion
    holds exactly when [V > 20], so an object whose [V] is exactly 20 is
    not selected.  The count criterion holds for every [N > 30] and fails
    for every [N < 30]. *)
Theorem C4_variability_bound_is_strict (r : DiaSource) :
  (variability_criterion default_thresholds r = true
   ↔ 20 < gPSFluxStetsonJ r)
  ∧ (gPSFluxStetsonJ r == 20 →
     variability_criterion default_thresholds r = false
     ∧ the_where_clause r = false)
  ∧ (30 < gPSFluxNdata r → count_criterion default_thresholds r = true)
  ∧ (gPSFluxNdata r < 30 →
     count_criterion default_thresholds r = false
     ∧ the_where_clause r = false).
Proof.
  assert (Hc : count_criterion default_thresholds r = true
               ↔ 30 < gPSFluxNdata r) by apply Qltb_lt.
  assert (Hv : variability_criterion default_thresholds r = true
               ↔ 20 < gPSFluxStetsonJ r) by apply Qltb_lt.
  split; [exact Hv|]. split; [|split].
  - intros HV.
    assert (Hvf : variability_criterion default_thresholds r = false).
    { apply not_true_iff_false. rewrite Hv. lra. }
    split; [exact Hvf|].
    apply not_true_iff_false. rewrite where_clause_default, candidate_filter_true.
    cbn [default_thresholds minVariabilityStatistic].
    intros (_ & _ & _ & Hlt & _). lra.
  - intros HN. by apply Hc.
  - intros HN.
    assert (Hcf : count_criterion default_thresholds r = false).
    { apply not_true_iff_false. rewrite Hc. lra. }
    split; [exact Hcf|].
    apply not_true_iff_false. rewrite where_clause_default, candidate_filter_true.
    cbn [default_thresholds minCount]. intros (_ & _ & Hlt & _). lra.
Qed.

Lemma elem_of_select_candidates (th : Thresholds) (table : list DiaSource)
    (r : DiaSource) :
  r ∈ the_selection th table ↔ r ∈ table ∧ the_filter th r = true.
Proof. unfold select_candidates. rewrite list_elem_of_filter. tauto. Qed.

(** C5. The candidate filter decides each row from the row alone, the
    selection from a reordered table is the same selection reordered, and
    loosening thresholds (lowering [minCount], say, with the others kept)
    never removes a row that passed under the stricter ones. *)
Theorem C5_filter_monotone (th th' : Thresholds) (table table' : list DiaSource) :
  looser th th' →
  radius_loosened contains_circle th th' →
  (∀ r, the_filter th r = true → the_filter th' r = true)
  ∧ the_selection th table ⊆ the_selection th' table
  ∧ (∀ r, r ∈ the_selection th table ↔ r ∈ table ∧ the_filter th r = true)
  ∧ (Permutation table table' →
     Permutation (the_selection th table) (the_selection th table')).
Proof.
  intros (Hlo & Hhi & Hbright & Hfaint & Hcount & Hvar) Hrad.
  assert (Hpos : ∀ r, the_position_criterion th r = true →
                      the_position_criterion th' r = true).
  { intros r. unfold position_criterion.
    destruct Hrad as [<- | [Hle Hcone]]; [done | by apply Hcone]. }
  assert (Hmono : ∀ r, the_filter th r = true → the_filter th' r = true).
  { intros r. rewrite !candidate_filter_true.
    intros ((H1 & H2) & (H3 & H4) & H5 & H6 & H7 & H8).
    repeat split; try lra; [exact H7 | by apply Hpos]. }
  split; [exact Hmono|]. split; [|split].
  - intros r. rewrite !elem_of_select_candidates.
    intros [Hin Hpass]. split; [exact Hin | by apply Hmono].
  - intros r. apply elem_of_select_candidates.
  - intros Hperm. unfold select_candidates. by rewrite Hperm.
Qed.

End CandidateFacts.

(** *** What the period estimator raises *)

Section EstimatorFacts.
Local Open Scope Q_scope.

Variable LombScargle_autopower :
  list Q → list Q → Q → Q → py (list Q * list Q).

#[local] Abbreviation the_object_peak := (object_peak LombScargle_autopower).

Lemma builtin_error_not_insufficient : ¬ builtin_error "InsufficientDataError".
Proof. intros [H | [H | H]]; discriminate H. Qed.

Lemma argmax_raises (a : list Q) (cls : string) :
  Np.argmax a = Raise cls → cls = "ValueError".
Proof. destruct a; [|done]. intros H. by injection H. Qed.

Lemma index_raises {A} (a : list A) (i : nat) (cls : string) :
  index a i = Raise cls → cls = "IndexError".
Proof. unfold index. destruct (a !! i); [done|]. intros H. by injection H. Qed.

Lemma getitem_raises {V} (d : dict V) (k cls : string) :
  getitem d k = Raise cls → cls = "KeyError".
Proof. unfold getitem. destruct (d !! k); [done|]. intros H. by injection H. Qed.

Lemma object_peak_returns (dia_sources : list DiaSource) (objid : Z)
    (f p : list Q) :
  LombScargle_autopower (map midPointTai (rows_of dia_sources objid))
    (map gmag (rows_of dia_sources objid)) minfreq maxfreq = Return (f, p) →
  p ≠ [] → length f = length p →
  ∃ i m x, first_max p i m ∧ f !! i = Some x
           ∧ the_object_peak dia_sources objid = Return (m, x).
Proof.
  intros Hls Hne Hlen.
  destruct (argmax_first_max p Hne) as (i & m & Hi & Hfm).
  pose proof (first_max_lt_length _ _ _ Hfm) as Hlt.
  destruct (lookup_lt_is_Some_2 f i) as [x Hx]; [lia|].
  exists i, m, x. split; [exact Hfm|]. split; [exact Hx|].
  unfold object_peak. rewrite Hls. cbv [mbind py_bind bind].
  rewrite Hi. unfold index. destruct Hfm as (Hm & _). by rewrite Hm, Hx.
Qed.

Lemma object_peak_raises (dia_sources : list DiaSource) (objid : Z)
    (cls : string) :
  the_object_peak dia_sources objid = Raise cls →
  LombScargle_autopower (map midPointTai (rows_of dia_sources objid))
    (map gmag (rows_of dia_sources objid)) minfreq maxfreq = Raise cls
  ∨ builtin_error cls.
Proof.
  unfold object_peak. cbv zeta.
  destruct (LombScargle_autopower _ _ _ _) as [[f p]|c]; cbv [mbind py_bind bind].
  - intros Hrun. right.
    destruct (Np.argmax p) as [i|c] eqn:Hi.
    + destruct (index p i) as [m|c] eqn:Hm.
      * destruct (index f i) as [x|c] eqn:Hx; [done|].
        injection Hrun as <-. apply index_raises in Hx. by right; right.
      * injection Hrun as <-. apply index_raises in Hm. by right; right.
    + injection Hrun as <-. apply argmax_raises in Hi. by right; left.
  - intros Hrun. injection Hrun as <-. by left.
Qed.

Lemma consensus_raises (min_period max_period : Q)
    (mjd_days mags : dict (list Q)) (cls : string) :
  consensus LombScargle_autopower min_period max_period mjd_days mags = Raise cls →
  (∃ t y, LombScargle_autopower t y (min_freq_search max_period)
            (max_freq_search min_period) = Raise cls)
  ∨ builtin_error cls.
Proof.
  unfold consensus.
  destruct (periodograms _ _ _ _ _) as [[frequency power]|c] eqn:Hpg;
    cbv [mbind py_bind bind].
  - destruct (peak_freqs frequency power) as [all_peak_freqs|c] eqn:Hpk; [done|].
    intros Hrun. injection Hrun as <-. right.
    apply for_each_raises in Hpk as (x & acc & _ & Hbody).
    cbv [mbind py_bind bind] in Hbody.
    destruct (getitem power x) as [p|c'] eqn:Hp.
    + destruct (Np.argmax p) as [i|c'] eqn:Hi.
      * destruct (getitem frequency x) as [f|c'] eqn:Hf.
        -- destruct (index f i) as [v|c'] eqn:Hv; [done|].
           injection Hbody as <-. apply index_raises in Hv. by right; right.
        -- injection Hbody as <-. apply getitem_raises in Hf. by left.
      * injection Hbody as <-. apply argmax_raises in Hi. by right; left.
    + injection Hbody as <-. apply getitem_raises in Hp. by left.
  - intros Hrun. injection Hrun as <-.
    apply for_each_raises in Hpg as (x & [frequency power] & _ & Hbody).
    cbv [mbind py_bind bind] in Hbody.
    destruct (getitem mjd_days x) as [t|c'] eqn:Ht.
    + destruct (getitem mags x) as [y|c'] eqn:Hy.
      * destruct (LombScargle_autopower t y _ _) as [[f p]|c'] eqn:Hls; [done|].
        injection Hbody as <-. left. by exists t, y.
      * injection Hbody as <-. apply getitem_raises in Hy. right. by left.
    + injection Hbody as <-. apply getitem_raises in Ht. right. by left.
Qed.

(** C2, as the code has it. The period estimator checks no length and has
    no [InsufficientDataError] of its own.  For every series, of fewer
    than two points or not, it returns the peak of whatever non-empty
    periodogram the service returns, and an exception it raises is either
    the one the service raised or a [KeyError], [ValueError] or
    [IndexError] of its own dict and array operations; so an
    [InsufficientDataError] is signalled only if the service signals it. *)
Theorem C2_estimator_has_no_length_check
    (dia_sources : list DiaSource) (objid : Z)
    (min_period max_period : Q) (mjd_days mags : dict (list Q)) :
  (∀ f p,
     LombScargle_autopower (map midPointTai (rows_of dia_sources objid))
       (map gmag (rows_of dia_sources objid)) minfreq maxfreq = Return (f, p) →
     p ≠ [] → length f = length p →
     ∃ i m x, first_max p i m ∧ f !! i = Some x
              ∧ the_object_peak dia_sources objid = Return (m, x))
  ∧ (the_object_peak dia_sources objid = Raise "InsufficientDataError" →
     LombScargle_autopower (map midPointTai (rows_of dia_sources objid))
       (map gmag (rows_of dia_sources objid)) minfreq maxfreq
     = Raise "InsufficientDataError")
  ∧ (consensus LombScargle_autopower min_period max_period mjd_days mags
       = Raise "InsufficientDataError" →
     ∃ t y, LombScargle_autopower t y (min_freq_search max_period)
              (max_freq_search min_period) = Raise "InsufficientDataError").
Proof.
  split; [|split].
  - intros f p. apply object_peak_returns.
  - intros Hrun. apply object_peak_raises in Hrun as [Hls | Hb]; [exact Hls|].
    by apply builtin_error_not_insufficient in Hb.
  - intros Hrun. apply consensus_raises in Hrun as [Hls | Hb]; [exact Hls|].
    by apply builtin_error_not_insufficient in Hb.
Qed.

End EstimatorFacts.

(** *** The epoch *)

Section EpochFacts.
Local Open Scope Q_scope.

Lemma min_from_spec (a : list Q) (x : Q) :
  Np.min_from x a ∈ x :: a ∧ ∀ y, y ∈ x :: a → Np.min_from x a <= y.
Proof.
  unfold Np.min_from. revert x. induction a as [|z a IH]; intros x; cbn [foldl].
  - split; [by left|]. intros y Hy. apply list_elem_of_singleton in Hy as ->.
    apply Qle_refl.
  - destruct (Qlt_le_dec z x) as [Hlt | Hle].
    + destruct (IH z) as [Hin Hmin]. split.
      * by right.
      * intros y Hy. apply elem_of_cons in Hy as [-> | Hy].
        -- eapply Qle_trans; [apply Hmin; by left | by apply Qlt_le_weak].
        -- by apply Hmin.
    + destruct (IH x) as [Hin Hmin]. split.
      * apply elem_of_cons in Hin as [-> | Hin]; [by left | by right; right].
      * intros y Hy. apply elem_of_cons in Hy as [-> | Hy]; [apply Hmin; by left|].
        apply elem_of_cons in Hy as [-> | Hy].
        -- eapply Qle_trans; [apply Hmin; by left | exact Hle].
        -- apply Hmin. by right.
Qed.

(** [np.min] of a non-empty array returns one of its elements, below
    all the others. *)
Lemma min_spec (a : list Q) :
  a ≠ [] → ∃ m, Np.min a = Return m ∧ m ∈ a ∧ ∀ y, y ∈ a → m <= y.
Proof.
  destruct a as [|x a]; [done | intros _].
  exists (Np.min_from x a). split; [reflexivity | apply min_from_spec].
Qed.

(** The all-band folding cell takes the earliest g-band time as epoch
    and folds every band against it. *)
Lemma fold_bands_epoch (mjd_days : dict (list Q)) (best_period : Q) (g : list Q) :
  (∀ label, label ∈ plot_filter_labels → is_Some (mjd_days !! label)) →
  mjd_days !! "g" = Some g → g ≠ [] →
  ∃ folded,
    fold_bands mjd_days best_period = Return folded
    ∧ Np.min g = Return (t0 folded)
    ∧ t0 folded ∈ g ∧ (∀ t, t ∈ g → t0 folded <= t)
    ∧ ∀ label t, label ∈ plot_filter_labels → mjd_days !! label = Some t →
        phase folded !! label
        = Some (phase_of (mjd_norm_of t (t0 folded) best_period)).
Proof.
  intros Hall Hg Hne.
  destruct (min_spec g Hne) as (m & Hmin & Hin & Hle).
  destruct (for_each_invariant
    (λ done (s : dict (list Q) * dict (list Q)),
       ∀ label t, label ∈ done → mjd_days !! label = Some t →
         s.2 !! label = Some (phase_of (mjd_norm_of t m best_period)))
    (λ filter '(mjd_norm, phase),
       t ← getitem mjd_days filter;
       let n := mjd_norm_of t m best_period in
       Return (<[filter := n]> mjd_norm, <[filter := phase_of n]> phase))
    plot_filter_labels (∅, ∅)) as ([norm ph] & Hrun & Hinv).
  - intros label t Hl. by apply elem_of_nil in Hl.
  - intros done x [norm ph] Hinv Hx.
    destruct (Hall x Hx) as [t Ht]. eexists. split.
    + unfold getitem. rewrite Ht. reflexivity.
    + intros label t' Hl Ht'. cbn [snd].
      destruct (decide (label = x)) as [-> | Hneq].
      * rewrite Ht in Ht'. injection Ht' as <-. by rewrite lookup_insert_eq.
      * rewrite lookup_insert_ne by done.
        apply elem_of_app in Hl as [Hl | Hl]; [by apply Hinv|].
        by apply list_elem_of_singleton in Hl.
  - exists {| t0 := m; mjd_norm := norm; phase := ph |}.
    split; [|by repeat split].
    cbv [mbind py_bind bind] in Hrun.
    assert (Hgi : getitem mjd_days "g" = Return g)
      by (unfold getitem; by rewrite Hg).
    unfold fold_bands. rewrite Hgi.
    cbv [mbind py_bind bind]. rewrite Hmin. by rewrite Hrun.
Qed.

(** The per-candidate folding cell sets its epoch to [0.0], whatever the
    times of the object are. *)
Lemma fold_object_epoch (dia_sources : list DiaSource) (objids : list Z)
    (LSfreq : list Q) (i : nat) (o : ObjectFold) :
  fold_object dia_sources objids LSfreq i = Return o →
  obj_t0 o = 0
  ∧ ∃ objid f, objids !! i = Some objid ∧ LSfreq !! i = Some f
      ∧ obj_period o = 1 / f
      ∧ obj_phase o
        = phase_of (mjd_norm_of (map midPointTai (rows_of dia_sources objid))
                      0 (1 / f)).
Proof.
  unfold fold_object, index. cbv [mbind py_bind bind].
  destruct (objids !! i) as [objid|]; [|done].
  destruct (LSfreq !! i) as [f|]; [|done].
  intros Hrun. injection Hrun as <-. split; [reflexivity|].
  by exists objid, f.
Qed.

End EpochFacts.

(** *** Worked examples *)

Section Examples.
Local Open Scope Q_scope.

#[local] Abbreviation notebook_where_clause :=
  (where_clause Fixture.contains_circle notebook_ra_known_rrl
     notebook_dec_known_rrl).

(** The stand-in service returns an in-window periodogram for each band
    of the example object. *)
Lemma example_periodograms (label : string) :
  label ∈ plot_filter_labels →
  ∃ f p,
    band_periodogram Fixture.autopower notebook_min_period notebook_max_period
      example_mjd_days example_mags label f p
    ∧ p ≠ [] ∧ length f = length p
    ∧ Forall (λ x, min_freq_search notebook_max_period <= x
                   ∧ x <= max_freq_search notebook_min_period) f.
Proof.
  intros Hin.
  exists [min_freq_search notebook_max_period;
          (min_freq_search notebook_max_period
           + max_freq_search notebook_min_period) / 2;
          max_freq_search notebook_min_period],
         [1 # 4; 3 # 4; 3 # 4].
  split; [|split; [done|split; [done|]]].
  - unfold plot_filter_labels in Hin.
    repeat (apply elem_of_cons in Hin as [-> | Hin]);
      [..|by apply elem_of_nil in Hin];
      (eexists _, _; split; [|split]; [vm_compute; reflexivity ..| reflexivity]).
  - repeat constructor; by vm_compute.
Qed.

(** The whole of section 2 on the example object: the epoch is the
    earliest g-band time and the period is the reciprocal of the middle
    bin, which every band picks. *)
Example single_object_runs :
  ∃ mean_peak_freq best_period folded,
    single_object Fixture.autopower notebook_min_period notebook_max_period
      example_srcs = Return (mean_peak_freq, best_period, folded)
    ∧ t0 folded = 59000
    ∧ best_period == 21 # 220.
Proof. eexists _, _, _. split; [reflexivity|]. split; reflexivity. Qed.

(** Sections 3.2 and 3.3 on a candidate with two detections. *)
Example object_periods_runs :
  ∃ LSpower LSfreq folds,
    object_periods Fixture.autopower two_nights = Return ([1%Z], LSpower, LSfreq)
    ∧ fold_objects two_nights [1%Z] LSfreq = Return folds
    ∧ map obj_t0 folds = [0].
Proof. eexists _, _, _. split; [reflexivity|]. split; reflexivity. Qed.


(** Outside the data model: a row whose band is none of the six labels
    enters no partition, so here the counts add up to 1 of 2 rows. *)
Example unlisted_band_in_no_partition :
  ∃ mjd_days mags,
    extract unlisted_band_srcs (pick_of unlisted_band_srcs)
    = Return (mjd_days, mags)
    ∧ sum_list (map (band_count mjd_days) plot_filter_labels) = 1%nat
    ∧ length unlisted_band_srcs = 2%nat.
Proof.
  eexists _, _. split; [reflexivity|]. split; reflexivity.
Qed.

(** An instance: the partition of the example object. *)
Lemma C8_partition_witness :
  Forall (λ r, band r ∈ plot_filter_labels) example_srcs ∧
  ∃ mjd_days mags,
    extract example_srcs (pick_of example_srcs) = Return (mjd_days, mags)
    ∧ (∀ label, label ∈ plot_filter_labels →
         pick_of example_srcs !! label
           = Some (map (λ r, bool_decide (band r = label)) example_srcs)
         ∧ mjd_days !! label
           = Some (map expMidptMJD (filter (λ r, band r = label) example_srcs))
         ∧ mags !! label
           = Some (map psfMag (filter (λ r, band r = label) example_srcs)))
    ∧ (∀ label1 label2 mask1 mask2 i,
         label1 ≠ label2 →
         pick_of example_srcs !! label1 = Some mask1 →
         pick_of example_srcs !! label2 = Some mask2 →
         mask1 !! i = Some true → mask2 !! i = Some false)
    ∧ sum_list (map (band_count mjd_days) plot_filter_labels)
      = length example_srcs.
Proof.
  assert (H : Forall (λ r, band r ∈ plot_filter_labels) example_srcs)
    by compute_done.
  split; [exact H | apply C8_band_partition; exact H].
Defined.

(** An inclusive bound fails here: a variability statistic of exactly
    20 is rejected, and the next value up is accepted. *)
Lemma C4_variability_at_threshold_rejected :
  gPSFluxStetsonJ (candidate_row 40 20)
  == minVariabilityStatistic default_thresholds
  ∧ variability_criterion default_thresholds (candidate_row 40 20) = false
  ∧ notebook_where_clause (candidate_row 40 20) = false
  ∧ notebook_where_clause (candidate_row 40 21) = true.
Proof. by vm_compute. Qed.

(** An instance: a row at the variability threshold. *)
Lemma C4_strict_bound_witness :
  (variability_criterion default_thresholds (candidate_row 40 20) = true
   ↔ 20 < gPSFluxStetsonJ (candidate_row 40 20))
  ∧ (gPSFluxStetsonJ (candidate_row 40 20) == 20 →
     variability_criterion default_thresholds (candidate_row 40 20) = false
     ∧ notebook_where_clause (candidate_row 40 20) = false)
  ∧ (30 < gPSFluxNdata (candidate_row 40 20) →
     count_criterion default_thresholds (candidate_row 40 20) = true)
  ∧ (gPSFluxNdata (candidate_row 40 20) < 30 →
     count_criterion default_thresholds (candidate_row 40 20) = false
     ∧ notebook_where_clause (candidate_row 40 20) = false).
Proof. apply C4_variability_bound_is_strict. Defined.

(** The query as written at a count of exactly 30, which the text of
    section 3.1 glosses as "at least 30 observations". *)
Example count_of_exactly_30 :
  notebook_where_clause (candidate_row 30 25) = false
  ∧ notebook_where_clause (candidate_row 31 25) = true.
Proof. by vm_compute. Qed.

(** The scenario of the specification: [N = 40] is selected, and the
    same object with [N = 10] is not. *)
Example scenario_selected :
  notebook_where_clause (candidate_row 40 25) = true
  ∧ notebook_where_clause (candidate_row 10 25) = false.
Proof. by vm_compute. Qed.

(** An instance: [minCount] lowered from 30 to 5 and the others kept. *)
Lemma C5_monotone_witness :
  let the_filter := candidate_filter Fixture.contains_circle
                      notebook_ra_known_rrl notebook_dec_known_rrl in
  let the_selection := select_candidates Fixture.contains_circle
                         notebook_ra_known_rrl notebook_dec_known_rrl in
  let table := [candidate_row 40 25; candidate_row 10 25] in
  let table' := [candidate_row 10 25; candidate_row 40 25] in
  looser default_thresholds low_count_thresholds
  ∧ radius_loosened Fixture.contains_circle default_thresholds
      low_count_thresholds
  ∧ (∀ r, the_filter default_thresholds r = true →
          the_filter low_count_thresholds r = true)
  ∧ the_selection default_thresholds table
    ⊆ the_selection low_count_thresholds table
  ∧ (∀ r, r ∈ the_selection default_thresholds table
          ↔ r ∈ table ∧ the_filter default_thresholds r = true)
  ∧ (Permutation table table' →
     Permutation (the_selection default_thresholds table)
       (the_selection default_thresholds table')).
Proof.
  intros the_filter the_selection table table'.
  split; [by vm_compute|]. split; [by left|].
  apply C5_filter_monotone; [by vm_compute | by left].
Defined.

(** The flat-sky cone test is monotone, so the radius may be enlarged
    as well. *)
Lemma fixture_cone_monotone : cone_monotone Fixture.contains_circle.
Proof.
  intros a d a0 d0 r1 r2 Hle. unfold Fixture.contains_circle.
  destruct (Qlt_le_dec r1 0) as [|H1]; [done|].
  destruct (Qlt_le_dec (r1 * r1) _) as [|Hin]; [done|]. intros _.
  destruct (Qlt_le_dec r2 0) as [H2|H2]; [lra|].
  destruct (Qlt_le_dec (r2 * r2) _) as [Hout|]; [|done].
  assert (r1 * r1 <= r2 * r2) by nra. lra.
Qed.

(** Lowering [minCount] admits the low-count row and keeps the other. *)
Example lower_count_selects_more :
  select_candidates Fixture.contains_circle notebook_ra_known_rrl
    notebook_dec_known_rrl default_thresholds
    [candidate_row 40 25; candidate_row 10 25]
  = [candidate_row 40 25]
  ∧ select_candidates Fixture.contains_circle notebook_ra_known_rrl
      notebook_dec_known_rrl low_count_thresholds
      [candidate_row 40 25; candidate_row 10 25]
    = [candidate_row 40 25; candidate_row 10 25].
Proof. by vm_compute. Qed.

(** No error for short series: a candidate with one detection, and
    bands with one observation, get a period and no
    [InsufficientDataError]. *)
Lemma C2_single_observation_gets_a_period :
  length (rows_of one_night 1) = 1%nat
  ∧ (∃ p f, object_peak Fixture.autopower one_night 1 = Return (p, f))
  ∧ object_peak Fixture.autopower one_night 1 ≠ Raise "InsufficientDataError"
  ∧ example_mjd_days !! "u" = Some [59002]
  ∧ (∃ m b, consensus Fixture.autopower notebook_min_period notebook_max_period
              example_mjd_days example_mags = Return (m, b)).
Proof.
  split; [reflexivity|]. split; [eexists _, _; reflexivity|].
  split; [discriminate|]. split; [reflexivity|].
  eexists _, _; reflexivity.
Qed.

(** An instance: the candidate with one detection. *)
Lemma C2_no_length_check_witness :
  (∀ f p,
     Fixture.autopower (map midPointTai (rows_of one_night 1))
       (map gmag (rows_of one_night 1)) minfreq maxfreq = Return (f, p) →
     p ≠ [] → length f = length p →
     ∃ i m x, first_max p i m ∧ f !! i = Some x
              ∧ object_peak Fixture.autopower one_night 1 = Return (m, x))
  ∧ (object_peak Fixture.autopower one_night 1 = Raise "InsufficientDataError" →
     Fixture.autopower (map midPointTai (rows_of one_night 1))
       (map gmag (rows_of one_night 1)) minfreq maxfreq
     = Raise "InsufficientDataError")
  ∧ (consensus Fixture.autopower notebook_min_period notebook_max_period
       example_mjd_days example_mags = Raise "InsufficientDataError" →
     ∃ t y, Fixture.autopower t y (min_freq_search notebook_max_period)
              (max_freq_search notebook_min_period)
            = Raise "InsufficientDataError").
Proof. apply C2_estimator_has_no_length_check. Defined.

(** C9. The per-candidate folding cell, whose comment announces the
    periods elapsed since the first measurement, folds against the epoch
    [0.0]: for a candidate first detected at MJD 59000 the epoch used is
    0 and not the minimum observation time 59000.  (The all-band cell of
    section 2.2.2 does take the minimum, see [fold_bands_epoch].) *)
Theorem C9_candidate_epoch_is_zero :
  ∃ o, fold_object two_nights [1%Z] [2] 0 = Return o
       ∧ obj_t0 o = 0
       ∧ Np.min (map midPointTai (rows_of two_nights 1)) = Return 59000
       ∧ ¬ obj_t0 o == 59000.
Proof.
  eexists. split; [reflexivity|]. split; [reflexivity|].
  split; [reflexivity | discriminate].
Qed.

End Examples.

(** ** Further properties of the notebooks *)

(** *** Loops that stop early *)

Section LoopFailureFacts.
Context {A S : Type}.

Lemma for_each_app (body : A → S → py S) (xs ys : list A) (s : S) :
  for_each (xs ++ ys) body s
  = match for_each xs body s with
    | Return s' => for_each ys body s'
    | Raise cls => Raise cls
    end.
Proof.
  revert s. induction xs as [|x xs IH]; intros s; [done|].
  cbn [app for_each]. cbv [mbind py_bind bind].
  destruct (body x s) as [s1|c]; [apply IH | done].
Qed.

(** The first pass that raises ends the loop with its exception. *)
Lemma for_each_first_failure (body : A → S → py S) (pre post : list A) (x : A)
    (cls : string) (s : S) :
  (∀ y t, y ∈ pre → ∃ t', body y t = Return t') →
  (∀ t, body x t = Raise cls) →
  for_each (pre ++ x :: post) body s = Raise cls.
Proof.
  intros Hpre Hx. revert s. induction pre as [|y pre IH]; intros s.
  - cbn [app for_each]. cbv [mbind py_bind bind]. by rewrite Hx.
  - cbn [app for_each]. cbv [mbind py_bind bind].
    destruct (Hpre y s) as [s1 Hs1]; [by left|]. rewrite Hs1.
    apply IH. intros z t Hz. apply Hpre. by right.
Qed.

(** A loop that returns has run every one of its passes. *)
Lemma for_each_returns_each (body : A → S → py S) (xs : list A) (s s' : S) :
  for_each xs body s = Return s' →
  ∀ x, x ∈ xs → ∃ t t', body x t = Return t'.
Proof.
  revert s. induction xs as [|y xs IH]; intros s Hrun x Hx.
  - by apply elem_of_nil in Hx.
  - cbn [for_each] in Hrun. cbv [mbind py_bind bind] in Hrun.
    destruct (body y s) as [s1|c] eqn:Hbody; [|done].
    apply elem_of_cons in Hx as [-> | Hx]; [by exists s, s1|].
    by eapply IH.
Qed.

End LoopFailureFacts.

(** What a returning loop has established, pass by pass. *)
Lemma for_each_returned_invariant {A S} (P : list A → S → Prop)
    (body : A → S → py S) (xs : list A) (s s' : S) :
  P [] s →
  (∀ d x t t', P d t → x ∈ xs → body x t = Return t' → P (d ++ [x]) t') →
  for_each xs body s = Return s' →
  P xs s'.
Proof.
  intros Hs Hstep.
  assert (Hgen : ∀ done t, P done t →
            (∀ d x u u', P d u → x ∈ xs → body x u = Return u' → P (d ++ [x]) u') →
            for_each xs body t = Return s' → P (done ++ xs) s').
  { clear Hs Hstep s. induction xs as [|x xs IH]; intros done t Ht Hstep Hrun.
    - injection Hrun as <-. by rewrite app_nil_r.
    - cbn [for_each] in Hrun. cbv [mbind py_bind bind] in Hrun.
      destruct (body x t) as [t1|c] eqn:Hbody; [|done].
      replace (done ++ x :: xs) with ((done ++ [x]) ++ xs)
        by (by rewrite <- app_assoc).
      apply (IH (done ++ [x]) t1); [| |exact Hrun].
      + eapply Hstep; [exact Ht | by left | exact Hbody].
      + intros d y u u' Hu Hy. apply Hstep; [exact Hu | by right]. }
  intros Hrun. exact (Hgen [] s Hs Hstep Hrun).
Qed.

(** *** Distinct values *)

Section UniqueFacts.
Local Open Scope Z_scope.

Lemma elem_of_insert_unique (x y : Z) (l : list Z) :
  y ∈ Np.insert_unique x l ↔ y = x ∨ y ∈ l.
Proof.
  induction l as [|z l IH]; cbn [Np.insert_unique].
  - rewrite list_elem_of_singleton. split; [by left | intros [H | H]; [done|]].
    by apply elem_of_nil in H.
  - destruct (Z.ltb_spec x z) as [Hlt | Hge].
    + by rewrite elem_of_cons.
    + destruct (Z.eqb_spec x z) as [-> | Hne].
      * rewrite elem_of_cons. intuition.
      * rewrite !elem_of_cons, IH. intuition.
Qed.

Lemma insert_unique_sorted (x : Z) (l : list Z) :
  StronglySorted Z.lt l → StronglySorted Z.lt (Np.insert_unique x l).
Proof.
  induction 1 as [|z l Hs IH Hall]; cbn [Np.insert_unique].
  - repeat constructor.
  - destruct (Z.ltb_spec x z) as [Hlt | Hge].
    + constructor; [by constructor|]. constructor; [exact Hlt|].
      eapply List.Forall_impl; [|exact Hall]. intros a Ha. cbn in Ha. lia.
    + destruct (Z.eqb_spec x z) as [-> | Hne]; [by constructor|].
      constructor; [exact IH|].
      rewrite List.Forall_forall. intros a Ha.
      apply list_elem_of_In, elem_of_insert_unique in Ha as [-> | Ha]; [lia|].
      rewrite List.Forall_forall in Hall. apply Hall. by apply list_elem_of_In.
Qed.

Lemma insert_unique_length (x : Z) (l : list Z) :
  (length (Np.insert_unique x l) ≤ S (length l))%nat.
Proof.
  induction l as [|z l IH]; cbn [Np.insert_unique]; [done|].
  destruct (x <? z); [done|]. destruct (x =? z); cbn [length]; lia.
Qed.

(** Two strictly increasing lists with the same elements are equal. *)
Lemma sorted_same_elements (l k : list Z) :
  StronglySorted Z.lt l → StronglySorted Z.lt k →
  (∀ x, x ∈ l ↔ x ∈ k) → l = k.
Proof.
  intros Hl. revert k. induction Hl as [|a l Hl IH Ha]; intros k Hk Hsame.
  - destruct k as [|b k]; [done|]. exfalso.
    apply (elem_of_nil b). apply Hsame. by left.
  - destruct Hk as [|b k Hk Hb].
    { exfalso. apply (elem_of_nil a). apply Hsame. by left. }
    rewrite List.Forall_forall in Ha, Hb.
    assert (Hab : a = b).
    { assert (H1 : a ∈ b :: k) by (apply Hsame; by left).
      assert (H2 : b ∈ a :: l) by (apply Hsame; by left).
      apply elem_of_cons in H1 as [H1 | H1]; [done|].
      apply elem_of_cons in H2 as [H2 | H2]; [done|].
      apply list_elem_of_In, Hb in H1. apply list_elem_of_In, Ha in H2. lia. }
    subst b. f_equal. apply IH; [exact Hk|].
    intros x. split; intros Hx.
    + assert (H1 : x ∈ a :: k) by (apply Hsame; by right).
      apply elem_of_cons in H1 as [-> | H1]; [|done].
      apply list_elem_of_In, Ha in Hx. lia.
    + assert (H1 : x ∈ a :: l) by (apply Hsame; by right).
      apply elem_of_cons in H1 as [-> | H1]; [|done].
      apply list_elem_of_In, Hb in Hx. lia.
Qed.

Lemma unique_StronglySorted (a : list Z) : StronglySorted Z.lt (Np.unique a).
Proof.
  unfold Np.unique. induction a as [|x a IH]; cbn [foldr]; [constructor|].
  by apply insert_unique_sorted.
Qed.

Lemma elem_of_unique (x : Z) (a : list Z) : x ∈ Np.unique a ↔ x ∈ a.
Proof.
  unfold Np.unique. induction a as [|y a IH]; cbn [foldr]; [done|].
  by rewrite elem_of_insert_unique, elem_of_cons, IH.
Qed.

Lemma unique_length (a : list Z) : (length (Np.unique a) ≤ length a)%nat.
Proof.
  unfold Np.unique. induction a as [|y a IH]; cbn [foldr length]; [done|].
  pose proof (insert_unique_length y (foldr Np.insert_unique [] a)). lia.
Qed.

Lemma StronglySorted_lt_NoDup (l : list Z) : StronglySorted Z.lt l → NoDup l.
Proof.
  induction 1 as [|x l Hs IH Hall]; [constructor|].
  constructor; [|exact IH]. intros Hx.
  rewrite List.Forall_forall in Hall.
  apply list_elem_of_In, Hall in Hx. lia.
Qed.

(** X1. [np.unique] returns the values of its argument, each once, in
    strictly increasing order: a value is in the result exactly when it
    is in the argument, and the result is never longer than the
    argument. *)
Theorem unique_sorted_distinct (a : list Z) :
  StronglySorted Z.lt (Np.unique a)
  ∧ NoDup (Np.unique a)
  ∧ (∀ x, x ∈ Np.unique a ↔ x ∈ a)
  ∧ (length (Np.unique a) ≤ length a)%nat.
Proof.
  split; [apply unique_StronglySorted|]. split; [|split].
  - apply StronglySorted_lt_NoDup, unique_StronglySorted.
  - intros x. apply elem_of_unique.
  - apply unique_length.
Qed.

Lemma elem_of_insert_sorted (x y : Z) (l : list Z) :
  y ∈ Np.insert_sorted x l ↔ y = x ∨ y ∈ l.
Proof.
  induction l as [|z l IH]; cbn [Np.insert_sorted].
  - rewrite list_elem_of_singleton. split; [by left | intros [H | H]; [done|]].
    by apply elem_of_nil in H.
  - destruct (x <=? z).
    + rewrite (elem_of_cons (z :: l)). reflexivity.
    + rewrite !elem_of_cons, IH. intuition.
Qed.

Lemma elem_of_sort (x : Z) (a : list Z) : x ∈ Np.sort a ↔ x ∈ a.
Proof.
  unfold Np.sort. induction a as [|y a IH]; cbn [foldr]; [done|].
  by rewrite elem_of_insert_sorted, elem_of_cons, IH.
Qed.

(** X2. Sorting the visits before [np.unique] changes nothing, and the
    unique visits depend on the set of visit numbers only: neither the
    order in which the data references are iterated nor how often a
    visit occurs among them changes the result. *)
Theorem unique_visitIds_spec (temp : list Z) :
  unique_visitIds temp = Np.unique temp
  ∧ ∀ temp', (∀ v, v ∈ temp ↔ v ∈ temp') →
      unique_visitIds temp = unique_visitIds temp'.
Proof.
  split.
  - unfold unique_visitIds.
    apply sorted_same_elements; try apply unique_StronglySorted.
    intros x. by rewrite !elem_of_unique, elem_of_sort.
  - intros temp' Hsame. unfold unique_visitIds.
    apply sorted_same_elements; try apply unique_StronglySorted.
    intros x. by rewrite !elem_of_unique, !elem_of_sort.
Qed.

End UniqueFacts.

(** *** The preview loops of the Butler notebook *)

Section PreviewFacts.
Context {A : Type}.

Lemma preview_from_spec (limit i : nat) (refs : list A) :
  (i ≤ S limit)%nat →
  preview_from limit i refs
  = map Shown (take (limit + 2 - i) refs)
    ++ (if (limit + 2 - i <=? length refs)%nat then [Ellipsis] else []).
Proof.
  revert i. induction refs as [|ref refs IH]; intros i Hi.
  - cbn [preview_from length]. rewrite take_nil.
    destruct (Nat.leb_spec (limit + 2 - i) 0); [lia | done].
  - cbn [preview_from length].
    replace (limit + 2 - i) with (S (limit + 1 - i)) by lia.
    cbn [take map app]. f_equal.
    destruct (Nat.ltb_spec limit i) as [Hlt | Hge].
    + replace (limit + 1 - i) with 0 by lia. by rewrite take_0.
    + rewrite IH by lia.
      replace (limit + 2 - S i) with (limit + 1 - i) by lia.
      f_equal.
Qed.

(** X3. A preview loop with the test [i > limit] prints the first
    [limit + 2] data references in iteration order (four for [i > 2],
    eight for [i > 6]), all of them when there are fewer, and ends with
    the line ['...'] exactly when there are at least [limit + 2]
    references; nothing is printed for an empty result. *)
Theorem preview_prints_limit_plus_two (limit : nat) (datasetRefs : list A) :
  preview limit datasetRefs
  = map Shown (take (limit + 2) datasetRefs)
    ++ (if (limit + 2 <=? length datasetRefs)%nat then [Ellipsis] else []).
Proof.
  unfold preview. rewrite preview_from_spec by lia.
  by rewrite Nat.sub_0_r.
Qed.

End PreviewFacts.

(** *** The candidates, object by object *)

Section PartitionFacts.
Context {A K : Type} `{EqDecision K}.

Lemma sum_decide_indicator (keys : list K) (x : K) :
  NoDup keys →
  sum_list (map (λ k, if decide (x = k) then 1 else 0)%nat keys)
  = (if decide (x ∈ keys) then 1 else 0)%nat.
Proof.
  induction 1 as [|k keys Hk Hnd IH]; [done|].
  cbn [map sum_list]. rewrite IH.
  destruct (decide (x = k)) as [-> | Hne].
  - rewrite decide_False by done. rewrite decide_True by (by left). done.
  - destruct (decide (x ∈ keys)) as [Hin | Hnotin].
    + by rewrite decide_True by (by right).
    + rewrite decide_False; [done|]. intros Hx.
      apply elem_of_cons in Hx as [? | ?]; done.
Qed.

(** The selections by the values of a key, over distinct values, have as
    many rows together as the rows whose key is one of the values. *)
Lemma partition_counts (key : A → K) (keys : list K) (l : list A) :
  NoDup keys →
  sum_list (map (λ k, length (filter (λ r, key r = k) l)) keys)
  = length (filter (λ r, key r ∈ keys) l).
Proof.
  intros Hnd. induction l as [|r l IH].
  - induction keys as [|k keys IHk]; [done|].
    apply NoDup_cons in Hnd as [_ Hnd]. cbn [map sum_list]. by rewrite IHk.
  - rewrite filter_cons.
    assert (Hstep :
      sum_list (map (λ k, length (filter (λ r0, key r0 = k) (r :: l))) keys)
      = (sum_list (map (λ k, if decide (key r = k) then 1 else 0)%nat keys)
         + sum_list (map (λ k, length (filter (λ r0, key r0 = k) l)) keys))%nat).
    { clear. induction keys as [|k keys IHk]; [done|].
      cbn [map sum_list]. rewrite IHk, filter_cons.
      destruct (decide (key r = k)); cbn [length]; unfold id; lia. }
    rewrite Hstep, IH, (sum_decide_indicator keys (key r) Hnd).
    by destruct (decide (key r ∈ keys)).
Qed.

End PartitionFacts.

Section ObjectRowsFacts.
Local Open Scope Z_scope.

Lemma rows_of_filter (dia_sources : list DiaSource) (objid : Z) :
  rows_of dia_sources objid = filter (λ r, diaObjectId r = objid) dia_sources.
Proof.
  unfold rows_of. rewrite select_map_mask.
  induction dia_sources as [|r l IH]; [done|].
  cbn [List.filter]. rewrite filter_cons, IH.
  destruct (Z.eqb_spec (diaObjectId r) objid) as [Heq | Hne].
  - by rewrite decide_True.
  - by rewrite decide_False.
Qed.

(** X4. The per-object selections of section 3.2 partition the query
    result: every identifier of [objids] has at least one row, the rows
    of an identifier are the rows that carry it, in table order, an
    identifier that is not in the table has none, and the numbers of rows
    of the objects add up to the number of rows of the table. *)
Theorem object_rows_partition (dia_sources : list DiaSource) :
  let objids := Np.unique (map diaObjectId dia_sources) in
  (∀ objid, objid ∈ objids →
     rows_of dia_sources objid ≠ []
     ∧ rows_of dia_sources objid
       = filter (λ r, diaObjectId r = objid) dia_sources)
  ∧ (∀ objid, objid ∉ objids → rows_of dia_sources objid = [])
  ∧ sum_list (map (λ objid, length (rows_of dia_sources objid)) objids)
    = length dia_sources.
Proof.
  intros objids. split; [|split].
  - intros objid Hin. split; [|apply rows_of_filter].
    apply elem_of_unique, list_elem_of_fmap in Hin as (r & -> & Hr).
    rewrite rows_of_filter. intros Hnil.
    assert (Hr' : r ∈ filter (λ r0, diaObjectId r0 = diaObjectId r) dia_sources)
      by (by apply list_elem_of_filter).
    rewrite Hnil in Hr'. by apply elem_of_nil in Hr'.
  - intros objid Hnotin. rewrite rows_of_filter.
    destruct (filter _ _) as [|r l] eqn:Hf; [done|]. exfalso.
    assert (Hr : r ∈ filter (λ r0, diaObjectId r0 = objid) dia_sources)
      by (rewrite Hf; by left).
    apply list_elem_of_filter in Hr as [Hid Hr]. apply Hnotin.
    apply elem_of_unique, list_elem_of_fmap. by exists r.
  - transitivity (length (filter (λ r, diaObjectId r ∈ objids) dia_sources)).
    + rewrite <- (partition_counts diaObjectId objids dia_sources)
        by apply StronglySorted_lt_NoDup, unique_StronglySorted.
      f_equal. apply map_ext. intros objid. by rewrite rows_of_filter.
    + f_equal. apply filter_Forall_id.
      rewrite List.Forall_forall. intros r Hr.
      apply elem_of_unique, list_elem_of_fmap. exists r.
      split; [done | by apply list_elem_of_In].
Qed.

End ObjectRowsFacts.

Section ObjectLoopFacts.
Local Open Scope Q_scope.

Variable LombScargle_autopower :
  list Q → list Q → Q → Q → py (list Q * list Q).

#[local] Abbreviation peak_of := (object_peak LombScargle_autopower).
#[local] Abbreviation periods_of := (object_periods LombScargle_autopower).

#[local] Abbreviation aligned := (peaks_aligned LombScargle_autopower).

Lemma object_periods_returns (dia_sources : list DiaSource) :
  (∀ objid, objid ∈ Np.unique (map diaObjectId dia_sources) →
     ∃ r, peak_of dia_sources objid = Return r) →
  ∃ LSpower LSfreq,
    periods_of dia_sources
    = Return (Np.unique (map diaObjectId dia_sources), LSpower, LSfreq)
    ∧ aligned dia_sources (Np.unique (map diaObjectId dia_sources))
        LSpower LSfreq.
Proof.
  intros Hall. set (objids := Np.unique (map diaObjectId dia_sources)) in *.
  destruct (for_each_invariant
    (λ done (s : list Q * list Q), aligned dia_sources done s.1 s.2)
    (λ objid '(LSpower, LSfreq),
       '(p, f) ← peak_of dia_sources objid;
       Return (LSpower ++ [p], LSfreq ++ [f]))
    objids ([], [])) as ([LSpower LSfreq] & Hrun & Hinv).
  - repeat split. intros i objid Hi. by rewrite lookup_nil in Hi.
  - intros done objid [LSpower LSfreq] (Hlp & Hlf & Hinv) Hin.
    destruct (Hall objid Hin) as [[m x] Hpeak].
    exists (LSpower ++ [m], LSfreq ++ [x]). split.
    + cbv [mbind py_bind bind]. by rewrite Hpeak.
    + cbn [fst snd] in *. repeat split.
      * rewrite !length_app. cbn. lia.
      * rewrite !length_app. cbn. lia.
      * intros i o Hi. apply lookup_app_Some in Hi as [Hi | [Hge Hi]].
        -- destruct (Hinv i o Hi) as (m' & x' & Hm' & Hx' & Hp').
           exists m', x'. rewrite !lookup_app_l by (by eapply lookup_lt_Some).
           done.
        -- apply list_lookup_singleton_Some in Hi as [Hi <-].
           assert (i = length done) as -> by lia.
           exists m, x. rewrite <- Hlp at 1. rewrite <- Hlf at 1.
           rewrite !lookup_app_r by lia. rewrite !Nat.sub_diag. done.
  - exists LSpower, LSfreq. split; [|exact Hinv].
    unfold object_periods. fold objids. cbv [mbind py_bind bind] in Hrun |- *.
    by rewrite Hrun.
Qed.

(** X5. When the service returns a non-empty periodogram with aligned
    arrays for every object, the loop of section 3.2 returns one peak
    power and one peak frequency per distinct object, in the increasing
    order of the identifiers: entry [i] of [LSpower] and [LSfreq] is the
    first maximum of the periodogram of object [objids[i]]. *)
Theorem object_periods_aligned (dia_sources : list DiaSource) :
  (∀ objid, objid ∈ Np.unique (map diaObjectId dia_sources) →
     ∃ f p,
       LombScargle_autopower (map midPointTai (rows_of dia_sources objid))
         (map gmag (rows_of dia_sources objid)) minfreq maxfreq = Return (f, p)
       ∧ p ≠ [] ∧ length f = length p) →
  ∃ LSpower LSfreq,
    periods_of dia_sources
    = Return (Np.unique (map diaObjectId dia_sources), LSpower, LSfreq)
    ∧ length LSpower = length (Np.unique (map diaObjectId dia_sources))
    ∧ length LSfreq = length (Np.unique (map diaObjectId dia_sources))
    ∧ ∀ i objid,
        Np.unique (map diaObjectId dia_sources) !! i = Some objid →
        ∃ f p k m x,
          LombScargle_autopower (map midPointTai (rows_of dia_sources objid))
            (map gmag (rows_of dia_sources objid)) minfreq maxfreq
          = Return (f, p)
          ∧ first_max p k m ∧ f !! k = Some x
          ∧ LSpower !! i = Some m ∧ LSfreq !! i = Some x.
Proof.
  intros Hall.
  destruct (object_periods_returns dia_sources)
    as (LSpower & LSfreq & Hrun & Hlp & Hlf & Hal).
  { intros objid Hin. destruct (Hall objid Hin) as (f & p & Hls & Hne & Hlen).
    destruct (object_peak_returns _ _ _ _ _ Hls Hne Hlen)
      as (k & m & x & _ & _ & Hpeak).
    by eexists. }
  exists LSpower, LSfreq. repeat (split; [done|]).
  intros i objid Hi.
  destruct (Hal i objid Hi) as (m & x & Hm & Hx & Hpeak).
  destruct (Hall objid) as (f & p & Hls & Hne & Hlen).
  { by eapply list_elem_of_lookup_2. }
  destruct (object_peak_returns _ _ _ _ _ Hls Hne Hlen)
    as (k & m' & x' & Hfm & Hfx & Hpeak').
  rewrite Hpeak in Hpeak'. injection Hpeak' as <- <-.
  by exists f, p, k, m, x.
Qed.

(** X6. The loop of section 3.2 stops at the first object whose peak
    search raises, in the increasing order of the identifiers, and
    raises that exception: no period is kept for the objects before it
    and none is computed for the objects after it. *)
Theorem object_periods_first_failure (dia_sources : list DiaSource)
    (pre post : list Z) (objid : Z) (cls : string) :
  Np.unique (map diaObjectId dia_sources) = pre ++ objid :: post →
  (∀ o, o ∈ pre → ∃ r, peak_of dia_sources o = Return r) →
  peak_of dia_sources objid = Raise cls →
  periods_of dia_sources = Raise cls.
Proof.
  intros Hsplit Hpre Hfail. unfold object_periods. rewrite Hsplit.
  rewrite (for_each_first_failure _ pre post objid cls); [done| |].
  - intros o [LSpower LSfreq] Ho. destruct (Hpre o Ho) as [[m x] Hr].
    eexists. cbv [mbind py_bind bind]. by rewrite Hr.
  - intros [LSpower LSfreq]. cbv [mbind py_bind bind]. by rewrite Hfail.
Qed.

End ObjectLoopFacts.

(** *** The all-band folding cell *)

Section FoldBandsFacts.
Local Open Scope Q_scope.

Lemma fold_bands_returns (mjd_days : dict (list Q)) (best_period : Q)
    (g : list Q) :
  (∀ label, label ∈ plot_filter_labels → is_Some (mjd_days !! label)) →
  mjd_days !! "g" = Some g → g ≠ [] →
  ∃ folded,
    fold_bands mjd_days best_period = Return folded
    ∧ Np.min g = Return (t0 folded)
    ∧ t0 folded ∈ g ∧ (∀ t, t ∈ g → t0 folded <= t)
    ∧ ∀ label t, label ∈ plot_filter_labels → mjd_days !! label = Some t →
        mjd_norm folded !! label = Some (mjd_norm_of t (t0 folded) best_period)
        ∧ phase folded !! label
          = Some (phase_of (mjd_norm_of t (t0 folded) best_period)).
Proof.
  intros Hall Hg Hne.
  destruct (min_spec g Hne) as (m & Hmin & Hin & Hle).
  destruct (for_each_invariant
    (λ done (s : dict (list Q) * dict (list Q)),
       ∀ label t, label ∈ done → mjd_days !! label = Some t →
         s.1 !! label = Some (mjd_norm_of t m best_period)
         ∧ s.2 !! label = Some (phase_of (mjd_norm_of t m best_period)))
    (λ filter '(mjd_norm, phase),
       t ← getitem mjd_days filter;
       let n := mjd_norm_of t m best_period in
       Return (<[filter := n]> mjd_norm, <[filter := phase_of n]> phase))
    plot_filter_labels (∅, ∅)) as ([norm ph] & Hrun & Hinv).
  - intros label t Hl. by apply elem_of_nil in Hl.
  - intros done x [norm ph] Hinv Hx.
    destruct (Hall x Hx) as [t Ht]. eexists. split.
    + unfold getitem. rewrite Ht. reflexivity.
    + intros label t' Hl Ht'. cbn [fst snd].
      destruct (decide (label = x)) as [-> | Hneq].
      * rewrite Ht in Ht'. injection Ht' as <-. by rewrite !lookup_insert_eq.
      * rewrite !lookup_insert_ne by done.
        apply elem_of_app in Hl as [Hl | Hl]; [by apply Hinv|].
        by apply list_elem_of_singleton in Hl.
  - exists {| t0 := m; mjd_norm := norm; phase := ph |}. cbn [t0 mjd_norm phase].
    split; [|split; [exact Hmin|]; split; [exact Hin|]; split; [exact Hle|];
             intros label t Hl Ht; by apply (Hinv label t)].
    cbv [mbind py_bind bind] in Hrun.
    assert (Hgi : getitem mjd_days "g" = Return g)
      by (unfold getitem; by rewrite Hg).
    unfold fold_bands. rewrite Hgi.
    cbv [mbind py_bind bind]. rewrite Hmin. by rewrite Hrun.
Qed.

(** X10. In the folding of section 2.2.2 no g-band observation lies
    before the epoch: for a positive period every g-band entry of
    [mjd_norm] is non-negative, and the earliest g-band observation has
    phase 0. *)
Theorem fold_bands_reference_phase (mjd_days : dict (list Q))
    (best_period : Q) (g : list Q) :
  (∀ label, label ∈ plot_filter_labels → is_Some (mjd_days !! label)) →
  mjd_days !! "g" = Some g → g ≠ [] → 0 < best_period →
  ∃ folded n ph,
    fold_bands mjd_days best_period = Return folded
    ∧ mjd_norm folded !! "g" = Some n
    ∧ phase folded !! "g" = Some ph
    ∧ Forall (λ x, 0 <= x) n
    ∧ ∃ i x, g !! i = Some (t0 folded) ∧ (∀ t, t ∈ g → t0 folded <= t)
             ∧ ph !! i = Some x ∧ x == 0.
Proof.
  intros Hall Hg Hne Hp.
  destruct (fold_bands_returns mjd_days best_period g Hall Hg Hne)
    as (folded & Hrun & _ & Hin & Hle & Hdict).
  destruct (Hdict "g" g) as [Hn Hph]; [compute_done | exact Hg |].
  eexists folded, _, _. split; [exact Hrun|]. split; [exact Hn|].
  split; [exact Hph|]. split.
  - unfold mjd_norm_of. rewrite List.Forall_forall. intros x Hx.
    apply in_map_iff in Hx as (t & <- & Ht).
    apply list_elem_of_In, Hle in Ht.
    apply Qle_shift_div_l; [exact Hp|]. lra.
  - apply list_elem_of_lookup in Hin as [i Hi].
    exists i, (Np.mod_ ((t0 folded - t0 folded) / best_period) 1).
    split; [exact Hi|]. split; [exact Hle|]. split.
    + unfold phase_of, mjd_norm_of. by rewrite !list_lookup_fmap, Hi.
    + assert (Hz : (t0 folded - t0 folded) / best_period == 0) by (field; lra).
      rewrite (mod_1_comp _ _ Hz). reflexivity.
Qed.

(** X11. The folding cell of section 2.2.2 returns exactly when every
    band has an entry in [mjd_days] and the g band has at least one
    observation.  Without a g entry it raises [KeyError], and with an
    empty g band [ValueError], from [np.min] of an empty array. *)
Theorem fold_bands_returns_iff (mjd_days : dict (list Q)) (best_period : Q) :
  ((∃ folded, fold_bands mjd_days best_period = Return folded)
   ↔ (∀ label, label ∈ plot_filter_labels → is_Some (mjd_days !! label))
     ∧ ∃ g, mjd_days !! "g" = Some g ∧ g ≠ [])
  ∧ (mjd_days !! "g" = None →
     fold_bands mjd_days best_period = Raise "KeyError")
  ∧ (mjd_days !! "g" = Some [] →
     fold_bands mjd_days best_period = Raise "ValueError").
Proof.
  split; [split|split].
  - intros [folded Hrun]. unfold fold_bands in Hrun.
    destruct (getitem mjd_days "g") as [g|] eqn:Hgi; [|done].
    assert (Hg : mjd_days !! "g" = Some g).
    { unfold getitem in Hgi. destruct (mjd_days !! "g"); [|done].
      by injection Hgi as ->. }
    cbv [mbind py_bind bind] in Hrun.
    destruct g as [|t g]; [done|]. cbn [Np.min] in Hrun.
    destruct (for_each _ _ _) as [[norm ph]|] eqn:Hloop; [|done].
    split; [|by exists (t :: g)].
    intros label Hl.
    destruct (for_each_returns_each _ _ _ _ Hloop label Hl)
      as ([n1 p1] & s' & Hbody).
    unfold getitem in Hbody. by destruct (mjd_days !! label).
  - intros (Hall & g & Hg & Hne).
    destruct (fold_bands_returns mjd_days best_period g Hall Hg Hne)
      as (folded & Hrun & _). by exists folded.
  - intros Hg. unfold fold_bands, getitem. by rewrite Hg.
  - intros Hg. unfold fold_bands, getitem. by rewrite Hg.
Qed.

End FoldBandsFacts.

(** *** The extractor, whatever the table *)

Section ExtractKeysFacts.

Lemma extract_lookup (srcs : list ForcedSource) :
  ∃ mjd_days mags,
    extract srcs (pick_of srcs) = Return (mjd_days, mags)
    ∧ ∀ label,
        mjd_days !! label
        = (if decide (label ∈ plot_filter_labels)
           then Some (map expMidptMJD (band_rows srcs label)) else None)
        ∧ mags !! label
          = (if decide (label ∈ plot_filter_labels)
             then Some (map psfMag (band_rows srcs label)) else None).
Proof.
  destruct (for_each_invariant
    (λ done (s : dict (list Q) * dict (list Q)),
       ∀ label,
         s.1 !! label
         = (if decide (label ∈ done)
            then Some (map expMidptMJD (band_rows srcs label)) else None)
         ∧ s.2 !! label
           = (if decide (label ∈ done)
              then Some (map psfMag (band_rows srcs label)) else None))
    (λ filter '(mjd_days, mags),
       m1 ← getitem (pick_of srcs) filter;
       m2 ← getitem (pick_of srcs) filter;
       Return (<[filter := map expMidptMJD (Np.select srcs m1)]> mjd_days,
               <[filter := map psfMag (Np.select srcs m2)]> mags))
    plot_filter_labels (∅, ∅)) as ([mjd_days mags] & Hrun & Hinv).
  - intros label. cbn [fst snd]. rewrite !lookup_empty.
    destruct (decide (label ∈ [])) as [Hin | _]; [|done].
    by apply elem_of_nil in Hin.
  - intros done x [mjd_days mags] Hinv Hx.
    eexists. split.
    + unfold getitem. rewrite (pick_of_lookup srcs x Hx). reflexivity.
    + intros label. cbn [fst snd]. rewrite !select_map_mask.
      fold (band_rows srcs x).
      destruct (decide (label = x)) as [-> | Hne].
      * rewrite !lookup_insert_eq.
        destruct (decide (x ∈ done ++ [x])) as [_ | Hn]; [done|].
        exfalso. apply Hn. apply elem_of_app. right. by left.
      * rewrite !lookup_insert_ne by done.
        destruct (Hinv label) as [H1 H2]. cbn [fst snd] in H1, H2.
        rewrite H1, H2.
        destruct (decide (label ∈ done)) as [Hin | Hnotin];
          destruct (decide (label ∈ done ++ [x])) as [Hin' | Hnotin']; try done.
        -- exfalso. apply Hnotin'. apply elem_of_app. by left.
        -- exfalso. apply elem_of_app in Hin' as [Hl | Hl]; [done|].
           by apply list_elem_of_singleton in Hl.
  - exists mjd_days, mags. split; [exact Hrun | exact Hinv].
Qed.

(** X12. The extractor never raises.  Whatever the table holds, empty
    or not, and whatever bands occur in it, the two dicts it returns have
    exactly the six labels as keys, and under every key the times and the
    magnitudes have the same length; a band without rows gets two empty
    arrays. *)
Theorem extract_keys_and_alignment (srcs : list ForcedSource) :
  ∃ mjd_days mags,
    extract srcs (pick_of srcs) = Return (mjd_days, mags)
    ∧ dom mjd_days = list_to_set plot_filter_labels
    ∧ dom mags = list_to_set plot_filter_labels
    ∧ (∀ label t y, mjd_days !! label = Some t → mags !! label = Some y →
         length t = length y)
    ∧ (∀ label, label ∈ plot_filter_labels →
         Forall (λ r, band r ≠ label) srcs →
         mjd_days !! label = Some [] ∧ mags !! label = Some []).
Proof.
  destruct (extract_lookup srcs) as (mjd_days & mags & Hrun & Hlook).
  exists mjd_days, mags. split; [exact Hrun|].
  assert (Hdom : ∀ (d : dict (list Q)) (g : string → list Q),
            (∀ label, d !! label
                      = if decide (label ∈ plot_filter_labels)
                        then Some (g label) else None) →
            dom d = list_to_set plot_filter_labels).
  { intros d g Hd. apply set_eq. intros label.
    rewrite elem_of_dom, elem_of_list_to_set, Hd.
    destruct (decide (label ∈ plot_filter_labels)) as [Hin | Hnotin].
    - split; [done | by eexists].
    - split; [by intros [? ?] | done]. }
  split; [|split; [|split]].
  - apply (Hdom _ (λ label, map expMidptMJD (band_rows srcs label))).
    intros label. apply Hlook.
  - apply (Hdom _ (λ label, map psfMag (band_rows srcs label))).
    intros label. apply Hlook.
  - intros label t y Ht Hy. destruct (Hlook label) as [H1 H2].
    rewrite H1 in Ht. rewrite H2 in Hy.
    destruct (decide (label ∈ plot_filter_labels)); [|done].
    injection Ht as <-. injection Hy as <-. by rewrite !length_map.
  - intros label Hin Hnone. destruct (Hlook label) as [H1 H2].
    destruct (decide (label ∈ plot_filter_labels)); [|done].
    assert (Hrows : band_rows srcs label = []).
    { unfold band_rows. clear -Hnone. induction Hnone as [|r l Hr _ IH]; [done|].
      cbn [List.filter]. apply String.eqb_neq in Hr. by rewrite Hr. }
    by rewrite H1, H2, Hrows.
Qed.

End ExtractKeysFacts.

(** *** Section 2 from end to end *)

Section SingleObjectFacts.
Local Open Scope Q_scope.

Variable LombScargle_autopower :
  list Q → list Q → Q → Q → py (list Q * list Q).
Variables min_period max_period : Q.

#[local] Abbreviation run_single_object :=
  (single_object LombScargle_autopower min_period max_period).
#[local] Abbreviation run_band_periodograms :=
  (periodograms LombScargle_autopower min_period max_period).
#[local] Abbreviation run_band_consensus :=
  (consensus LombScargle_autopower min_period max_period).
#[local] Abbreviation service t y :=
  (LombScargle_autopower t y (min_freq_search max_period)
     (max_freq_search min_period)).


Lemma periodograms_keys (mjd_days mags frequency power : dict (list Q)) :
  run_band_periodograms mjd_days mags = Return (frequency, power) →
  ∀ label, label ∈ plot_filter_labels →
    is_Some (frequency !! label) ∧ is_Some (power !! label).
Proof.
  intros Hrun.
  refine (for_each_returned_invariant
    (λ done (s : dict (list Q) * dict (list Q)),
       ∀ label, label ∈ done →
         is_Some (s.1 !! label) ∧ is_Some (s.2 !! label)) _ _ _ _ _ _ Hrun).
  - intros label Hl. by apply elem_of_nil in Hl.
  - intros done x [fr pw] [fr' pw'] Hinv _ Hbody label Hl.
    cbv [mbind py_bind bind] in Hbody.
    destruct (getitem mjd_days x) as [t|]; [|done].
    destruct (getitem mags x) as [y|]; [|done].
    destruct (LombScargle_autopower t y _ _) as [[f p]|]; [|done].
    injection Hbody as <- <-. cbn [fst snd].
    destruct (decide (label = x)) as [-> | Hne].
    + rewrite !lookup_insert_eq. by split; eexists.
    + rewrite !lookup_insert_ne by done.
      apply elem_of_app in Hl as [Hl | Hl]; [by apply Hinv|].
      by apply list_elem_of_singleton in Hl.
Qed.

(** X14. Section 2 raises no [KeyError] of its own.  When it raises, the
    exception is one the periodogram service raised, or a [ValueError]
    (an empty power array, or no g-band row for the epoch), or an
    [IndexError] (a frequency array shorter than the peak index). *)
Theorem single_object_raises (srcs : list ForcedSource) (cls : string) :
  run_single_object srcs = Raise cls →
  (∃ t y, service t y = Raise cls)
  ∨ cls = "ValueError" ∨ cls = "IndexError".
Proof.
  destruct (extract_lookup srcs) as (mjd_days & mags & Hex & Hlook).
  assert (Hkeys : ∀ label, label ∈ plot_filter_labels →
            (∃ t, getitem mjd_days label = Return t)
            ∧ ∃ y, getitem mags label = Return y).
  { intros label Hin. destruct (Hlook label) as [H1 H2]. unfold getitem.
    rewrite H1, H2. destruct (decide (label ∈ plot_filter_labels)); [|done].
    by split; eexists. }
  unfold single_object. rewrite Hex. cbv [mbind py_bind bind].
  destruct (consensus _ _ _ _ _) as [[mean best]|c] eqn:Hcons.
  - destruct (fold_bands mjd_days best) as [folded|c] eqn:Hfold; [done|].
    intros Hrun. injection Hrun as <-. right. left.
    unfold fold_bands in Hfold.
    destruct (Hkeys "g") as [[g Hg] _]; [compute_done|].
    rewrite Hg in Hfold. cbv [mbind py_bind bind] in Hfold.
    destruct (Np.min g) as [m|c'] eqn:Hmin.
    + destruct (for_each _ _ _) as [[n p]|c''] eqn:Hloop; [done|].
      injection Hfold as <-.
      apply for_each_raises in Hloop as (x & [n p] & Hx & Hbody).
      destruct (Hkeys x Hx) as [[t Ht] _].
      unfold getitem in Ht, Hbody. by destruct (mjd_days !! x).
    + injection Hfold as <-. destruct g; [|done]. by injection Hmin.
  - intros Hrun. injection Hrun as <-. unfold consensus in Hcons.
    destruct (periodograms _ _ _ _ _) as [[frequency power]|c'] eqn:Hpg;
      cbv [mbind py_bind bind] in Hcons.
    + destruct (peak_freqs frequency power) as [all|c''] eqn:Hpk; [done|].
      injection Hcons as <-. right.
      pose proof (periodograms_keys _ _ _ _ Hpg) as Hfp.
      apply for_each_raises in Hpk as (x & acc & Hx & Hbody).
      destruct (Hfp x Hx) as [[f Hf] [p Hp]].
      unfold getitem in Hbody. rewrite Hp, Hf in Hbody.
      cbv [mbind py_bind bind] in Hbody.
      destruct (Np.argmax p) as [i|c3] eqn:Hi.
      * destruct (index f i) as [v|c3] eqn:Hv; [done|].
        injection Hbody as <-. apply index_raises in Hv. by right.
      * injection Hbody as <-. apply argmax_raises in Hi. by left.
    + injection Hcons as <-. left.
      apply for_each_raises in Hpg as (x & [fr pw] & Hx & Hbody).
      destruct (Hkeys x Hx) as [[t Ht] [y Hy]]. rewrite Ht, Hy in Hbody.
      cbv [mbind py_bind bind] in Hbody.
      destruct (LombScargle_autopower t y _ _) as [[f p]|c3] eqn:Hls; [done|].
      injection Hbody as <-. by exists t, y.
Qed.

(** X15. The periodogram loop of section 2.2.1 runs over the six bands
    in the order ugrizy and stops at the first band for which the
    service raises: the consensus cells then raise that exception, and
    no period is reported from the bands that succeeded. *)
Theorem consensus_first_failing_band (mjd_days mags : dict (list Q))
    (pre post : list string) (filter : string) (t y : list Q) (cls : string) :
  plot_filter_labels = pre ++ filter :: post →
  (∀ label, label ∈ pre →
     ∃ t' y' fp, mjd_days !! label = Some t' ∧ mags !! label = Some y'
                 ∧ service t' y' = Return fp) →
  mjd_days !! filter = Some t → mags !! filter = Some y →
  service t y = Raise cls →
  run_band_periodograms mjd_days mags = Raise cls
  ∧ run_band_consensus mjd_days mags = Raise cls.
Proof.
  intros Hsplit Hpre Ht Hy Hls.
  assert (Hpg : run_band_periodograms mjd_days mags = Raise cls).
  { unfold periodograms. rewrite Hsplit.
    apply for_each_first_failure.
    - intros label [fr pw] Hl.
      destruct (Hpre label Hl) as (t' & y' & [f p] & Ht' & Hy' & Hls').
      eexists. unfold getitem. rewrite Ht', Hy'. cbv [mbind py_bind bind].
      by rewrite Hls'.
    - intros [fr pw]. unfold getitem. rewrite Ht, Hy.
      cbv [mbind py_bind bind]. by rewrite Hls. }
  split; [exact Hpg|]. unfold consensus. by rewrite Hpg.
Qed.

End SingleObjectFacts.

(** *** Instances of the further properties *)

Section MoreExamples.
Local Open Scope Q_scope.

Lemma example_bands_present (label : string) :
  label ∈ plot_filter_labels → is_Some (example_mjd_days !! label).
Proof.
  intros Hin. unfold plot_filter_labels in Hin.
  repeat (apply elem_of_cons in Hin as [-> | Hin]);
    [..|by apply elem_of_nil in Hin]; by eexists.
Qed.

(** An instance: two candidates, each with a periodogram. *)
Lemma object_periods_aligned_witness :
  ∃ LSpower LSfreq,
    object_periods Fixture.autopower mixed_nights
    = Return (Np.unique (map diaObjectId mixed_nights), LSpower, LSfreq)
    ∧ length LSpower = length (Np.unique (map diaObjectId mixed_nights))
    ∧ length LSfreq = length (Np.unique (map diaObjectId mixed_nights))
    ∧ ∀ i objid,
        Np.unique (map diaObjectId mixed_nights) !! i = Some objid →
        ∃ f p k m x,
          Fixture.autopower (map midPointTai (rows_of mixed_nights objid))
            (map gmag (rows_of mixed_nights objid)) minfreq maxfreq
          = Return (f, p)
          ∧ first_max p k m ∧ f !! k = Some x
          ∧ LSpower !! i = Some m ∧ LSfreq !! i = Some x.
Proof.
  apply object_periods_aligned. intros objid _.
  eexists _, _. split; [reflexivity|]. split; [done | reflexivity].
Defined.

(** An instance: the service refuses the one detection of object 2, and
    the loop raises although object 1 has a periodogram. *)
Lemma object_periods_first_failure_witness :
  Np.unique (map diaObjectId mixed_nights) = [1%Z] ++ 2%Z :: []
  ∧ (∃ r, object_peak Fixture.autopower_min2 mixed_nights 1 = Return r)
  ∧ object_peak Fixture.autopower_min2 mixed_nights 2 = Raise "ValueError"
  ∧ object_periods Fixture.autopower_min2 mixed_nights = Raise "ValueError".
Proof.
  split; [reflexivity|]. split; [eexists; reflexivity|].
  split; [reflexivity|].
  apply (object_periods_first_failure Fixture.autopower_min2 mixed_nights
           [1%Z] [] 2%Z "ValueError").
  - reflexivity.
  - intros o Ho. apply list_elem_of_singleton in Ho as ->.
    eexists. reflexivity.
  - reflexivity.
Defined.

(** An instance: the example object folded with the period [21 / 220]. *)
Lemma fold_bands_reference_phase_witness :
  ∃ folded n ph,
    fold_bands example_mjd_days (21 # 220) = Return folded
    ∧ mjd_norm folded !! "g" = Some n
    ∧ phase folded !! "g" = Some ph
    ∧ Forall (λ x, 0 <= x) n
    ∧ ∃ i x, [59000; 59001 + (1 # 4)] !! i = Some (t0 folded)
             ∧ (∀ t, t ∈ [59000; 59001 + (1 # 4)] → t0 folded <= t)
             ∧ ph !! i = Some x ∧ x == 0.
Proof.
  apply (fold_bands_reference_phase example_mjd_days (21 # 220)
           [59000; 59001 + (1 # 4)]).
  - exact example_bands_present.
  - reflexivity.
  - discriminate.
  - reflexivity.
Defined.

Lemma example_srcs_periodograms (label : string) :
  ∃ f p, Fixture.autopower (map expMidptMJD (band_rows example_srcs label))
           (map psfMag (band_rows example_srcs label))
           (min_freq_search notebook_max_period)
           (max_freq_search notebook_min_period) = Return (f, p)
         ∧ p ≠ [] ∧ length f = length p.
Proof.
  eexists _, _. split; [reflexivity|]. split; [done | reflexivity].
Qed.


(** An instance: behind the length check the u band, with one row, is
    refused, and section 2 raises the service's exception. *)
Lemma single_object_raises_witness :
  single_object Fixture.autopower_min2 notebook_min_period notebook_max_period
    example_srcs = Raise "ValueError"
  ∧ ((∃ t y, Fixture.autopower_min2 t y (min_freq_search notebook_max_period)
               (max_freq_search notebook_min_period) = Raise "ValueError")
     ∨ "ValueError" = "ValueError" ∨ "ValueError" = "IndexError").
Proof.
  split; [reflexivity|].
  apply (single_object_raises Fixture.autopower_min2 notebook_min_period
           notebook_max_period example_srcs).
  reflexivity.
Defined.

(** An instance: the first band, u, is the one refused. *)
Lemma consensus_first_failing_band_witness :
  periodograms Fixture.autopower_min2 notebook_min_period notebook_max_period
    example_mjd_days example_mags = Raise "ValueError"
  ∧ consensus Fixture.autopower_min2 notebook_min_period notebook_max_period
      example_mjd_days example_mags = Raise "ValueError".
Proof.
  apply (consensus_first_failing_band Fixture.autopower_min2
           notebook_min_period notebook_max_period example_mjd_days
           example_mags [] ["g"; "r"; "i"; "z"; "y"] "u" [59002] [19]).
  - reflexivity.
  - intros label Hl. by apply elem_of_nil in Hl.
  - reflexivity.
  - reflexivity.
  - reflexivity.
Defined.

End MoreExamples.

(** ** float64 arithmetic: rounding *)

Section RoundingFacts.
Local Open Scope Q_scope.

Lemma pow2_pos (k : Z) : 0 < pow2 k.
Proof. apply Qpower_0_lt. reflexivity. Qed.

Lemma pow2_add (a b : Z) : pow2 (a + b) == pow2 a * pow2 b.
Proof. apply Qpower_plus. discriminate. Qed.

Lemma pow2_succ (a : Z) : pow2 (a + 1) == 2 * pow2 a.
Proof. rewrite pow2_add. change (pow2 1) with 2. ring. Qed.

Lemma pow2_pred (a : Z) : pow2 (a - 1) == pow2 a / 2.
Proof.
  assert (H : pow2 a == 2 * pow2 (a - 1)).
  { rewrite <- pow2_succ. by replace (a - 1 + 1)%Z with a by lia. }
  rewrite H. field.
Qed.

Lemma pow2_sub (a b : Z) : pow2 (a - b) == pow2 a / pow2 b.
Proof.
  assert (H : pow2 a == pow2 (a - b) * pow2 b).
  { rewrite <- pow2_add. by replace (a - b + b)%Z with a by lia. }
  rewrite H. field. pose proof (pow2_pos b). lra.
Qed.

Lemma pow2_le (a b : Z) : (a <= b)%Z → pow2 a <= pow2 b.
Proof. intros H. apply Qpower_le_compat_l; [done | discriminate]. Qed.

Lemma pow2_lt (a b : Z) : (a < b)%Z → pow2 a < pow2 b.
Proof. intros H. apply Qpower_lt_compat_l; [done | reflexivity]. Qed.

Lemma pow2_Z (k : Z) : (0 <= k)%Z → pow2 k == inject_Z (2 ^ k).
Proof. intros H. symmetry. by apply Zpower_Qpower. Qed.

Lemma Qabs_as_quotient (q : Q) :
  Qabs q == inject_Z (Z.abs (Qnum q)) / inject_Z (Zpos (Qden q)).
Proof.
  destruct q as [n d]. rewrite <- Zabs_Qabs. cbn [Qnum Qden].
  apply Qmake_Qdiv.
Qed.

(** [ilog2 q] is the binary exponent of [q]. *)
Lemma ilog2_spec (q : Q) :
  ¬ q == 0 → pow2 (ilog2 q) <= Qabs q ∧ Qabs q < pow2 (ilog2 q + 1).
Proof.
  intros Hq. unfold ilog2.
  set (n := Z.abs (Qnum q)). set (d := Zpos (Qden q)).
  assert (Hn : (0 < n)%Z).
  { subst n. destruct q as [[|p|p] dd]; cbn; try lia.
    exfalso. apply Hq. reflexivity. }
  assert (Hd : (0 < d)%Z) by (subst d; lia).
  destruct (Z.log2_spec n Hn) as [Hn1 Hn2].
  destruct (Z.log2_spec d Hd) as [Hd1 Hd2].
  set (a := Z.log2 n) in *. set (b := Z.log2 d) in *.
  assert (Ha : (0 <= a)%Z) by apply Z.log2_nonneg.
  assert (Hb : (0 <= b)%Z) by apply Z.log2_nonneg.
  assert (HA1 : pow2 a <= inject_Z n).
  { rewrite pow2_Z by done. by rewrite <- Zle_Qle. }
  assert (HA2 : inject_Z n < 2 * pow2 a).
  { rewrite <- pow2_succ, pow2_Z by lia. rewrite <- Zlt_Qlt.
    by replace (a + 1)%Z with (Z.succ a) by lia. }
  assert (HB1 : pow2 b <= inject_Z d).
  { rewrite pow2_Z by done. by rewrite <- Zle_Qle. }
  assert (HB2 : inject_Z d < 2 * pow2 b).
  { rewrite <- pow2_succ, pow2_Z by lia. rewrite <- Zlt_Qlt.
    by replace (b + 1)%Z with (Z.succ b) by lia. }
  pose proof (pow2_pos a) as HpA. pose proof (pow2_pos b) as HpB.
  assert (Hd0 : 0 < inject_Z d).
  { change 0 with (inject_Z 0). by rewrite <- Zlt_Qlt. }
  assert (Habs : Qabs q == inject_Z n / inject_Z d) by apply Qabs_as_quotient.
  assert (Hk : pow2 (a - b) == pow2 a / pow2 b) by apply pow2_sub.
  assert (Hlo : pow2 (a - b) / 2 < Qabs q).
  { rewrite Habs, Hk.
    apply Qlt_shift_div_l; [done|].
    assert (E : pow2 a / pow2 b / 2 * inject_Z d
                == pow2 a * (inject_Z d / (2 * pow2 b))) by (field; lra).
    rewrite E.
    assert (inject_Z d / (2 * pow2 b) < 1).
    { apply Qlt_shift_div_r; lra. }
    nra. }
  assert (Hhi : Qabs q < 2 * pow2 (a - b)).
  { rewrite Habs, Hk.
    apply Qlt_shift_div_r; [done|].
    assert (E : 2 * (pow2 a / pow2 b) * inject_Z d
                == 2 * pow2 a * (inject_Z d / pow2 b)) by (field; lra).
    rewrite E.
    assert (1 <= inject_Z d / pow2 b).
    { apply Qle_shift_div_l; lra. }
    nra. }
  destruct (Qle_bool (pow2 (a - b)) (Qabs q)) eqn:Hcmp.
  - apply Qle_bool_iff in Hcmp. split; [done|]. by rewrite pow2_succ.
  - assert (Hlt : Qabs q < pow2 (a - b)).
    { apply Qnot_le_lt. intros H. apply Qle_bool_iff in H. congruence. }
    replace (a - b - 1 + 1)%Z with (a - b)%Z by lia.
    split; [|done]. rewrite pow2_pred. lra.
Qed.

Lemma rne_spec (z : Q) : Qabs (inject_Z (rne z) - z) <= 1 # 2.
Proof.
  unfold rne. pose proof (Qfloor_le z) as H1. pose proof (Qlt_floor z) as H2.
  rewrite inject_Z_plus in H2. change (inject_Z 1) with 1 in H2.
  apply Qabs_Qle_condition.
  destruct (Qcompare (z - inject_Z (Qfloor z)) (1 # 2)) eqn:Hc.
  - apply Qeq_alt in Hc. destruct (Z.even (Qfloor z)).
    + lra.
    + rewrite inject_Z_plus. change (inject_Z 1) with 1. lra.
  - apply Qlt_alt in Hc. lra.
  - apply Qgt_alt in Hc. rewrite inject_Z_plus. change (inject_Z 1) with 1. lra.
Qed.

Lemma rne_le (z : Q) (k : Z) : z <= inject_Z k → (rne z <= k)%Z.
Proof.
  intros H. pose proof (rne_spec z) as Hs. apply Qabs_Qle_condition in Hs. destruct Hs as [Hs1 Hs2].
  assert (Hlt : inject_Z (rne z) < inject_Z (k + 1)).
  { rewrite inject_Z_plus. change (inject_Z 1) with 1.
    remember (inject_Z (rne z)) as m eqn:Em. remember (inject_Z k) as kk eqn:Ek.
    clear Em Ek. lra. }
  rewrite <- Zlt_Qlt in Hlt. lia.
Qed.

Lemma rne_ge (z : Q) (k : Z) : inject_Z k <= z → (k <= rne z)%Z.
Proof.
  intros H. pose proof (rne_spec z) as Hs. apply Qabs_Qle_condition in Hs. destruct Hs as [Hs1 Hs2].
  assert (Hlt : inject_Z (k - 1) < inject_Z (rne z)).
  { unfold Z.sub. rewrite inject_Z_plus, inject_Z_opp. change (inject_Z 1) with 1.
    remember (inject_Z (rne z)) as m eqn:Em. remember (inject_Z k) as kk eqn:Ek.
    clear Em Ek. lra. }
  rewrite <- Zlt_Qlt in Hlt. lia.
Qed.

Lemma rne_lt_half (z : Q) (k : Z) : z < inject_Z k - (1 # 2) → (rne z < k)%Z.
Proof.
  intros H. pose proof (rne_spec z) as Hs. apply Qabs_Qle_condition in Hs. destruct Hs as [Hs1 Hs2].
  rewrite Zlt_Qlt.
  remember (inject_Z (rne z)) as m eqn:Em. remember (inject_Z k) as kk eqn:Ek.
  clear Em Ek. lra.
Qed.

Lemma rne_Z (k : Z) : rne (inject_Z k) = k.
Proof.
  apply Z.le_antisymm; [apply rne_le | apply rne_ge]; lra.
Qed.

End RoundingFacts.

Section Round64Facts.
Local Open Scope Q_scope.

Lemma pow2_lt_inv (a b : Z) : pow2 a < pow2 b → (a < b)%Z.
Proof. intros H. by apply (Qpower_lt_compat_l_inv 2). Qed.

Lemma round64_nonzero (q : Q) :
  ¬ q == 0 →
  round64 q =
    let e := Z.max (ilog2 q - 52) (-1074) in
    let r := inject_Z (rne (q / pow2 e)) * pow2 e in
    if Qle_bool (pow2 1024) (Qabs r) then Inf (Qltb q 0) else Num (Qred r).
Proof.
  intros Hq. unfold round64.
  destruct (Qeq_bool q 0) eqn:E; [|done].
  apply Qeq_bool_iff in E. contradiction.
Qed.

Lemma Qle_bool_false (a b : Q) : b < a → Qle_bool a b = false.
Proof.
  intros H. destruct (Qle_bool a b) eqn:E; [|done].
  apply Qle_bool_iff in E. lra.
Qed.

(** Rounding a positive number of the normal range moves it by at most
    the fraction [2^-53] of itself. *)
Lemma round64_relative (q : Q) :
  pow2 (-1022) <= q → q <= pow2 1023 →
  ∃ r, round64 q = Num r
       ∧ q * (1 - pow2 (-53)) <= r ∧ r <= q * (1 + pow2 (-53)).
Proof.
  intros Hlo Hhi.
  pose proof (pow2_pos (-1022)) as Hp.
  assert (Hq : 0 < q) by lra.
  assert (Hq0 : ¬ q == 0) by lra.
  destruct (ilog2_spec q Hq0) as [Hl1 Hl2].
  rewrite Qabs_pos in Hl1, Hl2 by lra.
  assert (Hk : (-1022 <= ilog2 q)%Z).
  { assert (pow2 (-1022) < pow2 (ilog2 q + 1)) by lra.
    apply pow2_lt_inv in H. lia. }
  rewrite round64_nonzero by done. cbv zeta.
  rewrite Z.max_l by lia.
  set (e := (ilog2 q - 52)%Z).
  set (z := q / pow2 e).
  pose proof (pow2_pos e) as He.
  pose proof (rne_spec z) as Hm. apply Qabs_Qle_condition in Hm.
  destruct Hm as [Hm1 Hm2].
  set (m := inject_Z (rne z)) in *.
  assert (Hqz : q == z * pow2 e) by (unfold z; field; lra).
  assert (He52 : pow2 (ilog2 q) == pow2 52 * pow2 e).
  { rewrite <- pow2_add. subst e. by replace (52 + (ilog2 q - 52))%Z with (ilog2 q) by lia. }
  assert (Hu : pow2 (-53) == 1 # 9007199254740992) by reflexivity.
  assert (H52 : pow2 52 == 4503599627370496) by reflexivity.
  assert (Hz : pow2 52 <= z).
  { unfold z. apply Qle_shift_div_l; [done|]. lra. }
  assert (Herr1 : q * (1 - pow2 (-53)) <= m * pow2 e).
  { rewrite Hqz, Hu. rewrite H52 in Hz.
    assert (z * (1 - (1 # 9007199254740992)) <= m) by lra. nra. }
  assert (Herr2 : m * pow2 e <= q * (1 + pow2 (-53))).
  { rewrite Hqz, Hu. rewrite H52 in Hz.
    assert (m <= z * (1 + (1 # 9007199254740992))) by lra. nra. }
  assert (Hr0 : 0 <= m * pow2 e).
  { rewrite Hu in Herr1. nra. }
  rewrite Qle_bool_false.
  - exists (Qred (m * pow2 e)). split; [done|]. by rewrite !Qred_correct.
  - rewrite Qabs_pos by done.
    assert (H1024 : pow2 1024 == 2 * pow2 1023) by (rewrite <- pow2_succ; reflexivity).
    rewrite H1024. rewrite Hu in Herr2.
    pose proof (pow2_pos 1023). nra.
Qed.

(** Rounding a number of the open unit interval stays in the closed
    one, and reaches 1 only from [1 - 2^-54] on. *)
Lemma round64_unit (y : Q) :
  0 < y → y < 1 →
  ∃ r, round64 y = Num r ∧ 0 <= r ∧ r <= 1
       ∧ (y < 1 - pow2 (-54) → r < 1).
Proof.
  intros Hy0 Hy1.
  assert (Hq0 : ¬ y == 0) by lra.
  destruct (ilog2_spec y Hq0) as [Hl1 Hl2].
  rewrite Qabs_pos in Hl1, Hl2 by lra.
  assert (Hk : (ilog2 y < 0)%Z).
  { apply pow2_lt_inv. change (pow2 0) with 1. lra. }
  rewrite round64_nonzero by done. cbv zeta.
  set (e := Z.max (ilog2 y - 52) (-1074)).
  assert (He53 : (e <= -53)%Z) by lia.
  set (N := (2 ^ (- e))%Z).
  assert (HN : pow2 e * inject_Z N == 1).
  { subst N. rewrite <- pow2_Z by lia. rewrite <- pow2_add.
    by replace (e + - e)%Z with 0%Z by lia. }
  pose proof (pow2_pos e) as He.
  assert (HN0 : 1 <= inject_Z N).
  { change 1 with (inject_Z 1). rewrite <- Zle_Qle. subst N.
    assert (0 < 2 ^ (- e))%Z by (apply Z.pow_pos_nonneg; lia). lia. }
  set (z := y / pow2 e).
  assert (Hz : z == y * inject_Z N).
  { unfold z. rewrite <- (Qmult_1_r (y / pow2 e)), <- HN. field. lra. }
  assert (Hm0 : (0 <= rne z)%Z).
  { apply rne_ge. change (inject_Z 0) with 0. rewrite Hz. nra. }
  assert (HmN : (rne z <= N)%Z).
  { apply rne_le. rewrite Hz. nra. }
  assert (Hr : inject_Z (rne z) * pow2 e == inject_Z (rne z) / inject_Z N).
  { rewrite <- (Qmult_1_r (inject_Z (rne z) / inject_Z N)), <- HN. field. lra. }
  assert (Hr0 : 0 <= inject_Z (rne z) * pow2 e).
  { apply Qmult_le_0_compat; [|lra].
    change 0 with (inject_Z 0). by rewrite <- Zle_Qle. }
  assert (Hr1 : inject_Z (rne z) * pow2 e <= 1).
  { rewrite Hr. apply Qle_shift_div_r; [lra|]. rewrite Qmult_1_l.
    by rewrite <- Zle_Qle. }
  rewrite Qle_bool_false.
  2:{ rewrite Qabs_pos by done.
      assert (1 < pow2 1024) by reflexivity. lra. }
  exists (Qred (inject_Z (rne z) * pow2 e)). split; [done|].
  rewrite !Qred_correct.
  split; [done|]. split; [done|].
  intros Hstrict.
  assert (Hlt : (rne z < N)%Z).
  { apply rne_lt_half. rewrite Hz.
    destruct (Z.eq_dec e (-53)%Z) as [E|E].
    - assert (HN53 : inject_Z N == 9007199254740992).
      { subst N. rewrite E. reflexivity. }
      rewrite HN53.
      assert (Hu : pow2 (-54) == 1 # 18014398509481984) by reflexivity.
      rewrite Hu in Hstrict. nra.
    - assert (Hk2 : (ilog2 y + 1 <= -1)%Z) by lia.
      assert (Hhalf : y < 1 # 2).
      { apply pow2_le in Hk2. change (pow2 (-1)) with (1 # 2) in Hk2. lra. }
      nra. }
  rewrite Hr. apply Qlt_shift_div_r; [lra|]. rewrite Qmult_1_l.
  by rewrite <- Zlt_Qlt.
Qed.

End Round64Facts.

(** *** Binary64 numbers *)

Section RepresentableFacts.
Local Open Scope Q_scope.

Lemma pow2_le_inv (a b : Z) : pow2 a <= pow2 b → (a <= b)%Z.
Proof. intros H. by apply (Qpower_le_compat_l_inv 2). Qed.

Lemma ilog2_unique (q : Q) (k : Z) :
  pow2 k <= Qabs q → Qabs q < pow2 (k + 1) → ilog2 q = k.
Proof.
  intros H1 H2.
  assert (Hq : ¬ q == 0).
  { intros E. rewrite E in H1. pose proof (pow2_pos k).
    change (Qabs 0) with 0 in H1. lra. }
  destruct (ilog2_spec q Hq) as [H3 H4].
  assert (ilog2 q < k + 1)%Z by (apply pow2_lt_inv; lra).
  assert (k < ilog2 q + 1)%Z by (apply pow2_lt_inv; lra).
  lia.
Qed.

Lemma ilog2_comp (q q' : Q) : q == q' → ¬ q == 0 → ilog2 q = ilog2 q'.
Proof.
  intros E Hq. symmetry.
  destruct (ilog2_spec q Hq) as [H1 H2].
  apply ilog2_unique; by rewrite <- E.
Qed.

Lemma Qltb_comp (a a' b : Q) : a == a' → Qltb a b = Qltb a' b.
Proof.
  intros E. unfold Qltb.
  destruct (Qlt_le_dec a b), (Qlt_le_dec a' b); try done; lra.
Qed.

Lemma rne_comp (z z' : Q) : z == z' → rne z = rne z'.
Proof.
  intros E. unfold rne. rewrite (Qfloor_comp _ _ E).
  assert (Ec : Qcompare (z - inject_Z (Qfloor z')) (1 # 2)
               = Qcompare (z' - inject_Z (Qfloor z')) (1 # 2)).
  { by rewrite E. }
  by rewrite Ec.
Qed.

(** Rounding depends on the value only, not on the fraction that
    denotes it. *)
Lemma round64_comp (q q' : Q) : q == q' → round64 q = round64 q'.
Proof.
  intros E. unfold round64.
  assert (Ez : Qeq_bool q 0 = Qeq_bool q' 0).
  { destruct (Qeq_bool q 0) eqn:E1, (Qeq_bool q' 0) eqn:E2; try done.
    - apply Qeq_bool_iff in E1. apply Qeq_bool_neq in E2. lra.
    - apply Qeq_bool_iff in E2. apply Qeq_bool_neq in E1. lra. }
  rewrite <- Ez. destruct (Qeq_bool q 0) eqn:E1; [done|].
  apply Qeq_bool_neq in E1.
  rewrite <- (ilog2_comp q q' E E1). cbv zeta.
  set (e := Z.max (ilog2 q - 52) (-1074)).
  assert (Em : rne (q / pow2 e) = rne (q' / pow2 e)).
  { apply rne_comp. by rewrite E. }
  rewrite <- Em, (Qltb_comp q q' 0 E). done.
Qed.

Lemma representable_0 : representable 0.
Proof.
  exists 0%Z, 0%Z. split; [lia|]. split; [done|]. split; reflexivity.
Qed.

Lemma representable_comp (q q' : Q) : q == q' → representable q → representable q'.
Proof.
  intros E (m & e & He & Hm & Hq & Hb). exists m, e.
  split; [done|]. split; [done|]. by rewrite <- E.
Qed.

(** Every finite result of a rounding is a binary64 number. *)
Lemma round64_representable (q r : Q) : round64 q = Num r → representable r.
Proof.
  unfold round64. destruct (Qeq_bool q 0) eqn:E0.
  { intros [= <-]. apply representable_0. }
  apply Qeq_bool_neq in E0. cbv zeta.
  set (e := Z.max (ilog2 q - 52) (-1074)).
  set (m := rne (q / pow2 e)).
  destruct (Qle_bool (pow2 1024) (Qabs (inject_Z m * pow2 e))) eqn:Eo; [done|].
  intros [= <-].
  assert (Hov : Qabs (inject_Z m * pow2 e) < pow2 1024).
  { apply Qnot_le_lt. intros H. apply Qle_bool_iff in H. congruence. }
  destruct (ilog2_spec q E0) as [H1 H2].
  pose proof (pow2_pos e) as Hpe.
  assert (Hz : Qabs (q / pow2 e) < pow2 53).
  { unfold Qdiv. rewrite Qabs_Qmult, Qabs_Qinv, (Qabs_pos (pow2 e)) by lra.
    apply Qlt_shift_div_r; [done|].
    assert (pow2 (ilog2 q + 1) <= pow2 53 * pow2 e).
    { rewrite <- pow2_add. apply pow2_le. lia. }
    lra. }
  apply Qabs_Qlt_condition in Hz. destruct Hz as [Hz1 Hz2].
  assert (H53 : pow2 53 == inject_Z (2 ^ 53)) by reflexivity.
  assert (Hm1 : (m <= 2 ^ 53)%Z).
  { apply rne_le. rewrite <- H53. lra. }
  assert (Hm2 : (- 2 ^ 53 <= m)%Z).
  { apply rne_ge. rewrite inject_Z_opp, <- H53. lra. }
  destruct (Z.eq_dec (Z.abs m) (2 ^ 53)%Z) as [Em|Em].
  - (* the mantissa reached the next power of two *)
    assert (He : (-1074 <= e + 1)%Z) by lia.
    assert (Hcases : (m = 2 ^ 53 ∨ m = - 2 ^ 53)%Z) by lia.
    exists (m / 2)%Z, (e + 1)%Z.
    split; [done|]. split; [by destruct Hcases as [-> | ->]|]. split.
    + rewrite Qred_correct, pow2_succ.
      assert (Hm : inject_Z m == 2 * inject_Z (m / 2)).
      { destruct Hcases as [-> | ->]; reflexivity. }
      rewrite Hm. ring.
    + by rewrite Qred_correct.
  - exists m, e. split; [lia|]. split; [lia|].
    split; by rewrite Qred_correct.
Qed.

(** A binary64 number rounds to itself. *)
Lemma round64_fixes (q : Q) : representable q → round64 q = Num (Qred q).
Proof.
  intros (m & e & He & Hm & Hq & Hb).
  destruct (Qeq_dec q 0) as [E0|E0].
  { rewrite (round64_comp q 0 E0), (Qred_complete q 0 E0). reflexivity. }
  rewrite round64_nonzero by done. cbv zeta.
  set (er := Z.max (ilog2 q - 52) (-1074)).
  pose proof (pow2_pos e) as Hpe. pose proof (pow2_pos er) as Hper.
  destruct (ilog2_spec q E0) as [H1 H2].
  assert (Her : (er <= e)%Z).
  { assert (Qabs q < pow2 53 * pow2 e).
    { rewrite Hq, Qabs_Qmult, (Qabs_pos (pow2 e)) by lra.
      apply Qmult_lt_compat_r; [done|].
      assert (H53 : pow2 53 == inject_Z (2 ^ 53)) by reflexivity.
      rewrite H53. destruct m; cbn [Z.abs] in Hm.
      - reflexivity.
      - rewrite Qabs_pos by done. by rewrite <- Zlt_Qlt.
      - rewrite Qabs_neg by done. rewrite <- inject_Z_opp.
        by rewrite <- Zlt_Qlt. }
    rewrite <- pow2_add in H.
    assert (ilog2 q < 53 + e)%Z by (apply pow2_lt_inv; lra).
    lia. }
  assert (Hz : q / pow2 er == inject_Z (m * 2 ^ (e - er))).
  { rewrite inject_Z_mult, <- pow2_Z by lia. rewrite pow2_sub, Hq.
    field. lra. }
  rewrite (rne_comp _ _ Hz), rne_Z.
  assert (Hr : inject_Z (m * 2 ^ (e - er)) * pow2 er == q).
  { rewrite <- Hz. field. lra. }
  rewrite Qle_bool_false by (by rewrite Hr).
  f_equal. by apply Qred_complete.
Qed.

Lemma fmod1_nonneg (a : Q) : 0 <= a → fmod1 a == a - inject_Z (Qfloor a).
Proof.
  intros Ha. unfold fmod1. destruct a as [n d]. cbn [Qnum Qden Qfloor].
  assert (0 <= n)%Z.
  { unfold Qle in Ha. cbn in Ha. lia. }
  rewrite Z.quot_div_nonneg by lia. reflexivity.
Qed.

Lemma fmod1_neg (a : Q) : a <= 0 → fmod1 a == a - inject_Z (Qceiling a).
Proof.
  intros Ha. unfold fmod1, Qceiling. destruct a as [n d].
  cbn [Qnum Qden Qfloor Qopp].
  assert (n <= 0)%Z.
  { unfold Qle in Ha. cbn in Ha. lia. }
  replace (Z.quot n (Zpos d)) with (- (- n / Z.pos d))%Z; [reflexivity|].
  rewrite <- Z.quot_div_nonneg by lia.
  rewrite Z.quot_opp_l by lia. lia.
Qed.

Lemma fmod1_range_nonneg (a : Q) : 0 <= a → 0 <= fmod1 a ∧ fmod1 a < 1.
Proof.
  intros Ha. rewrite fmod1_nonneg by done.
  pose proof (Qfloor_le a). pose proof (Qlt_floor a) as H2.
  rewrite inject_Z_plus in H2. change (inject_Z 1) with 1 in H2. lra.
Qed.

Lemma fmod1_range_neg (a : Q) : a <= 0 → -1 < fmod1 a ∧ fmod1 a <= 0.
Proof.
  intros Ha. rewrite fmod1_neg by done.
  pose proof (Qle_ceiling a). pose proof (Qceiling_lt a) as H2.
  unfold Z.sub in H2. rewrite inject_Z_plus, inject_Z_opp in H2.
  change (inject_Z 1) with 1 in H2. lra.
Qed.

(** The floored fractional part in terms of the truncated one. *)
Lemma frac_of_fmod1 (a : Q) :
  a - inject_Z (Qfloor a)
  == if Qltb (fmod1 a) 0 then fmod1 a + 1 else fmod1 a.
Proof.
  unfold Qltb. destruct (Qlt_le_dec (fmod1 a) 0) as [Hr|Hr].
  - assert (Ha : a <= 0).
    { destruct (Qlt_le_dec 0 a) as [H|H]; [|done].
      destruct (fmod1_range_nonneg a); lra. }
    rewrite fmod1_neg in Hr |- * by done.
    assert (Hc : Qceiling a = (Qfloor a + 1)%Z).
    { pose proof (Qfloor_le a) as F1. pose proof (Qlt_floor a) as F2.
      pose proof (Qle_ceiling a) as C1. pose proof (Qceiling_lt a) as C2.
      assert (inject_Z (Qfloor a) < inject_Z (Qceiling a)) by lra.
      assert (inject_Z (Qceiling a - 1) < inject_Z (Qfloor a + 1)) by lra.
      rewrite <- Zlt_Qlt in *. lia. }
    rewrite Hc, inject_Z_plus. change (inject_Z 1) with 1. ring.
  - destruct (Qlt_le_dec a 0) as [Ha|Ha].
    + destruct (fmod1_range_neg a) as [_ H]; [lra|].
      assert (E : fmod1 a == 0) by lra.
      rewrite E. rewrite fmod1_neg in E by lra.
      assert (Ea : a == inject_Z (Qceiling a)) by lra.
      rewrite (Qfloor_comp _ _ Ea), Qfloor_Z. lra.
    + by rewrite fmod1_nonneg.
Qed.

Lemma frac_range (a : Q) :
  0 <= a - inject_Z (Qfloor a) ∧ a - inject_Z (Qfloor a) < 1.
Proof.
  pose proof (Qfloor_le a). pose proof (Qlt_floor a) as H2.
  rewrite inject_Z_plus in H2. change (inject_Z 1) with 1 in H2. lra.
Qed.

(** The fractional part of a non-negative binary64 number is one. *)
Lemma frac_representable (x : Q) :
  representable x → 0 <= x → representable (x - inject_Z (Qfloor x)).
Proof.
  intros (m & e & He & Hm & Hx & Hb) H0.
  pose proof (pow2_pos e) as Hpe.
  destruct (Z_lt_le_dec e 0) as [Hneg|Hpos].
  - set (D := (2 ^ (- e))%Z).
    assert (HD : (0 < D)%Z) by (apply Z.pow_pos_nonneg; lia).
    assert (HDq : 0 < inject_Z D).
    { change 0 with (inject_Z 0). by rewrite <- Zlt_Qlt. }
    assert (HeD : pow2 e * inject_Z D == 1).
    { subst D. rewrite <- pow2_Z by lia. rewrite <- pow2_add.
      by replace (e + - e)%Z with 0%Z by lia. }
    assert (Hxm : x == inject_Z m / inject_Z D).
    { rewrite Hx. rewrite <- (Qmult_1_r (inject_Z m / inject_Z D)), <- HeD.
      field. lra. }
    assert (Hm0 : (0 <= m)%Z).
    { rewrite Zle_Qle. change (inject_Z 0) with 0.
      rewrite Hx in H0. remember (inject_Z m) as mq. nra. }
    assert (Hfl : Qfloor x = (m / D)%Z).
    { rewrite (Qfloor_comp _ _ Hxm). symmetry. apply Zdiv_Qdiv. }
    exists (m mod D)%Z, e. split; [done|].
    pose proof (Z.mod_pos_bound m D HD) as Hmod.
    assert (m mod D <= m)%Z by (apply Z.mod_le; lia).
    split; [lia|]. split.
    + rewrite Hfl, Hxm.
      rewrite (Z.mod_eq m D) by lia.
      unfold Z.sub. rewrite inject_Z_plus, inject_Z_opp, inject_Z_mult.
      rewrite <- (Qmult_1_r (inject_Z m / inject_Z D)), <- HeD.
      assert (Hinv : pow2 e == / inject_Z D).
      { rewrite <- (Qmult_1_r (pow2 e)).
        rewrite <- (Qmult_inv_r (inject_Z D)) at 1 by lra.
        rewrite Qmult_assoc, HeD. ring. }
      rewrite Hinv. field. lra.
    + destruct (frac_range x) as [F1 F2].
      rewrite Qabs_pos by done.
      assert (1 < pow2 1024) by reflexivity. lra.
  - assert (Hxz : x == inject_Z (m * 2 ^ e)).
    { rewrite inject_Z_mult, <- pow2_Z by lia. done. }
    apply (representable_comp 0); [|apply representable_0].
    rewrite (Qfloor_comp _ _ Hxz), Qfloor_Z. lra.
Qed.

(** [np.mod(x, 1.0)] on a binary64 number is its floored fractional
    part, rounded. *)
Lemma mod1_as_round (x : Q) :
  representable x → mod1 (Num x) = round64 (x - inject_Z (Qfloor x)).
Proof.
  intros Hx. cbn [mod1]. pose proof (frac_of_fmod1 x) as Hc.
  destruct (Qeq_bool (fmod1 x) 0) eqn:E0.
  - apply Qeq_bool_iff in E0.
    assert (E : x - inject_Z (Qfloor x) == 0).
    { rewrite Hc. unfold Qltb. destruct (Qlt_le_dec (fmod1 x) 0); lra. }
    by rewrite (round64_comp _ _ E).
  - apply Qeq_bool_neq in E0.
    unfold Qltb in *. destruct (Qlt_le_dec (fmod1 x) 0) as [Hr|Hr].
    + cbn [add]. by apply round64_comp.
    + assert (H0 : 0 <= x).
      { destruct (Qlt_le_dec x 0) as [H|H]; [|done].
        destruct (fmod1_range_neg x); lra. }
      rewrite round64_fixes by by apply frac_representable.
      f_equal. by apply Qred_complete.
Qed.

End RepresentableFacts.

(** ** Phases in float64 *)

Section Mod1Facts.
Local Open Scope Q_scope.

(** A binary64 number whose fractional part is within [2^-54] of 1 is
    negative and of magnitude at most [2^-54]. *)
Lemma frac_near_one (x : Q) :
  representable x →
  1 - pow2 (-54) <= x - inject_Z (Qfloor x) →
  - pow2 (-54) <= x ∧ x < 0.
Proof.
  intros (m & e & He & Hm & Hx & Hb) Hc.
  destruct (frac_range x) as [F1 F2].
  assert (Hu : pow2 (-54) == 1 # 18014398509481984) by reflexivity.
  rewrite Hu in Hc |- *.
  destruct (Z.eq_dec (Qfloor x) (-1)%Z) as [E|E].
  { rewrite E in Hc, F2. change (inject_Z (-1)) with (-1) in *. lra. }
  exfalso.
  pose proof (pow2_pos e) as Hpe.
  assert (Hhalf : 1 # 2 <= Qabs x).
  { destruct (Z_lt_le_dec (Qfloor x) 0) as [Hn|Hn].
    - assert (Hn2 : (Qfloor x + 1 <= -1)%Z) by lia.
      rewrite Zle_Qle, inject_Z_plus in Hn2.
      change (inject_Z 1) with 1 in Hn2. change (inject_Z (-1)) with (-1) in Hn2.
      rewrite Qabs_neg by lra. lra.
    - rewrite Zle_Qle in Hn. change (inject_Z 0) with 0 in Hn.
      rewrite Qabs_pos by lra. lra. }
  assert (He53 : (-53 <= e)%Z).
  { assert (Hlt : Qabs x < pow2 53 * pow2 e).
    { rewrite Hx, Qabs_Qmult, (Qabs_pos (pow2 e)) by lra.
      apply Qmult_lt_compat_r; [done|].
      assert (H53 : pow2 53 == inject_Z (2 ^ 53)) by reflexivity.
      rewrite H53. destruct m; cbn [Z.abs] in Hm.
      - reflexivity.
      - rewrite Qabs_pos by done. by rewrite <- Zlt_Qlt.
      - rewrite Qabs_neg by done. rewrite <- inject_Z_opp.
        by rewrite <- Zlt_Qlt. }
    rewrite <- pow2_add in Hlt.
    assert (pow2 (-1) < pow2 (53 + e)).
    { change (pow2 (-1)) with (1 # 2). lra. }
    apply pow2_lt_inv in H. lia. }
  set (K := (m * 2 ^ (e + 53) - Qfloor x * 2 ^ 53)%Z).
  assert (HK : inject_Z K == (x - inject_Z (Qfloor x)) * 9007199254740992).
  { subst K. unfold Z.sub.
    rewrite inject_Z_plus, inject_Z_opp, !inject_Z_mult, <- pow2_Z by lia.
    remember (inject_Z (Qfloor x)) as fl eqn:Efl. clear Efl.
    rewrite pow2_add, Hx.
    assert (H53 : pow2 53 == 9007199254740992) by reflexivity.
    assert (H53z : inject_Z (2 ^ 53) == 9007199254740992) by reflexivity.
    rewrite H53, H53z. ring. }
  assert (K1 : inject_Z (9007199254740992 - 1) < inject_Z K).
  { rewrite HK. change (inject_Z (9007199254740992 - 1)) with 9007199254740991.
    lra. }
  assert (K2 : inject_Z K < inject_Z 9007199254740992).
  { rewrite HK. change (inject_Z 9007199254740992) with 9007199254740992. lra. }
  rewrite <- Zlt_Qlt in K1, K2. lia.
Qed.

(** The float64 phase of a binary64 count. *)
Lemma mod1_of_count (x : Q) : representable x → phase_of_count (Num x) (mod1 (Num x)).
Proof.
  intros Hx. cbn [phase_of_count]. rewrite mod1_as_round by done.
  destruct (frac_range x) as [F1 F2].
  set (c := x - inject_Z (Qfloor x)) in *.
  destruct (Qeq_dec c 0) as [E|E].
  { rewrite (round64_comp c 0 E). exists 0. split; [reflexivity|]. lra. }
  destruct (round64_unit c) as (r & Hr & R0 & R1 & Rs); [lra | done |].
  exists r. split; [done|]. split; [done|]. split; [done|].
  destruct (Qlt_le_dec c (1 - pow2 (-54))) as [Hc|Hc].
  - left. by apply Rs.
  - right. by apply frac_near_one.
Qed.

(** Counts that differ by an integer have the same phase. *)
Lemma mod1_periodic (x x' : Q) (k : Z) :
  representable x → representable x' → x' == x + inject_Z k →
  mod1 (Num x') = mod1 (Num x).
Proof.
  intros Hx Hx' E. rewrite !mod1_as_round by done.
  apply round64_comp.
  rewrite (Qfloor_comp _ _ E), Qfloor_add_Z, inject_Z_plus, E. ring.
Qed.

Lemma add_representable (x y : f64) (a : Q) : add x y = Num a → representable a.
Proof.
  destruct x as [p|s|], y as [q|s'|]; cbn [add]; try done.
  - apply round64_representable.
  - by destruct (Bool.eqb s s').
Qed.

Lemma div_representable (x y : f64) (a : Q) : div x y = Num a → representable a.
Proof.
  destruct x as [p|s|], y as [q|s'|]; cbn [div]; try done.
  - destruct (Qeq_bool q 0); [by destruct (Qeq_bool p 0)|].
    apply round64_representable.
  - intros [= <-]. apply representable_0.
Qed.

Lemma phase64_of_counts (t : list Q) (t0 : Q) (period : f64) :
  Forall2 phase_of_count (mjd_norm64_of t t0 period)
    (phase64_of (mjd_norm64_of t t0 period)).
Proof.
  unfold phase64_of, mjd_norm64_of.
  induction t as [|y t IH]; cbn [map]; constructor; [|exact IH].
  destruct (div (sub (Num y) (Num t0)) period) as [a|s|] eqn:E; cbn [phase_of_count];
    [|done|done].
  apply mod1_of_count. by apply div_representable in E.
Qed.

End Mod1Facts.

Section Fold64Facts.
Local Open Scope Q_scope.

(** What the folding cell has assigned when it returns. *)
Lemma fold_bands64_returned (mjd_days : dict (list Q)) (best_period : f64)
    (folded : Folded64) :
  fold_bands64 mjd_days best_period = Return folded →
  (∃ g, mjd_days !! "g" = Some g ∧ Np.min g = Return (t0_64 folded))
  ∧ ∀ label, label ∈ plot_filter_labels →
      ∃ t, mjd_days !! label = Some t
           ∧ mjd_norm64 folded !! label
             = Some (mjd_norm64_of t (t0_64 folded) best_period)
           ∧ phase64 folded !! label
             = Some (phase64_of (mjd_norm64_of t (t0_64 folded) best_period)).
Proof.
  intros Hrun. unfold fold_bands64 in Hrun.
  destruct (getitem mjd_days "g") as [g|] eqn:Hgi; [|done].
  assert (Hg : mjd_days !! "g" = Some g).
  { unfold getitem in Hgi. destruct (mjd_days !! "g"); [|done].
    by injection Hgi as ->. }
  cbv [mbind py_bind bind] in Hrun.
  destruct (Np.min g) as [m|] eqn:Hmin; [|done].
  destruct (for_each _ _ _) as [[norm ph]|] eqn:Hloop; [|done].
  injection Hrun as <-. cbn [t0_64 mjd_norm64 phase64].
  split; [by exists g|].
  refine (for_each_returned_invariant
    (λ done (s : dict (list f64) * dict (list f64)),
       ∀ label, label ∈ done →
         ∃ t, mjd_days !! label = Some t
              ∧ s.1 !! label = Some (mjd_norm64_of t m best_period)
              ∧ s.2 !! label = Some (phase64_of (mjd_norm64_of t m best_period)))
    _ _ _ _ _ _ Hloop).
  - intros label Hl. by apply elem_of_nil in Hl.
  - intros done x [n1 p1] [n2 p2] Hinv Hx Hbody label Hl.
    unfold getitem in Hbody. destruct (mjd_days !! x) as [t|] eqn:Ht; [|done].
    cbv [mbind py_bind bind] in Hbody. injection Hbody as <- <-. cbn [fst snd].
    destruct (decide (label = x)) as [-> | Hneq].
    + exists t. by rewrite !lookup_insert_eq.
    + rewrite !lookup_insert_ne by done.
      apply elem_of_app in Hl as [Hl | Hl]; [by apply Hinv|].
      by apply list_elem_of_singleton in Hl.
Qed.

(** What one pass of the candidate loop has computed when it returns. *)
Lemma fold_object64_returned (dia_sources : list DiaSource) (objids : list Z)
    (LSfreq : list f64) (i : nat) (o : ObjectFold64) :
  fold_object64 dia_sources objids LSfreq i = Return o →
  ∃ objid f,
    objids !! i = Some objid ∧ LSfreq !! i = Some f
    ∧ rows_of dia_sources objid ≠ []
    ∧ obj_period64 o = F64.div (Num 1) f
    ∧ obj_mjd_norm64 o
      = mjd_norm64_of (map midPointTai (rows_of dia_sources objid)) 0
          (F64.div (Num 1) f)
    ∧ obj_phase64 o = phase64_of (obj_mjd_norm64 o).
Proof.
  unfold fold_object64, index. intros Hrun.
  destruct (objids !! i) as [objid|]; [|done].
  cbv [mbind py_bind bind] in Hrun.
  destruct (LSfreq !! i) as [f|]; [|done].
  cbv zeta in Hrun.
  destruct (rows_of dia_sources objid) as [|r rows] eqn:Hrows; [done|].
  cbn [map lookup list_lookup] in Hrun. injection Hrun as <-.
  exists objid, f. cbn [obj_period64 obj_mjd_norm64 obj_phase64].
  by rewrite Hrows.
Qed.

End Fold64Facts.

Section PhaseErrorFacts.
Local Open Scope Q_scope.

(** Rounding a number of the unit interval moves it by at most
    [2^-54]. *)
Lemma round64_unit_error (c : Q) :
  0 <= c → c < 1 →
  ∃ r, round64 c = Num r ∧ c - pow2 (-54) <= r ∧ r <= c + pow2 (-54).
Proof.
  intros Hc0 Hc1.
  assert (Hu : pow2 (-54) == 1 # 18014398509481984) by reflexivity.
  destruct (Qeq_dec c 0) as [E|E].
  { rewrite (round64_comp c 0 E). exists 0. split; [reflexivity|].
    rewrite Hu. lra. }
  destruct (ilog2_spec c E) as [Hl1 Hl2].
  rewrite Qabs_pos in Hl1, Hl2 by lra.
  assert (Hk : (ilog2 c < 0)%Z).
  { apply pow2_lt_inv. change (pow2 0) with 1. lra. }
  rewrite round64_nonzero by done. cbv zeta.
  set (e := Z.max (ilog2 c - 52) (-1074)).
  assert (He53 : (e <= -53)%Z) by lia.
  pose proof (pow2_pos e) as He.
  assert (Hpe : pow2 e <= pow2 (-53)) by (by apply pow2_le).
  assert (H53 : pow2 (-53) == 1 # 9007199254740992) by reflexivity.
  set (z := c / pow2 e).
  pose proof (rne_spec z) as Hm. apply Qabs_Qle_condition in Hm.
  destruct Hm as [Hm1 Hm2].
  set (m := inject_Z (rne z)) in *.
  assert (Hcz : c == z * pow2 e) by (unfold z; field; lra).
  assert (B1 : c - pow2 (-54) <= m * pow2 e).
  { rewrite Hcz, Hu.
    assert ((z - (1 # 2)) * pow2 e <= m * pow2 e)
      by (apply Qmult_le_compat_r; lra).
    lra. }
  assert (B2 : m * pow2 e <= c + pow2 (-54)).
  { rewrite Hcz, Hu.
    assert (m * pow2 e <= (z + (1 # 2)) * pow2 e)
      by (apply Qmult_le_compat_r; lra).
    lra. }
  rewrite Qle_bool_false.
  - exists (Qred (m * pow2 e)). split; [done|]. by rewrite !Qred_correct.
  - rewrite Hu in B1, B2.
    assert (1 + 1 < pow2 1024) by reflexivity.
    apply Qabs_Qlt_condition. lra.
Qed.

(** The phases of two binary64 counts differ, modulo 1, by no more than
    the counts differ from a whole number of periods, and [2^-53]. *)
Lemma mod1_near_periodic (x x' : Q) (k : Z) :
  representable x → representable x' →
  ∃ p p' (j : Z),
    mod1 (Num x) = Num p ∧ mod1 (Num x') = Num p'
    ∧ Qabs (p' - p - inject_Z j)
      <= Qabs (x' - x - inject_Z k) + pow2 (-53).
Proof.
  intros Hx Hx'. rewrite !mod1_as_round by done.
  destruct (frac_range x) as [F1 F2]. destruct (frac_range x') as [F1' F2'].
  destruct (round64_unit_error _ F1 F2) as (p & Hp & P1 & P2).
  destruct (round64_unit_error _ F1' F2') as (p' & Hp' & P1' & P2').
  exists p, p', (k - Qfloor x' + Qfloor x)%Z.
  split; [exact Hp|]. split; [exact Hp'|].
  assert (Hu : pow2 (-54) == 1 # 18014398509481984) by reflexivity.
  assert (H53 : pow2 (-53) == 1 # 9007199254740992) by reflexivity.
  rewrite Hu in *. rewrite H53.
  unfold Z.sub. rewrite !inject_Z_plus, inject_Z_opp.
  remember (inject_Z (Qfloor x)) as fx eqn:Efx.
  remember (inject_Z (Qfloor x')) as fx' eqn:Efx'.
  remember (inject_Z k) as kq eqn:Ekq. clear Efx Efx' Ekq.
  apply Qabs_Qle_condition.
  destruct (Qabs_Qle_condition (x' - x - kq) (Qabs (x' - x - kq))) as [Hd _].
  destruct (Hd (Qle_refl _)) as [D1 D2].
  remember (Qabs (x' - x - kq)) as d eqn:Ed. clear Ed Hd.
  split; lra.
Qed.

End PhaseErrorFacts.

Section Phase64Facts.
Local Open Scope Q_scope.

Lemma count_not_nan (t t0 P : Q) :
  ¬ P == 0 → F64.div (F64.sub (Num t) (Num t0)) (Num P) ≠ NaN.
Proof.
  intros HP. cbn [sub opp add].
  assert (Hr : ∀ q, round64 q ≠ NaN).
  { intros q. unfold round64. destruct (Qeq_bool q 0); [done|]. cbv zeta.
    by destruct (Qle_bool _ _). }
  destruct (round64 (t + - t0)) as [a|s|] eqn:E; cbn [div].
  - destruct (Qeq_bool P 0) eqn:E0; [|apply Hr].
    apply Qeq_bool_iff in E0. contradiction.
  - done.
  - by apply Hr in E.
Qed.

(** C1, as the code has it.  In both folding cells the phase of an
    observation is [np.mod] of its elapsed-period count
    [(t - t0) / period], computed in float64, whether [t] is before the
    epoch or after it.  For a finite count the phase is never negative
    and never above 1, and it is below 1 unless the count lies in
    [[-2^-54, 0)], where [np.mod] rounds to exactly 1.0.  For a count
    that is not finite the phase is NaN; with a finite non-zero period
    that happens on overflow only. *)
Theorem C1_phase_in_closed_unit_interval :
  (∀ (mjd_days : dict (list Q)) (best_period : f64) (folded : Folded64),
     fold_bands64 mjd_days best_period = Return folded →
     ∀ label, label ∈ plot_filter_labels →
       ∃ t n ph,
         mjd_days !! label = Some t
         ∧ mjd_norm64 folded !! label = Some n
         ∧ phase64 folded !! label = Some ph
         ∧ n = mjd_norm64_of t (t0_64 folded) best_period
         ∧ Forall2 phase_of_count n ph
         ∧ ∀ P, best_period = Num P → ¬ P == 0 → Forall (λ x, x ≠ NaN) n)
  ∧ (∀ (dia_sources : list DiaSource) (objids : list Z) (LSfreq : list f64)
       (i : nat) (o : ObjectFold64),
       fold_object64 dia_sources objids LSfreq i = Return o →
       ∃ objid f,
         objids !! i = Some objid ∧ LSfreq !! i = Some f
         ∧ obj_mjd_norm64 o
           = mjd_norm64_of (map midPointTai (rows_of dia_sources objid)) 0
               (F64.div (Num 1) f)
         ∧ Forall2 phase_of_count (obj_mjd_norm64 o) (obj_phase64 o)).
Proof.
  split.
  - intros mjd_days best_period folded Hrun label Hl.
    destruct (fold_bands64_returned _ _ _ Hrun) as [_ Hdict].
    destruct (Hdict label Hl) as (t & Ht & Hn & Hph).
    eexists t, _, _. split; [exact Ht|]. split; [exact Hn|].
    split; [exact Hph|]. split; [reflexivity|].
    split; [apply phase64_of_counts|].
    intros P -> HP. unfold mjd_norm64_of. rewrite List.Forall_forall.
    intros x Hx. apply in_map_iff in Hx as (y & <- & _).
    by apply count_not_nan.
  - intros dia_sources objids LSfreq i o Hrun.
    destruct (fold_object64_returned _ _ _ _ _ Hrun)
      as (objid & f & Hi & Hf & _ & _ & Hn & Hph).
    exists objid, f. split; [exact Hi|]. split; [exact Hf|].
    split; [exact Hn|]. rewrite Hph, Hn. apply phase64_of_counts.
Qed.


End Phase64Facts.

Section PhaseExamples.
Local Open Scope Q_scope.

(** An instance: an r-band observation a day and a half before the
    epoch, folded with a period of a quarter of a day. *)
Lemma C1_closed_interval_witness :
  ∃ folded t n ph,
    fold_bands64 quarter_day_nights (Num (1 # 4)) = Return folded
    ∧ quarter_day_nights !! "r" = Some t
    ∧ mjd_norm64 folded !! "r" = Some n
    ∧ phase64 folded !! "r" = Some ph
    ∧ Forall2 phase_of_count n ph.
Proof.
  assert (Hrun : ∃ folded,
            fold_bands64 quarter_day_nights (Num (1 # 4)) = Return folded)
    by (eexists; vm_compute; reflexivity).
  destruct Hrun as [folded Hrun].
  destruct (proj1 C1_phase_in_closed_unit_interval _ _ _ Hrun "r")
    as (t & n & ph & Ht & Hn & Hph & _ & Hall & _); [compute_done|].
  by exists folded, t, n, ph.
Defined.

(** The phase can be exactly 1: an r-band observation [2^-37] days
    before the epoch, folded with a period of [2^20] days. *)
Lemma C1_phase_reaches_one :
  ∃ folded,
    fold_bands64 early_r_band (Num (2 ^ 20)) = Return folded
    ∧ mjd_norm64 folded !! "r" = Some [Num (- (1 # 2 ^ 57))]
    ∧ phase64 folded !! "r" = Some [Num 1]
    ∧ ¬ in_unit_interval 1.
Proof.
  eexists. split; [vm_compute; reflexivity|].
  split; [vm_compute; reflexivity|]. split; [vm_compute; reflexivity|].
  unfold in_unit_interval. lra.
Qed.



End PhaseExamples.

(** ** The consensus period in float64 *)

Section RoundedMeanFacts.
Local Open Scope Q_scope.

(** One more rounded addition, in the lower bound of a running sum. *)
Lemma sum_step_lower (t x s s' k u : Q) :
  0 <= t → 0 <= x → 0 <= k → 0 <= u → u <= 1 →
  t * (1 - k * u) <= s →
  (s + x) * (1 - u) <= s' →
  (t + x) * (1 - (k + 1) * u) <= s'.
Proof.
  intros Ht Hx Hk Hu Hu1 Hs Hs'.
  assert (H1 : (t * (1 - k * u) + x) * (1 - u) <= (s + x) * (1 - u)).
  { apply Qmult_le_compat_r; lra. }
  assert (H2 : 0 <= t * k * (u * u)).
  { repeat apply Qmult_le_0_compat; done. }
  assert (H3 : 0 <= x * k * u).
  { repeat apply Qmult_le_0_compat; done. }
  assert (E : (t * (1 - k * u) + x) * (1 - u)
              == (t + x) * (1 - (k + 1) * u) + t * k * (u * u) + x * k * u) by ring.
  lra.
Qed.

(** The same in the upper bound. *)
Lemma sum_step_upper (t x s s' k u : Q) :
  0 <= t → 0 <= x → 0 <= k → 0 <= u → 2 * k * u <= 1 →
  0 <= s →
  s <= t * (1 + 2 * k * u) →
  s' <= (s + x) * (1 + u) →
  s' <= (t + x) * (1 + 2 * (k + 1) * u).
Proof.
  intros Ht Hx Hk Hu Hku Hs0 Hs Hs'.
  assert (H1 : (s + x) * (1 + u) <= (t * (1 + 2 * k * u) + x) * (1 + u)).
  { apply Qmult_le_compat_r; lra. }
  assert (H2 : 0 <= t * u * (1 - 2 * k * u)).
  { repeat apply Qmult_le_0_compat; lra. }
  assert (H3 : 0 <= x * u * (1 + 2 * k)).
  { repeat apply Qmult_le_0_compat; lra. }
  assert (E : (t + x) * (1 + 2 * (k + 1) * u)
              == (t * (1 + 2 * k * u) + x) * (1 + u)
                 + t * u * (1 - 2 * k * u) + x * u * (1 + 2 * k)) by ring.
  lra.
Qed.

Variables lo hi : Q.
Hypothesis lo_normal : pow2 (-1022) <= lo.
Hypothesis hi_normal : hi <= pow2 1000.

#[local] Abbreviation u := (pow2 (-53)).
#[local] Abbreviation count k := (inject_Z (Z.of_nat k)).

(** The running sum of [np.mean], addition by addition. *)
Lemma foldl_add_bounds (a : list Q) :
  Forall (λ x, lo <= x ∧ x <= hi) a →
  ∀ (s t : Q) (k : nat),
    (k + length a ≤ 64)%nat →
    count k * lo <= t → t <= count k * hi →
    t * (1 - count k * u) <= s → s <= t * (1 + 2 * count k * u) →
    ∃ s', foldl add (Num s) (map Num a) = Num s'
          ∧ count (k + length a) * lo <= t + total a
          ∧ t + total a <= count (k + length a) * hi
          ∧ (t + total a) * (1 - count (k + length a) * u) <= s'
          ∧ s' <= (t + total a) * (1 + 2 * count (k + length a) * u).
Proof.
  pose proof (pow2_pos (-1022)) as Hpos.
  assert (Hu0 : 0 < u) by apply pow2_pos.
  assert (Hu1 : u <= 1 # 1000000) by (apply Qle_bool_imp_le; reflexivity).
  induction 1 as [|x a [Hx1 Hx2] Ha IH]; intros s t k Hk Ht1 Ht2 Hs1 Hs2.
  - exists s. cbn [map foldl length total foldr].
    rewrite Nat.add_0_r. split; [done|].
    assert (E : t + 0 == t) by ring. by rewrite !E.
  - cbn [length] in Hk. cbn [map foldl add].
    assert (Hkq : 0 <= count k ∧ count k <= 64).
    { split.
      - change 0 with (inject_Z 0). rewrite <- Zle_Qle. lia.
      - change 64 with (inject_Z 64). rewrite <- Zle_Qle. lia. }
    destruct Hkq as [Hk0 Hk64].
    remember (count k) as kq eqn:Ekq.
    assert (Hlo0 : 0 < lo) by lra.
    assert (Hhi0 : 0 < hi) by lra.
    assert (Ht0 : 0 <= t).
    { assert (0 <= kq * lo) by (apply Qmult_le_0_compat; lra). lra. }
    assert (Hku : kq * u <= 1 # 1000).
    { assert (kq * u <= 64 * u) by (apply Qmult_le_compat_r; lra). lra. }
    assert (Hku0 : 0 <= kq * u) by (apply Qmult_le_0_compat; lra).
    assert (Hs0 : 0 <= s).
    { assert (0 <= t * (1 - kq * u)) by (apply Qmult_le_0_compat; lra). lra. }
    destruct (round64_relative (s + x)) as (s1 & Hs1' & Hr1 & Hr2).
    { lra. }
    { assert (Hb : s + x <= 130 * hi).
      { assert (t * (1 + 2 * kq * u) <= (64 * hi) * 2).
        { apply Qmult_le_compat_nonneg.
          - split; [done|].
            assert (kq * hi <= 64 * hi) by (apply Qmult_le_compat_r; lra). lra.
          - split; lra. }
        lra. }
      assert (H130 : 130 * pow2 1000 <= pow2 1023)
        by (apply Qle_bool_imp_le; reflexivity).
      lra. }
    rewrite Hs1'.
    assert (Ek1 : count (S k) == kq + 1).
    { rewrite Ekq, Nat2Z.inj_succ. unfold Z.succ.
      rewrite inject_Z_plus. reflexivity. }
    destruct (IH s1 (t + x) (S k)) as (s' & Hrun & B1 & B2 & B3 & B4).
    + lia.
    + rewrite Ek1. lra.
    + rewrite Ek1. lra.
    + rewrite Ek1. apply (sum_step_lower t x s s1 kq u); try lra.
    + rewrite Ek1.
      apply (sum_step_upper t x s s1 kq u); try lra.
    + exists s'. split; [exact Hrun|].
      replace (k + length (x :: a))%nat with (S k + length a)%nat
        by (cbn [length]; lia).
      cbn [total foldr].
      assert (E : t + (x + foldr Qplus 0 a) == t + x + total a)
        by (unfold total; ring).
      rewrite !E. done.
Qed.

End RoundedMeanFacts.

Section WindowAlgebra.
Local Open Scope Q_scope.

Lemma period_upper (M lo m p u : Q) :
  0 < M → 0 <= u → u <= 1 # 1000 → 0 <= p →
  1 - u <= lo * M →
  lo * ((1 - 6 * u) * (1 - u)) <= m →
  p * m <= 1 + u →
  p <= M * (1 + 32 * u).
Proof.
  intros HM Hu0 Hu1 Hp Hlo Hm Hpm.
  set (c := (1 - u) * ((1 - 6 * u) * (1 - u))).
  assert (Hc1 : 0 <= (1 - 6 * u) * (1 - u)) by (apply Qmult_le_0_compat; lra).
  assert (Hc : 0 < c).
  { unfold c. apply Qmult_lt_0_compat; [lra|].
    apply Qmult_lt_0_compat; lra. }
  assert (HmM : c <= m * M).
  { assert (H1 : (1 - u) * ((1 - 6 * u) * (1 - u))
                 <= (lo * M) * ((1 - 6 * u) * (1 - u)))
      by (apply Qmult_le_compat_r; done).
    assert (H2 : lo * ((1 - 6 * u) * (1 - u)) * M <= m * M)
      by (apply Qmult_le_compat_r; lra).
    assert (E : lo * M * ((1 - 6 * u) * (1 - u))
                == lo * ((1 - 6 * u) * (1 - u)) * M) by ring.
    unfold c. lra. }
  assert (Hpc : p * c <= (1 + u) * M).
  { assert (H1 : p * c <= p * (m * M)).
    { rewrite (Qmult_comm p c), (Qmult_comm p (m * M)).
      apply Qmult_le_compat_r; done. }
    assert (H2 : p * m * M <= (1 + u) * M) by (apply Qmult_le_compat_r; lra).
    assert (E : p * (m * M) == p * m * M) by ring. lra. }
  assert (Hpoly : 1 + u <= (1 + 32 * u) * c).
  { unfold c. nra. }
  assert (Hfin : p * c <= M * (1 + 32 * u) * c).
  { assert ((1 + u) * M <= (1 + 32 * u) * c * M)
      by (apply Qmult_le_compat_r; lra).
    assert (E : (1 + 32 * u) * c * M == M * (1 + 32 * u) * c) by ring. lra. }
  by apply (Qmult_le_r _ _ c Hc).
Qed.

Lemma period_lower (mn hi m p u : Q) :
  0 < mn → 0 <= u → u <= 1 # 1000 → 0 <= p → 0 <= hi → 0 <= m →
  hi * mn <= 1 + u →
  m <= hi * ((1 + 12 * u) * (1 + u)) →
  1 - u <= p * m →
  mn * (1 - 32 * u) <= p.
Proof.
  intros Hmn Hu0 Hu1 Hp Hhi0 Hm0 Hhi Hm Hpm.
  set (d := (1 + u) * ((1 + 12 * u) * (1 + u))).
  assert (Hd1 : 0 <= (1 + 12 * u) * (1 + u)) by (apply Qmult_le_0_compat; lra).
  assert (Hd : 0 < d).
  { unfold d. apply Qmult_lt_0_compat; [lra|].
    apply Qmult_lt_0_compat; lra. }
  assert (HmM : m * mn <= d).
  { assert (H1 : (hi * mn) * ((1 + 12 * u) * (1 + u))
                 <= (1 + u) * ((1 + 12 * u) * (1 + u)))
      by (apply Qmult_le_compat_r; done).
    assert (H2 : m * mn <= hi * ((1 + 12 * u) * (1 + u)) * mn)
      by (apply Qmult_le_compat_r; lra).
    assert (E : hi * mn * ((1 + 12 * u) * (1 + u))
                == hi * ((1 + 12 * u) * (1 + u)) * mn) by ring.
    unfold d. lra. }
  assert (Hpd : (1 - u) * mn <= p * d).
  { assert (H1 : p * (m * mn) <= p * d).
    { rewrite (Qmult_comm p d), (Qmult_comm p (m * mn)).
      apply Qmult_le_compat_r; done. }
    assert (H2 : (1 - u) * mn <= p * m * mn) by (apply Qmult_le_compat_r; lra).
    assert (E : p * (m * mn) == p * m * mn) by ring. lra. }
  assert (Hpoly : (1 - 32 * u) * d <= 1 - u).
  { unfold d. nra. }
  assert (Hfin : mn * (1 - 32 * u) * d <= p * d).
  { assert ((1 - 32 * u) * d * mn <= (1 - u) * mn)
      by (apply Qmult_le_compat_r; lra).
    assert (E : (1 - 32 * u) * d * mn == mn * (1 - 32 * u) * d) by ring. lra. }
  by apply (Qmult_le_r _ _ d Hd).
Qed.

End WindowAlgebra.

Section Consensus64Facts.
Local Open Scope Q_scope.

#[local] Abbreviation u := (pow2 (-53)).

(** The float64 reciprocal of a number of the normal range. *)
Lemma reciprocal64 (x : Q) :
  pow2 (-1000) <= x → x <= pow2 1000 →
  ∃ r, F64.div (Num 1) (Num x) = Num r
       ∧ 1 - u <= r * x ∧ r * x <= 1 + u ∧ 0 < r.
Proof.
  intros H1 H2. pose proof (pow2_pos (-1000)) as Hp.
  assert (Hx : 0 < x) by lra.
  cbn [div]. destruct (Qeq_bool x 0) eqn:E0.
  { apply Qeq_bool_iff in E0. lra. }
  assert (Hinv1 : pow2 (-1000) <= 1 / x).
  { apply Qle_shift_div_l; [done|].
    assert (E : pow2 (-1000) * pow2 1000 == 1) by reflexivity.
    assert (pow2 (-1000) * x <= pow2 (-1000) * pow2 1000).
    { rewrite !(Qmult_comm (pow2 (-1000))). apply Qmult_le_compat_r; lra. }
    lra. }
  assert (Hinv2 : 1 / x <= pow2 1000).
  { apply Qle_shift_div_r; [done|].
    assert (E : pow2 1000 * pow2 (-1000) == 1) by reflexivity.
    assert (pow2 1000 * pow2 (-1000) <= pow2 1000 * x).
    { rewrite !(Qmult_comm (pow2 1000)). apply Qmult_le_compat_r; [lra|].
      apply Qlt_le_weak, pow2_pos. }
    lra. }
  destruct (round64_relative (1 / x)) as (r & Hr & R1 & R2).
  { assert (pow2 (-1022) <= pow2 (-1000)) by (apply pow2_le; lia). lra. }
  { assert (pow2 1000 <= pow2 1023) by (apply pow2_le; lia). lra. }
  exists r. split; [exact Hr|].
  assert (Hu0 : 0 < u) by apply pow2_pos.
  assert (Hu1 : u <= 1 # 1000000) by (apply Qle_bool_imp_le; reflexivity).
  assert (E1 : 1 / x * (1 - u) * x == 1 - u) by (field; lra).
  assert (E2 : 1 / x * (1 + u) * x == 1 + u) by (field; lra).
  assert (B1 : 1 / x * (1 - u) * x <= r * x) by (apply Qmult_le_compat_r; lra).
  assert (B2 : r * x <= 1 / x * (1 + u) * x) by (apply Qmult_le_compat_r; lra).
  split; [lra|]. split; [lra|].
  assert (0 < 1 / x * (1 - u)).
  { apply Qmult_lt_0_compat; [|lra]. apply Qlt_shift_div_l; lra. }
  lra.
Qed.

(** C10, as the code has it.  For a search window between [2^-500] and
    [2^500] days, when the grid of every band lies between the
    [min_freq_search] and [max_freq_search] the notebook computes, the
    float64 consensus period is strictly positive and lies in
    [[min_period, max_period]] up to a relative rounding error of
    [2^-48]. *)
Theorem C10_consensus_period_near_window (frequency power : dict (list Q))
    (min_period max_period lo hi : Q) :
  pow2 (-500) <= min_period →
  min_period <= max_period →
  max_period <= pow2 500 →
  min_freq_search64 max_period = Num lo →
  max_freq_search64 min_period = Num hi →
  (∀ filter, filter ∈ plot_filter_labels →
     ∃ f p, frequency !! filter = Some f ∧ power !! filter = Some p
            ∧ p ≠ [] ∧ length f = length p
            ∧ Forall (λ x, lo <= x ∧ x <= hi) f) →
  ∃ mean_peak_freq best_period,
    consensus64 frequency power = Return (Num mean_peak_freq, Num best_period)
    ∧ 0 < best_period
    ∧ min_period * (1 - pow2 (-48)) <= best_period
    ∧ best_period <= max_period * (1 + pow2 (-48)).
Proof.
  intros W1 W2 W3 Hlo Hhi Hall.
  assert (Hu0 : 0 < u) by apply pow2_pos.
  assert (Hu1 : u <= 1 # 1000000) by (apply Qle_bool_imp_le; reflexivity).
  assert (P500 : pow2 (-1000) <= pow2 (-500)) by (apply pow2_le; lia).
  assert (P500' : pow2 500 <= pow2 1000) by (apply pow2_le; lia).
  pose proof (pow2_pos (-1000)) as Hp1000.
  assert (Hmin0 : 0 < min_period) by lra.
  assert (Hmax0 : 0 < max_period) by lra.
  (* the window in frequency *)
  destruct (reciprocal64 max_period) as (lo' & Elo & L1 & L2 & L0); [lra | lra |].
  unfold min_freq_search64 in Hlo. rewrite Elo in Hlo. injection Hlo as ->.
  destruct (reciprocal64 min_period) as (hi' & Ehi & H1 & H2 & H0); [lra | lra |].
  unfold max_freq_search64 in Hhi. rewrite Ehi in Hhi. injection Hhi as ->.
  assert (Hlo_lower : pow2 (-501) <= lo).
  { assert (E : pow2 (-501) * pow2 500 == 1 # 2) by reflexivity.
    pose proof (pow2_pos (-501)) as Hq.
    assert (pow2 (-501) * max_period <= pow2 (-501) * pow2 500).
    { rewrite !(Qmult_comm (pow2 (-501))). apply Qmult_le_compat_r; lra. }
    assert (pow2 (-501) * max_period <= lo * max_period) by lra.
    by apply (Qmult_le_r _ _ max_period Hmax0). }
  assert (Hhi_upper : hi <= pow2 501).
  { assert (E : pow2 501 * pow2 (-500) == 2) by reflexivity.
    pose proof (pow2_pos 501) as Hq.
    assert (pow2 501 * pow2 (-500) <= pow2 501 * min_period).
    { rewrite !(Qmult_comm (pow2 501)). apply Qmult_le_compat_r; lra. }
    assert (hi * min_period <= pow2 501 * min_period) by lra.
    by apply (Qmult_le_r _ _ min_period Hmin0). }
  (* the peaks *)
  destruct (peak_freqs_returns frequency power) as (pf & Hpf & Hpeaks).
  { intros filter Hin. destruct (Hall filter Hin) as (f & p & Hf & Hp & Hne & Hlen & _).
    by exists f, p. }
  assert (Hwin : Forall (λ x, lo <= x ∧ x <= hi) pf).
  { apply (Forall2_Forall_right _ _ _ _ Hpeaks).
    intros filter x Hin (f' & p' & i & m & Hf' & Hp' & _ & Hx).
    destruct (Hall filter Hin) as (f & p & Hf & _ & _ & _ & Hgrid).
    rewrite Hf in Hf'. injection Hf' as <-.
    rewrite List.Forall_forall in Hgrid. apply Hgrid.
    apply list_elem_of_In. by eapply list_elem_of_lookup_2. }
  assert (Hlen : length pf = 6%nat).
  { by rewrite <- (Forall2_length _ _ _ Hpeaks). }
  (* the rounded sum *)
  destruct (foldl_add_bounds lo hi) with (a := pf) (s := 0) (t := 0) (k := 0%nat)
    as (s & Hs & T1 & T2 & S1 & S2).
  { assert (pow2 (-1022) <= pow2 (-501)) by (apply pow2_le; lia). lra. }
  { assert (pow2 501 <= pow2 1000) by (apply pow2_le; lia). lra. }
  { exact Hwin. }
  { rewrite Hlen. cbn. lia. }
  { change (inject_Z (Z.of_nat 0)) with 0. lra. }
  { change (inject_Z (Z.of_nat 0)) with 0. lra. }
  { lra. }
  { lra. }
  rewrite Hlen in T1, T2, S1, S2.
  change (inject_Z (Z.of_nat (0 + 6))) with 6 in T1, T2, S1, S2.
  assert (ET : 0 + total pf == total pf) by ring.
  rewrite ET in T1, T2, S1, S2. clear ET.
  set (T := total pf) in *.
  assert (HT0 : 0 < T) by lra.
  assert (Hs_lo : lo * (1 - 6 * u) <= s / 6).
  { apply Qle_shift_div_l; [reflexivity|].
    assert (6 * lo * (1 - 6 * u) <= T * (1 - 6 * u))
      by (apply Qmult_le_compat_r; lra).
    lra. }
  assert (Hs_hi : s / 6 <= hi * (1 + 12 * u)).
  { apply Qle_shift_div_r; [reflexivity|].
    assert (T * (1 + 2 * 6 * u) <= 6 * hi * (1 + 2 * 6 * u))
      by (apply Qmult_le_compat_r; lra).
    lra. }
  assert (Hlo6 : 0 < lo * (1 - 6 * u)) by (apply Qmult_lt_0_compat; lra).
  (* the mean *)
  destruct (round64_relative (s / 6)) as (m & Hm & M1 & M2).
  { assert (pow2 (-1022) <= pow2 (-501) * (1 # 2)) by (apply Qle_bool_imp_le; reflexivity).
    assert (pow2 (-501) * (1 - 6 * u) <= lo * (1 - 6 * u))
      by (apply Qmult_le_compat_r; lra).
    pose proof (pow2_pos (-501)).
    assert (pow2 (-501) * (1 # 2) <= pow2 (-501) * (1 - 6 * u)).
    { rewrite !(Qmult_comm (pow2 (-501))). apply Qmult_le_compat_r; lra. }
    lra. }
  { assert (pow2 501 * 2 <= pow2 1023) by (apply Qle_bool_imp_le; reflexivity).
    assert (hi * (1 + 12 * u) <= pow2 501 * 2).
    { apply Qmult_le_compat_nonneg; split; lra. }
    lra. }
  assert (Hm_lo : lo * ((1 - 6 * u) * (1 - u)) <= m).
  { assert (lo * (1 - 6 * u) * (1 - u) <= s / 6 * (1 - u))
      by (apply Qmult_le_compat_r; lra).
    assert (E : lo * ((1 - 6 * u) * (1 - u)) == lo * (1 - 6 * u) * (1 - u)) by ring.
    lra. }
  assert (Hm_hi : m <= hi * ((1 + 12 * u) * (1 + u))).
  { assert (s / 6 * (1 + u) <= hi * (1 + 12 * u) * (1 + u))
      by (apply Qmult_le_compat_r; lra).
    assert (E : hi * ((1 + 12 * u) * (1 + u)) == hi * (1 + 12 * u) * (1 + u)) by ring.
    lra. }
  assert (Hm0 : 0 < m).
  { assert (0 < lo * (1 - 6 * u) * (1 - u)) by (apply Qmult_lt_0_compat; lra).
    assert (E : lo * ((1 - 6 * u) * (1 - u)) == lo * (1 - 6 * u) * (1 - u)) by ring.
    lra. }
  (* the period *)
  destruct (reciprocal64 m) as (p & Hp & P1 & P2 & P0).
  { assert (pow2 (-1000) <= pow2 (-501) * (1 # 4)) by (apply Qle_bool_imp_le; reflexivity).
    pose proof (pow2_pos (-501)).
    assert (pow2 (-501) * (1 # 4) <= lo * ((1 - 6 * u) * (1 - u))).
    { apply Qmult_le_compat_nonneg; split; try lra.
      assert (E : (1 - 6 * u) * (1 - u) == 1 - 7 * u + 6 * (u * u)) by ring.
      assert (0 <= u * u) by (apply Qmult_le_0_compat; lra). lra. }
    lra. }
  { assert (pow2 501 * 4 <= pow2 1000) by (apply Qle_bool_imp_le; reflexivity).
    assert (hi * ((1 + 12 * u) * (1 + u)) <= pow2 501 * 4).
    { apply Qmult_le_compat_nonneg; split; try lra.
      - assert (0 <= (1 + 12 * u) * (1 + u)) by (apply Qmult_le_0_compat; lra). lra.
      - assert (E : (1 + 12 * u) * (1 + u) == 1 + 13 * u + 12 * (u * u)) by ring.
        assert (u * u <= 1 * u) by (apply Qmult_le_compat_r; lra). lra. }
    lra. }
  exists m, p. split.
  - unfold consensus64. rewrite Hpf. cbv [mbind py_bind bind].
    unfold mean_peak_freq64, best_period64, F64.mean, F64.sum.
    rewrite Hs, length_map, Hlen.
    change (round64 (inject_Z (Z.of_nat 6))) with (round64 6).
    replace (round64 6) with (Num 6) by (vm_compute; reflexivity).
    assert (Ed : F64.div (Num s) (Num 6) = Num m) by (cbn [div]; exact Hm).
    by rewrite Ed, Hp.
  - assert (E48 : pow2 (-48) == 32 * u) by reflexivity.
    rewrite E48. split; [exact P0|]. split.
    + apply (period_lower min_period hi m p u); try lra.
    + apply (period_upper max_period lo m p u); try lra.
Qed.

End Consensus64Facts.

Section Consensus64Examples.
Local Open Scope Q_scope.

(** An instance: the notebook's window, with the peak of every band at
    its upper end. *)
Lemma C10_near_window_witness :
  ∃ mean_peak_freq best_period,
    consensus64 window_ends_frequency window_ends_power
    = Return (Num mean_peak_freq, Num best_period)
    ∧ 0 < best_period
    ∧ min_period_005 * (1 - pow2 (-48)) <= best_period
    ∧ best_period <= max_period_105 * (1 + pow2 (-48)).
Proof.
  apply (C10_consensus_period_near_window _ _ _ _ freq_of_105 freq_of_005).
  - apply Qle_bool_imp_le. reflexivity.
  - apply Qle_bool_imp_le. reflexivity.
  - apply Qle_bool_imp_le. reflexivity.
  - vm_compute. reflexivity.
  - vm_compute. reflexivity.
  - intros filter Hin.
    exists [freq_of_105; freq_of_005], [1 # 4; 3 # 4].
    split; [|split; [|split; [done|split; [done|]]]].
    + repeat (apply elem_of_cons in Hin as [-> | Hin]); try reflexivity.
      by apply elem_of_nil in Hin.
    + repeat (apply elem_of_cons in Hin as [-> | Hin]); try reflexivity.
      by apply elem_of_nil in Hin.
    + repeat constructor; apply Qle_bool_imp_le; reflexivity.
Defined.

(** With the window [[0.05, 0.07]] and the peak of every band at the
    lowest frequency of the grid, [1.0 / 0.07], the mean of the six equal
    frequencies is rounded below that frequency, and the consensus
    period comes out above [max_period]. *)
Lemma C10_period_leaves_window :
  ∃ mean_peak_freq best_period,
    0 < min_period_005 ∧ min_period_005 <= max_period_007
    ∧ min_freq_search64 max_period_007 = Num freq_of_007
    ∧ max_freq_search64 min_period_005 = Num freq_of_005
    ∧ peak_freqs low_edge_frequency low_edge_power
      = Return [freq_of_007; freq_of_007; freq_of_007;
                freq_of_007; freq_of_007; freq_of_007]
    ∧ freq_of_007 <= freq_of_005
    ∧ consensus64 low_edge_frequency low_edge_power
      = Return (Num mean_peak_freq, Num best_period)
    ∧ mean_peak_freq < freq_of_007
    ∧ ¬ best_period <= max_period_007.
Proof.
  eexists _, _.
  split; [reflexivity|]. split; [apply Qle_bool_imp_le; reflexivity|].
  split; [vm_compute; reflexivity|]. split; [vm_compute; reflexivity|].
  split; [vm_compute; reflexivity|].
  split; [apply Qle_bool_imp_le; reflexivity|].
  split; [vm_compute; reflexivity|].
  split; [reflexivity|].
  intros H. apply Qle_bool_iff in H. vm_compute in H. discriminate.
Qed.

End Consensus64Examples.

(** ** Ties in the peak search *)

Section TieFacts.
Local Open Scope Q_scope.

(** On an increasing grid the first bin of maximum power is the bin of
    lowest frequency among those of maximum power. *)
Lemma first_max_lowest (frequency power : list Q) (i : nat) (m best : Q) :
  increasing_grid frequency power →
  first_max power i m → frequency !! i = Some best →
  lowest_frequency_peak frequency power m best.
Proof.
  intros (Hne & Hlen & Hsorted & Hpos) (Him & Hle & Hfirst) Hbest.
  assert (Hfpos : ∀ j fj, frequency !! j = Some fj → 0 < fj).
  { intros j fj Hjf. rewrite List.Forall_forall in Hpos. apply Hpos.
    apply list_elem_of_In. by eapply list_elem_of_lookup_2. }
  exists i. split; [exact Him|]. split; [exact Hbest|]. split; [exact Hle|].
  intros j v fj Hjv Hmv Hjf.
  assert (Hlow : best <= fj ∧ (j ≠ i → best < fj)).
  { destruct (Nat.lt_trichotomy j i) as [Hji | [-> | Hij]].
    - specialize (Hfirst _ _ Hjv Hji). lra.
    - rewrite Hbest in Hjf. injection Hjf as <-.
      split; [apply Qle_refl | done].
    - assert (best < fj) by (by eapply StronglySorted_lookup_lt).
      split; [by apply Qlt_le_weak | done]. }
  destruct Hlow as [Hbj Hstrict].
  split; [exact Hbj|]. split; [|exact Hstrict].
  pose proof (Hfpos _ _ Hbest) as Hb. pose proof (Hfpos _ _ Hjf) as Hj.
  unfold Qdiv. rewrite !Qmult_1_l.
  apply Qle_shift_inv_l; [exact Hb|].
  rewrite Qmult_comm. apply Qle_shift_div_r; [exact Hj | lra].
Qed.

Variable LombScargle_autopower :
  list Q → list Q → Q → Q → py (list Q * list Q).

#[local] Abbreviation object_service dia_sources objid :=
  (LombScargle_autopower (map midPointTai (rows_of dia_sources objid))
     (map gmag (rows_of dia_sources objid)) minfreq maxfreq).

(** C7. Both period estimators keep the first bin of maximum power of
    a periodogram of finite powers.  In the all-band cells the frequency
    appended for a band, and in the candidate loop the power and the
    frequency appended to [LSpower] and [LSfreq] for an object, are
    those of the lowest frequency among the bins of maximum power of its
    periodogram, whenever the grid is increasing: every other bin that
    ties for the maximum has a strictly higher frequency, and no longer
    a period. *)
Theorem C7_ties_resolve_to_lowest_frequency :
  (∀ frequency power : dict (list Q),
     (∀ filter, filter ∈ plot_filter_labels →
        ∃ f p, frequency !! filter = Some f ∧ power !! filter = Some p
               ∧ increasing_grid f p) →
     ∃ all_peak_freqs,
       peak_freqs frequency power = Return all_peak_freqs
       ∧ length all_peak_freqs = length plot_filter_labels
       ∧ ∀ k filter, plot_filter_labels !! k = Some filter →
           ∃ f p m best,
             frequency !! filter = Some f ∧ power !! filter = Some p
             ∧ all_peak_freqs !! k = Some best
             ∧ lowest_frequency_peak f p m best)
  ∧ (∀ dia_sources : list DiaSource,
       (∀ objid, objid ∈ Np.unique (map diaObjectId dia_sources) →
          ∃ f p, object_service dia_sources objid = Return (f, p)
                 ∧ increasing_grid f p) →
       ∃ LSpower LSfreq,
         object_periods LombScargle_autopower dia_sources
         = Return (Np.unique (map diaObjectId dia_sources), LSpower, LSfreq)
         ∧ ∀ i objid,
             Np.unique (map diaObjectId dia_sources) !! i = Some objid →
             ∃ f p m best,
               object_service dia_sources objid = Return (f, p)
               ∧ object_peak LombScargle_autopower dia_sources objid
                 = Return (m, best)
               ∧ LSpower !! i = Some m ∧ LSfreq !! i = Some best
               ∧ lowest_frequency_peak f p m best).
Proof.
  split.
  - intros frequency power Hall.
    destruct (peak_freqs_returns frequency power) as (pf & Hrun & Hpeaks).
    { intros filter Hin.
      destruct (Hall filter Hin) as (f & p & Hf & Hp & Hne & Hlen & _).
      by exists f, p. }
    exists pf. split; [exact Hrun|].
    split; [symmetry; by eapply Forall2_length|].
    intros k filter Hk.
    destruct (Forall2_lookup_l _ _ _ _ _ Hpeaks Hk)
      as (best & Hbest & f' & p' & i & m & Hf' & Hp' & Hfm & Hx).
    destruct (Hall filter) as (f & p & Hf & Hp & Hgrid).
    { by eapply list_elem_of_lookup_2. }
    rewrite Hf in Hf'. injection Hf' as <-.
    rewrite Hp in Hp'. injection Hp' as <-.
    exists f, p, m, best. split; [exact Hf|]. split; [exact Hp|].
    split; [exact Hbest|]. by eapply first_max_lowest.
  - intros dia_sources Hall.
    destruct (object_periods_returns LombScargle_autopower dia_sources)
      as (LSpower & LSfreq & Hrun & _ & _ & Hal).
    { intros objid Hin.
      destruct (Hall objid Hin) as (f & p & Hls & Hne & Hlen & _).
      destruct (object_peak_returns _ _ _ _ _ Hls Hne Hlen)
        as (i & m & x & _ & _ & Hpeak).
      by eexists. }
    exists LSpower, LSfreq. split; [exact Hrun|].
    intros i objid Hi.
    destruct (Hal i objid Hi) as (m & best & Hm & Hb & Hpeak).
    destruct (Hall objid) as (f & p & Hls & Hgrid).
    { by eapply list_elem_of_lookup_2. }
    destruct Hgrid as (Hne & Hlen & Hrest).
    destruct (object_peak_returns _ _ _ _ _ Hls Hne Hlen)
      as (j & m' & x' & Hfm & Hx & Hpeak').
    rewrite Hpeak in Hpeak'. injection Hpeak' as <- <-.
    exists f, p, m, best. split; [exact Hls|]. split; [exact Hpeak|].
    split; [exact Hm|]. split; [exact Hb|].
    by apply (first_max_lowest f p j).
Qed.

End TieFacts.

Section TieExamples.
Local Open Scope Q_scope.

(** An instance: the stand-in service ties its two upper bins, and the
    candidate loop keeps the lower of the two for the object. *)
Lemma C7_ties_witness :
  ∃ LSpower LSfreq,
    object_periods Fixture.autopower two_nights
    = Return (Np.unique (map diaObjectId two_nights), LSpower, LSfreq)
    ∧ ∀ i objid,
        Np.unique (map diaObjectId two_nights) !! i = Some objid →
        ∃ f p m best,
          Fixture.autopower (map midPointTai (rows_of two_nights objid))
            (map gmag (rows_of two_nights objid)) minfreq maxfreq
          = Return (f, p)
          ∧ object_peak Fixture.autopower two_nights objid = Return (m, best)
          ∧ LSpower !! i = Some m ∧ LSfreq !! i = Some best
          ∧ lowest_frequency_peak f p m best.
Proof.
  apply (proj2 (C7_ties_resolve_to_lowest_frequency Fixture.autopower)).
  intros objid _. eexists _, _. split; [reflexivity|].
  split; [done|]. split; [reflexivity|]. split; repeat constructor.
Defined.

(** The frequency kept for the example object is the middle bin, not
    the last one, although both have the maximum power. *)
Example tie_keeps_the_middle_bin :
  object_periods Fixture.autopower two_nights
  = Return ([1%Z], [3 # 4], [(minfreq + maxfreq) / 2])
  ∧ (minfreq + maxfreq) / 2 < maxfreq.
Proof. split; [reflexivity | reflexivity]. Qed.

End TieExamples.

(** ** The candidate plotting loop *)

Section FoldObjects64Facts.
Local Open Scope Q_scope.

Lemma fold_object64_returns (dia_sources : list DiaSource) (objids : list Z)
    (LSfreq : list f64) (i : nat) (objid : Z) (f : f64) :
  objids !! i = Some objid → LSfreq !! i = Some f →
  rows_of dia_sources objid ≠ [] →
  ∃ o, fold_object64 dia_sources objids LSfreq i = Return o.
Proof.
  intros Ho Hf Hrows. unfold fold_object64, index. rewrite Ho, Hf.
  cbv [mbind py_bind bind]. cbv zeta.
  destruct (rows_of dia_sources objid) as [|r rows]; [done|].
  cbn [map lookup list_lookup]. by eexists.
Qed.

Lemma fold_object64_raises (dia_sources : list DiaSource) (objids : list Z)
    (LSfreq : list f64) (i : nat) (cls : string) :
  fold_object64 dia_sources objids LSfreq i = Raise cls → cls = "IndexError".
Proof.
  unfold fold_object64, index. intros Hrun.
  destruct (objids !! i) as [objid|]; [|by injection Hrun].
  cbv [mbind py_bind bind] in Hrun.
  destruct (LSfreq !! i) as [f|]; [|by injection Hrun].
  cbv zeta in Hrun.
  destruct (rows_of dia_sources objid) as [|r rows]; [by injection Hrun|].
  done.
Qed.

(** X7. The plotting loop of section 3.3 needs a frequency and at least
    one row for every object.  When [LSfreq] has an entry for every
    object and every object has a row, it folds every object, in order,
    with the float64 period [1 / LSfreq[i]] and one phase per row of the
    object.  In every other case it raises [IndexError], from
    [LSfreq[i]] or from the [ra][0] of the line it prints, and nothing
    else. *)
Theorem fold_objects_spec (dia_sources : list DiaSource) (objids : list Z)
    (LSfreq : list f64) :
  ((length objids ≤ length LSfreq)%nat
   ∧ (∀ objid, objid ∈ objids → rows_of dia_sources objid ≠ []) →
   ∃ folds,
     fold_objects64 dia_sources objids LSfreq = Return folds
     ∧ length folds = length objids
     ∧ ∀ i objid, objids !! i = Some objid →
         ∃ o f, folds !! i = Some o ∧ LSfreq !! i = Some f
                ∧ obj_period64 o = F64.div (Num 1) f
                ∧ length (obj_phase64 o)
                  = length (rows_of dia_sources objid))
  ∧ (¬ ((length objids ≤ length LSfreq)%nat
        ∧ (∀ objid, objid ∈ objids → rows_of dia_sources objid ≠ [])) →
     fold_objects64 dia_sources objids LSfreq = Raise "IndexError").
Proof.
  split.
  - intros [Hlen Hrows].
    destruct (for_each_invariant
      (λ done (folds : list ObjectFold64),
         length folds = length done
         ∧ ∀ j i, done !! j = Some i →
             ∃ o, folds !! j = Some o
                  ∧ fold_object64 dia_sources objids LSfreq i = Return o)
      (λ i folds, o ← fold_object64 dia_sources objids LSfreq i;
                  Return (folds ++ [o]))
      (seq 0 (length objids)) []) as (folds & Hrun & Hl & Hinv).
    + split; [done|]. intros j i Hj. by rewrite lookup_nil in Hj.
    + intros done i folds [Hl Hinv] Hi.
      apply elem_of_seq in Hi as [_ Hi]. cbn in Hi.
      destruct (lookup_lt_is_Some_2 objids i Hi) as [objid Ho].
      destruct (lookup_lt_is_Some_2 LSfreq i) as [f Hf]; [lia|].
      destruct (fold_object64_returns dia_sources objids LSfreq i objid f Ho Hf)
        as [o Hret].
      { apply Hrows. by eapply list_elem_of_lookup_2. }
      exists (folds ++ [o]). split.
      * cbv [mbind py_bind bind]. by rewrite Hret.
      * split; [rewrite !length_app; cbn; lia|].
        intros j i' Hj. apply lookup_app_Some in Hj as [Hj | [Hge Hj]].
        -- destruct (Hinv j i' Hj) as (o' & Hfo & Hret'). exists o'.
           split; [|exact Hret'].
           rewrite lookup_app_l; [done | by eapply lookup_lt_Some].
        -- apply list_lookup_singleton_Some in Hj as [Hj <-].
           assert (j = length done) as -> by lia.
           exists o. split; [|exact Hret].
           rewrite <- Hl. rewrite lookup_app_r by lia.
           by rewrite Nat.sub_diag.
    + exists folds. split; [exact Hrun|].
      split; [by rewrite Hl, length_seq|].
      intros i objid Ho.
      assert (Hi : (i < length objids)%nat) by (by eapply lookup_lt_Some).
      destruct (Hinv i i) as (o & Hfo & Hret).
      { rewrite lookup_seq. cbn. split; [done | lia]. }
      destruct (fold_object64_returned _ _ _ _ _ Hret)
        as (objid' & f & Ho' & Hf & _ & Hper & Hn & Hph).
      rewrite Ho in Ho'. injection Ho' as <-.
      exists o, f. split; [exact Hfo|]. split; [exact Hf|].
      split; [exact Hper|].
      rewrite Hph, Hn. unfold phase64_of, mjd_norm64_of.
      by rewrite !length_map.
  - intros Hnot.
    destruct (fold_objects64 dia_sources objids LSfreq) as [folds|cls] eqn:Hrun.
    + exfalso. apply Hnot.
      assert (Heach : ∀ i objid, objids !! i = Some objid →
                is_Some (LSfreq !! i) ∧ rows_of dia_sources objid ≠ []).
      { intros i objid Ho.
        assert (Hi : i ∈ seq 0 (length objids)).
        { apply elem_of_seq. split; [lia|]. cbn. by eapply lookup_lt_Some. }
        destruct (for_each_returns_each _ _ _ _ Hrun i Hi) as (t & t' & Hbody).
        cbv [mbind py_bind bind] in Hbody.
        destruct (fold_object64 dia_sources objids LSfreq i) as [o|] eqn:Hret;
          [|done].
        destruct (fold_object64_returned _ _ _ _ _ Hret)
          as (objid' & f & Ho' & Hf & Hrows & _).
        rewrite Ho in Ho'. injection Ho' as <-. split; [by eexists | done]. }
      split.
      * destruct (Nat.le_gt_cases (length objids) (length LSfreq)) as [H|H];
          [done|].
        destruct (lookup_lt_is_Some_2 objids (length LSfreq) H) as [objid Ho].
        destruct (Heach _ _ Ho) as [[f Hf] _].
        apply lookup_lt_Some in Hf. lia.
      * intros objid Hin. apply list_elem_of_lookup in Hin as [i Ho].
        by destruct (Heach _ _ Ho).
    + f_equal.
      destruct (for_each_raises _ _ _ _ Hrun) as (i & t & _ & Hbody).
      cbv [mbind py_bind bind] in Hbody.
      destruct (fold_object64 dia_sources objids LSfreq i) as [o|c] eqn:Hret;
        [done|].
      injection Hbody as <-. by eapply fold_object64_raises.
Qed.

End FoldObjects64Facts.

(** ** Agreement with the machine's binary64 *)

(** The operations of [F64] against the processor's, on the operands of
    the examples of this file. *)
Section MachineAgreement.
Local Open Scope Q_scope.

#[local] Abbreviation fl := float_of_Z.

Example div_agrees :
  of_float (fl 3 / fl 10)%float = F64.div (Num 3) (Num 10)
  ∧ of_float (fl 1 / fl 3)%float = F64.div (Num 1) (Num 3)
  ∧ of_float (fl 4 / fl 3)%float = F64.div (Num 4) (Num 3)
  ∧ of_float (fl 1 / (fl 7 / fl 100))%float
    = F64.div (Num 1) (F64.div (Num 7) (Num 100))
  ∧ of_float (fl 1 / fl 0)%float = F64.div (Num 1) (Num 0)
  ∧ of_float (fl 0 / fl 0)%float = F64.div (Num 0) (Num 0).
Proof. repeat split; vm_compute; reflexivity. Qed.

Example sub_then_div_agrees :
  of_float ((fl 590001 / fl 10 - fl 59000) / (fl 3 / fl 10))%float
  = F64.div (F64.sub (F64.div (Num 590001) (Num 10)) (Num 59000))
      (F64.div (Num 3) (Num 10)).
Proof. vm_compute. reflexivity. Qed.

Example negative_count_agrees :
  of_float ((fl 59000 - fl 590001 / fl 10) / (fl 3 / fl 10))%float
  = F64.div (F64.sub (Num 59000) (F64.div (Num 590001) (Num 10)))
      (F64.div (Num 3) (Num 10))
  ∧ of_float ((fl 0 - fl 5) / fl 2)%float
    = F64.div (F64.sub (Num 0) (Num 5)) (Num 2)
  ∧ of_float ((fl 0 - fl 1) / fl 0)%float
    = F64.div (F64.sub (Num 0) (Num 1)) (Num 0).
Proof. repeat split; vm_compute; reflexivity. Qed.

Example sub_near_one_agrees :
  of_float (fl 1 - fl 1 / fl (2 ^ 57))%float
  = F64.sub (Num 1) (F64.div (Num 1) (Num (inject_Z (2 ^ 57))))
  ∧ of_float (fl 1 - fl 1 / fl (2 ^ 57))%float = Num 1
  ∧ of_float (fl 1 - fl 1 / fl (2 ^ 54))%float
    = F64.sub (Num 1) (F64.div (Num 1) (Num (inject_Z (2 ^ 54))))
  ∧ of_float (fl 1 - fl 1 / fl (2 ^ 54))%float = Num 1
  ∧ of_float (fl 1 - fl 1 / fl (2 ^ 53))%float
    = F64.sub (Num 1) (F64.div (Num 1) (Num (inject_Z (2 ^ 53)))).
Proof. repeat split; vm_compute; reflexivity. Qed.

Example mean_of_six_agrees :
  let x := (fl 1 / (fl 7 / fl 100))%float in
  of_float (fl 1 / ((x + x + x + x + x + x) / fl 6))%float
  = best_period64 (mean_peak_freq64
      [freq_of_007; freq_of_007; freq_of_007;
       freq_of_007; freq_of_007; freq_of_007]).
Proof. vm_compute. reflexivity. Qed.

Example range_ends_agree :
  let big := (fl (2 ^ 62) * fl (2 ^ 62))%float in
  of_float (fl 1 / (big * big * big * big) / (big * big * big * big)
            / fl (2 ^ 60) / fl (2 ^ 22))%float
  = Num (pow2 (-1074))
  ∧ of_float (fl 3 / (big * big * big * big) / (big * big * big * big)
              / fl (2 ^ 60) / fl (2 ^ 23))%float
    = F64.div (Num (3 * pow2 (-1074))) (Num 2)
  ∧ of_float (big * big * big * big * (big * big * big * big) * fl (2 ^ 31)
              + big * big * big * big * (big * big * big * big) * fl (2 ^ 31))%float
    = F64.add (Num (pow2 1023)) (Num (pow2 1023)).
Proof. repeat split; vm_compute; reflexivity. Qed.

End MachineAgreement.

